(** * rumpuser-xen: the cooperative scheduler and the block-device hypercalls

    A shallow embedding of [xen/sched.c] (the Mini-OS round-robin scheduler
    as used by rumpuser-xen) and of the block-device part of
    [rumphyper_base.c], with the properties of the design document proved
    or refuted on it.

    Conventions.
    - A [struct thread *] is an address ([nat]); the thread structures live
      in a heap [gmap nat thread].  The intrusive [TAILQ]s are lists of
      addresses, in queue order.
    - [uint32_t flags] is a [Z] in [0, 2^32); the complement in
      [flags &= ~F] is the 32-bit one.
    - [s_time_t] (signed 64-bit nanoseconds) and [int] are [Z].  The sums
      [now + SECONDS(10)] and [NOW() + MILLISECS(ms)] have an unsigned 64-bit
      operand: they are taken modulo [2^64] and read back as signed values
      ([to_s_time]).
    - The scheduler is cooperative and runs on one CPU: between two calls of
      [schedule] only the running thread and the event handlers touch the
      scheduler state.  The pieces of code are modelled as state
      transformers; the entry of a sleep, where a handler can see the thread
      between two stores, is also modelled statement by statement
      ([stmt]). *)

From stdpp Require Import gmap strings list fin_maps pretty.
From Stdlib Require Import ZArith Lia Ascii.

Open Scope Z_scope.

(* ===================================================================== *)
(** * The scheduler, [xen/sched.c] *)
(* ===================================================================== *)

Module Sched.

(** ** Thread records, [include/mini-os/sched.h] *)

Definition RUNNABLE_FLAG : Z := 0x00000001.
Definition THREAD_MUSTJOIN : Z := 0x00000002.
Definition THREAD_JOINED : Z := 0x00000004.
Definition THREAD_EXTSTACK : Z := 0x00000008.
Definition THREAD_TIMEDOUT : Z := 0x00000010.

(** [~F] on a [uint32_t]. *)
Definition not32 (f : Z) : Z := Z.lxor f 0xFFFFFFFF.

(** The fields of [struct thread] the scheduler reads or writes.  The stack,
    the machine context and [threrrno] belong to the architecture layer. *)
Record thread := mkThread {
  name : string;
  flags : Z;
  wakeup_time : Z;
  lwp : Z;
  cookie : Z
}.

Definition set_flags (f : Z) (th : thread) : thread :=
  mkThread (name th) f (wakeup_time th) (lwp th) (cookie th).
Definition set_wakeup_time (w : Z) (th : thread) : thread :=
  mkThread (name th) (flags th) w (lwp th) (cookie th).

(** [flag_set F th] is the truth value of the C expression
    [th->flags & F]. *)
Definition flag_set (F : Z) (th : thread) : bool :=
  negb (Z.land (flags th) F =? 0).
Definition flag_or (F : Z) (th : thread) : thread :=
  set_flags (Z.lor (flags th) F) th.
Definition flag_clear (F : Z) (th : thread) : thread :=
  set_flags (Z.land (flags th) (not32 F)) th.

Definition is_runnable : thread -> bool := flag_set RUNNABLE_FLAG.
Definition set_runnable : thread -> thread := flag_or RUNNABLE_FLAG.
Definition clear_runnable : thread -> thread := flag_clear RUNNABLE_FLAG.
Definition timed_out : thread -> bool := flag_set THREAD_TIMEDOUT.

(** ** Time, [include/mini-os/time.h] *)

(** Modelled from the spec: the header [mini-os/time.h] with the macros
    [SECONDS] and [MILLISECS] is not part of the sources; the design document
    gives the deadline of [msleep] as [now() + ms·10⁶ ns] and the scheduler's
    default as [now + 10 s], times being nanoseconds. *)
Definition SECONDS (s : Z) : Z := s * 1000000000.
Definition MILLISECS (ms : Z) : Z := ms * 1000000.

(** Modelled from the spec: times are [s_time_t], signed 64-bit counts of
    nanoseconds, and the header that declares the type and the macros is not
    part of the sources.  The factor of the macros is an unsigned constant,
    as [rumphyper_base.c] writes it out ([1000*1000*1000ULL]), so a sum with
    [SECONDS(..)] or [MILLISECS(..)] is computed modulo [2^64]; stored in an
    [s_time_t] it is read as a two's-complement value. *)
Definition to_s_time (z : Z) : Z :=
  let u := z mod 2 ^ 64 in if u <? 2 ^ 63 then u else u - 2 ^ 64.

(** ** Scheduler state *)

Record sched := mkSched {
  heap : gmap nat thread;          (* the live [struct thread]s *)
  thread_list : list nat;          (* the run queue *)
  exited_threads : list nat;
  joinwq : list (nat * nat);       (* (jw_thread, jw_wanted) *)
  current : nat                    (* get_current() *)
}.

Definition with_heap (h : gmap nat thread) (s : sched) : sched :=
  mkSched h (thread_list s) (exited_threads s) (joinwq s) (current s).
Definition with_thread_list (l : list nat) (s : sched) : sched :=
  mkSched (heap s) l (exited_threads s) (joinwq s) (current s).
Definition with_exited (l : list nat) (s : sched) : sched :=
  mkSched (heap s) (thread_list s) l (joinwq s) (current s).
Definition with_joinwq (l : list (nat * nat)) (s : sched) : sched :=
  mkSched (heap s) (thread_list s) (exited_threads s) l (current s).
Definition with_current (t : nat) (s : sched) : sched :=
  mkSched (heap s) (thread_list s) (exited_threads s) (joinwq s) t.

(** A write through a thread pointer. *)
Definition update (f : thread -> thread) (t : nat) (s : sched) : sched :=
  with_heap (alter f t (heap s)) s.

(** ** [wake], [block] *)

(** [thread->wakeup_time = 0LL; set_runnable(thread);] *)
Definition wake_thread (th : thread) : thread :=
  set_runnable (set_wakeup_time 0 th).
Definition wake (t : nat) (s : sched) : sched := update wake_thread t s.

(** [thread->wakeup_time = 0LL; clear_runnable(thread);] *)
Definition block_thread (th : thread) : thread :=
  clear_runnable (set_wakeup_time 0 th).
Definition block (t : nat) (s : sched) : sched := update block_thread t s.

(** ** The selection loop of [schedule] *)

(** The body of the [TAILQ_FOREACH_SAFE] on one thread: the timeout
    treatment, and the new [min_wakeup_time]. *)
Definition expire (now minw : Z) (th : thread) : thread * Z :=
  if negb (is_runnable th) && negb (wakeup_time th =? 0) then
    if wakeup_time th <=? now then
      (wake_thread (flag_or THREAD_TIMEDOUT th), minw)
    else if wakeup_time th <? minw then (th, wakeup_time th)
    else (th, minw)
  else (th, minw).

(** The walk over the run queue.  [seen] are the threads already passed,
    [todo] the rest of the queue.  The result is the heap, the queue, the
    value of [min_wakeup_time] and [next]; [None] stands for a queue entry
    that is not a live thread (a dangling pointer). *)
Fixpoint scan (now : Z) (h : gmap nat thread) (seen todo : list nat)
    (minw : Z) : option (gmap nat thread * list nat * Z * option nat) :=
  match todo with
  | [] => Some (h, seen, minw, None)
  | t :: rest =>
      match h !! t with
      | None => None
      | Some th =>
          let '(th', minw') := expire now minw th in
          if is_runnable th' then
            (* TAILQ_REMOVE; TAILQ_INSERT_TAIL; break *)
            Some (<[t := th']> h, seen ++ rest ++ [t], minw', Some t)
          else scan now (<[t := th']> h) (seen ++ [t]) rest minw'
      end
  end.

(** What the selection loop asks of its environment in one iteration: the
    reading of [NOW()], and the threads that the event handlers run by
    [force_evtchn_callback] wake (handlers reach the scheduler state only
    through [wake]). *)
Record round := mkRound { r_now : Z; r_woken : list nat }.

(** The hypervisor calls made while no thread is runnable. *)
Inductive hcall :=
  | block_domain (until : Z)
  | force_evtchn_callback.

Definition run_callbacks (ws : list nat) (s : sched) : sched :=
  foldl (fun s t => wake t s) s ws.

(** One iteration of the [do { ... } while(1)]: [inl] when the iteration
    leaves the loop with [next], [inr] when it went through [block_domain]
    and [force_evtchn_callback] and the loop goes round again. *)
Definition pass (r : round) (s : sched)
    : option (sched * nat + sched * list hcall) :=
  let now := r_now r in
  let min_wakeup_time := to_s_time (now + SECONDS 10) in
  match scan now (heap s) [] (thread_list s) min_wakeup_time with
  | None => None
  | Some (h, l, _, Some next) =>
      Some (inl (with_thread_list l (with_heap h s), next))
  | Some (h, l, minw, None) =>
      Some (inr (run_callbacks (r_woken r) (with_thread_list l (with_heap h s)),
                 [block_domain minw; force_evtchn_callback]))
  end.

Inductive outcome :=
  | Picked (s : sched) (next : nat) (log : list hcall)
  | Idle (s : sched) (log : list hcall)  (* the environment given is used up *)
  | BadPointer.

(** The whole loop, over the rounds the environment provides. *)
Fixpoint select (env : list round) (s : sched) (log : list hcall) : outcome :=
  match env with
  | [] => Idle s log
  | r :: env' =>
      match pass r s with
      | None => BadPointer
      | Some (inl (s', next)) => Picked s' next log
      | Some (inr (s', calls)) => select env' s' (log ++ calls)
      end
  end.

(** The end of [schedule], run by [prev] once it runs again: every exited
    thread other than [prev] is unlinked and freed. *)
Definition reap (prev : nat) (s : sched) : sched :=
  let gone := filter (fun t => t <> prev) (exited_threads s) in
  with_exited (filter (fun t => t = prev) (exited_threads s))
    (with_heap (foldr delete (heap s) gone) s).

(** A call of [schedule] by the current thread, as far as it runs before
    another thread does.  The two [BUG()] checks at its entry (called from an
    event callback, called with events masked) are preconditions of every
    call considered here, and [scheduler_hook] does not touch the scheduler
    state. *)
Inductive schedule_result :=
  | Resumed (s : sched) (log : list hcall)
      (* prev == next: no switch, the call returns *)
  | SwitchedTo (s : sched) (next : nat) (log : list hcall)
      (* switch_threads(prev, next): the call returns when prev is chosen
         again, and then runs [reap prev] *)
  | Halted (s : sched) (log : list hcall)
      (* still in the loop when the environment given is used up *)
  | Crashed.

Definition schedule (env : list round) (s : sched) : schedule_result :=
  let prev := current s in
  match select env s [] with
  | BadPointer => Crashed
  | Idle s' log => Halted s' log
  | Picked s' next log =>
      if decide (prev = next) then Resumed (reap prev s') log
      else SwitchedTo (with_current next s') next log
  end.

(** ** [create_thread] *)

(** [t] is the address and [th0] the content of the structure returned by
    [arch_create_thread]. *)
Definition create_thread (t : nat) (th0 : thread) (ck : Z) (s : sched) : sched :=
  let th := mkThread (name th0) 0 0 0 ck in
  with_thread_list (thread_list s ++ [t])
    (with_heap (<[t := set_runnable th]> (heap s)) s).

(** ** [dosleep], [msleep], [absmsleep] *)

(** [dosleep] up to its call of [schedule]. *)
Definition sleep_thread (w : Z) (th : thread) : thread :=
  clear_runnable (flag_clear THREAD_TIMEDOUT (set_wakeup_time w th)).
Definition dosleep_enter (w : Z) (s : sched) : sched :=
  update (sleep_thread w) (current s) s.

(** [dosleep] after [schedule] has returned in the thread [t]. *)
Definition dosleep_rv (th : thread) : Z :=
  if timed_out th then 1 else 0.
Definition dosleep_leave (t : nat) (s : sched) : option (Z * sched) :=
  match heap s !! t with
  | None => None
  | Some th => Some (dosleep_rv th, update (flag_clear THREAD_TIMEDOUT) t s)
  end.

(** How a call of [dosleep] by the current thread proceeds on a given
    environment. *)
Inductive sleep_result :=
  | Returned (rv : Z) (s : sched) (log : list hcall)
      (* [schedule] chose the caller itself *)
  | Switched (s : sched) (next : nat) (log : list hcall)
      (* another thread runs; the caller resumes when it is chosen later *)
  | Sleeping (s : sched) (log : list hcall)
  | Fault.

Definition dosleep (wakeuptime : Z) (env : list round) (s : sched)
    : sleep_result :=
  let thread := current s in
  match schedule env (dosleep_enter wakeuptime s) with
  | Crashed => Fault
  | Halted s' log => Sleeping s' log
  | SwitchedTo s' next log => Switched s' next log
  | Resumed s' log =>
      match dosleep_leave thread s' with
      | Some (rv, s'') => Returned rv s'' log
      | None => Fault
      end
  end.

(** [now] is the value of [NOW()] at the call; [millisecs] is a [uint32_t].
    The sum of [msleep] is a 64-bit one; the product of [absmsleep] is below
    [2^63] for every [uint32_t]. *)
Definition msleep (millisecs now : Z) : list round -> sched -> sleep_result :=
  dosleep (to_s_time (now + MILLISECS millisecs)).
Definition absmsleep (millisecs : Z) : list round -> sched -> sleep_result :=
  dosleep (MILLISECS millisecs).

(** ** [exit_thread], [join_thread] *)

(** The [TAILQ_FOREACH] over [joinwq] in [exit_thread]: the first waiter
    that wants [t] is woken. *)
Fixpoint wake_joiner (t : nat) (q : list (nat * nat)) (s : sched) : sched :=
  match q with
  | [] => s
  | (jw_thread, jw_wanted) :: q' =>
      if decide (jw_wanted = t) then wake jw_thread s else wake_joiner t q' s
  end.

(** One turn of the gate [while (thread->flags & THREAD_MUSTJOIN)], up to
    its call of [schedule]. *)
Definition exit_gate (s : sched) : sched :=
  let thread := current s in
  let s1 := update (flag_or THREAD_JOINED) thread s in
  block thread (wake_joiner thread (joinwq s1) s1).

(** After the gate: off the run queue, onto the exited list. *)
Definition exit_final (s : sched) : sched :=
  let thread := current s in
  let s1 := with_thread_list (filter (fun t => t <> thread) (thread_list s)) s in
  let s2 := update clear_runnable thread s1 in
  with_exited (thread :: exited_threads s2) s2.

(** One turn of [while (!(joinable->flags & THREAD_JOINED))], up to its call
    of [schedule], and the removal of the waiter after it. *)
Definition join_wait (joinable : nat) (s : sched) : sched :=
  let thread := current s in
  block thread (with_joinwq (joinwq s ++ [(thread, joinable)]) s).
Fixpoint remove_waiter (jw : nat * nat) (q : list (nat * nat)) : list (nat * nat) :=
  match q with
  | [] => []
  | x :: q' => if decide (x = jw) then q' else x :: remove_waiter jw q'
  end.
Definition join_resume (joinable : nat) (s : sched) : sched :=
  with_joinwq (remove_waiter (current s, joinable) (joinwq s)) s.

(** The end of [join_thread]. *)
Definition join_final (joinable : nat) (s : sched) : sched :=
  wake joinable (update (flag_clear THREAD_MUSTJOIN) joinable s).

(** ** The scheduler as a transition system

    The atomic pieces of the code above, as they follow one another on the
    CPU.  Pieces without a thread argument are run by [current]. *)
Inductive action :=
  | ACreate (t : nat) (th0 : thread) (ck : Z)
  | AWake (t : nat)                 (* by a thread or by an event handler *)
  | ABlock (t : nat)
  | ASleepEnter (w : Z)             (* dosleep / msleep / absmsleep *)
  | ASleepLeave
  | AClockSleep (w : Z)             (* rumpuser_clock_sleep, ABSMONO *)
  | APass (r : round)               (* one iteration of schedule's loop *)
  | AReap                           (* the end of schedule *)
  | AExitGate
  | AExitFinal
  | AJoinWait (joinable : nat)
  | AJoinResume (joinable : nat)
  | AJoinFinal (joinable : nat)
  | AMustJoin (t : nat).            (* the layer above marks t joinable *)

(** [rumpuser_clock_sleep] with [RUMPUSER_CLOCK_ABSMONO], up to its call of
    [schedule] ([rumphyper_base.c]); [w] is [sec * 10⁹ + nsec]. *)
Definition clock_sleep_enter (w : Z) (s : sched) : sched :=
  update (fun th => clear_runnable (set_wakeup_time w th)) (current s) s.

Definition live (t : nat) (s : sched) : bool :=
  bool_decide (is_Some (heap s !! t)).

Definition guard (b : bool) (s : sched) : option sched :=
  if b then Some s else None.

(** [exec a s] is [None] when [a] cannot be run in [s]: it dereferences a
    pointer to no live thread, or an assertion of the code fails. *)
Definition exec (a : action) (s : sched) : option sched :=
  match a with
  | ACreate t th0 ck =>
      guard (negb (live t s)) (create_thread t th0 ck s)
  | AWake t => guard (live t s) (wake t s)
  | ABlock t => guard (live t s) (block t s)
  | ASleepEnter w => guard (live (current s) s) (dosleep_enter w s)
  | ASleepLeave => snd <$> dosleep_leave (current s) s
  | AClockSleep w => guard (live (current s) s) (clock_sleep_enter w s)
  | APass r =>
      match pass r s with
      | None => None
      | Some (inl (s', next)) => Some (with_current next s')
      | Some (inr (s', _)) => Some s'
      end
  | AReap => Some (reap (current s) s)
  | AExitGate =>
      th ← heap s !! current s;
      guard (flag_set THREAD_MUSTJOIN th) (exit_gate s)
  | AExitFinal =>
      th ← heap s !! current s;
      guard (negb (flag_set THREAD_MUSTJOIN th)) (exit_final s)
  | AJoinWait j =>
      th ← heap s !! j;
      guard (live (current s) s && flag_set THREAD_MUSTJOIN th
             && negb (flag_set THREAD_JOINED th)) (join_wait j s)
  | AJoinResume j => Some (join_resume j s)
  | AJoinFinal j =>
      th ← heap s !! j;
      guard (flag_set THREAD_MUSTJOIN th && flag_set THREAD_JOINED th)
        (join_final j s)
  | AMustJoin t => guard (live t s) (update (flag_or THREAD_MUSTJOIN) t s)
  end.

Fixpoint run (tr : list action) (s : sched) : option sched :=
  match tr with
  | [] => Some s
  | a :: tr' => s' ← exec a s; run tr' s'
  end.

(** ** The entry of a sleep, statement by statement

    [dosleep] stores the deadline, then clears [THREAD_TIMEDOUT], then clears
    the runnable bit; [rumpuser_clock_sleep] stores the deadline and clears
    the runnable bit.  Events are not masked there ([schedule] insists on
    being called with events unmasked), so an event handler can run between
    any two of these statements, and a handler reaches the scheduler state
    through [wake].  No other thread runs in between: the scheduler is
    cooperative.  The other pieces of code stay whole ([SOp]): [wake],
    [block], [create_thread] and the loop of [schedule] store 0 in
    [wakeup_time] before they set a runnable bit, and the loop runs with
    events masked. *)

(** Where the running thread stands in the entry of a sleep. *)
Inductive entry :=
  | Out        (* not in one *)
  | Stored     (* after [thread->wakeup_time = wakeuptime] *)
  | Untimed.   (* after [thread->flags &= ~THREAD_TIMEDOUT] as well *)

Inductive stmt :=
  | SOp (a : action)    (* a piece of code run by the thread, as in [exec] *)
  | SStore (w : Z)      (* [thread->wakeup_time = wakeuptime] *)
  | SUntime             (* [thread->flags &= ~THREAD_TIMEDOUT], [dosleep] *)
  | SClearRunnable      (* [clear_runnable(thread)] *)
  | SEvent (t : nat).   (* an event handler runs [wake(t)] *)

Definition sexec (c : stmt) (st : sched * entry) : option (sched * entry) :=
  let '(s, e) := st in
  match c, e with
  | SOp a, Out => s' ← exec a s; Some (s', Out)
  | SStore w, Out =>
      guard (live (current s) s) (update (set_wakeup_time w) (current s) s)
        ≫= fun s' => Some (s', Stored)
  | SUntime, Stored =>
      Some (update (flag_clear THREAD_TIMEDOUT) (current s) s, Untimed)
  | SClearRunnable, (Stored | Untimed) =>
      Some (update clear_runnable (current s) s, Out)
  | SEvent t, _ => guard (live t s) (wake t s) ≫= fun s' => Some (s', e)
  | _, _ => None
  end.

Fixpoint srun (tr : list stmt) (st : sched * entry) : option (sched * entry) :=
  match tr with
  | [] => Some st
  | c :: tr' => st' ← sexec c st; srun tr' st'
  end.

End Sched.

(* ===================================================================== *)
(** * Block devices, [rumphyper_base.c] *)
(* ===================================================================== *)

Module Blk.

Definition NBLKDEV : Z := 10.
Definition BLKFDOFF : Z := 64.

(** The constants of [rumpuser.h], [errno.h] and [fcntl.h].  These headers
    are not part of the sources, so the code is read for any values of
    them. *)
Record consts := mkConsts {
  RUMPUSER_OPEN_WRONLY : Z;
  RUMPUSER_OPEN_RDWR : Z;
  RUMPUSER_OPEN_ACCMODE : Z;
  RUMPUSER_OPEN_BIO : Z;
  O_RDWR : Z;
  EIO : Z;
  ENXIO : Z;
  EBADF : Z;
  EROFS : Z
}.

(** The values NetBSD gives them. *)
Definition netbsd : consts :=
  mkConsts 0x0001 0x0002 0x0003 0x0010 2 5 6 9 30.

(** ** C strings *)

Definition uchar (c : ascii) : Z := Z.of_nat (nat_of_ascii c).
(** A plain [char] is signed on the x86 targets of Xen. *)
Definition schar (c : ascii) : Z :=
  if uchar c <? 128 then uchar c else uchar c - 256.

(** The byte at the start of a string; the end of the [string] is the
    terminating NUL. *)
Definition head_byte (s : string) : ascii :=
  match s with EmptyString => "000"%char | String c _ => c end.
Definition tail_bytes (s : string) : string :=
  match s with EmptyString => EmptyString | String _ r => r end.

Fixpoint strlen (s : string) : Z :=
  match s with
  | EmptyString => 0
  | String c r => if uchar c =? 0 then 0 else 1 + strlen r
  end.

Fixpoint strncmp (a b : string) (n : nat) : Z :=
  match n with
  | O => 0
  | S n' =>
      let ca := uchar (head_byte a) in
      let cb := uchar (head_byte b) in
      if ca =? cb then
        if ca =? 0 then 0 else strncmp (tail_bytes a) (tail_bytes b) n'
      else ca - cb
  end.

(** [name[i]]. *)
Fixpoint byte_at (s : string) (i : nat) : ascii :=
  match i with
  | O => head_byte s
  | S i' => byte_at (tail_bytes s) i'
  end.

(** ** [devname2num] *)

Definition devname2num (name : string) : Z :=
  (* we support only block devices *)
  if negb (strncmp name "blk" 3 =? 0) || negb (strlen name =? 4) then -1
  else
    let p := Z.to_nat (strlen name - 1) in
    let num := schar (byte_at name p) - schar "0"%char in
    if (num <? 0) || (num >=? NBLKDEV) then -1 else num.

(** ** Device slots *)

Record blkfront_info := mkInfo {
  sectors : Z;
  sector_size : Z;
  mode : Z
}.
#[export] Instance blkfront_info_inhabited : Inhabited blkfront_info :=
  populate (mkInfo 0 0 0).

(** The calls into the block backend.  [shutdown_blkfront] is recorded with
    the content of [blkdevs] at the time of the call. *)
Inductive backend_call :=
  | init_blkfront_call (path : string)
  | shutdown_blkfront (dev : option Z) (slots : list (option Z)).

(** A [struct blkfront_dev *] is [Some] handle, or [None] for [NULL]. *)
Record blk := mkBlk {
  blkdevs : list (option Z);
  blkinfos : list blkfront_info;
  blkopen : list Z;
  calls : list backend_call
}.

(** The static initial state: [NBLKDEV] zeroed slots. *)
Definition blk_init : blk :=
  mkBlk (replicate 10 None) (replicate 10 (mkInfo 0 0 0)) (replicate 10 0) [].

(** [a[i]] and [a[i] = v] for an index in range. *)
Definition slot {A} `{Inhabited A} (a : list A) (i : Z) : A :=
  a !!! Z.to_nat i.
Definition set_slot {A} (a : list A) (i : Z) (v : A) : list A :=
  <[Z.to_nat i := v]> a.

Section Hypercalls.

Context (K : consts).

(** The backend: what [init_blkfront(path, &info)] returns and what it
    leaves in [info]. *)
Context (init_blkfront : string -> blkfront_info -> option Z * blkfront_info).

Definition devopen (num : Z) (st : blk) : Z * blk :=
  let devnum := 768 + Z.shiftl num 6 in
  if negb (slot (blkopen st) num =? 0) then
    (1, mkBlk (blkdevs st) (blkinfos st)
          (set_slot (blkopen st) num (slot (blkopen st) num + 1)) (calls st))
  else
    let buf := "device/vbd/" +:+ pretty devnum in
    let '(dev, info) := init_blkfront buf (slot (blkinfos st) num) in
    let devs := set_slot (blkdevs st) num dev in
    let infos := set_slot (blkinfos st) num info in
    let log := calls st ++ [init_blkfront_call buf] in
    match dev with
    | Some _ => (0, mkBlk devs infos (set_slot (blkopen st) num 1) log)
    | None => (EIO K, mkBlk devs infos (blkopen st) log)  (* guess something *)
    end.

(** The result is the return value, the value stored to [*fdp] if any, and
    the state. *)
Definition rumpuser_open (name : string) (mode_ : Z) (st : blk)
    : Z * option Z * blk :=
  let num := devname2num name in
  if (Z.land mode_ (RUMPUSER_OPEN_BIO K) =? 0) || (num =? -1) then
    (ENXIO K, None, st)
  else
    let '(rv, st1) := devopen num st in
    if negb (rv =? 0) then (rv, None, st1)
    else
      let acc := Z.land mode_ (RUMPUSER_OPEN_ACCMODE K) in
      if ((acc =? RUMPUSER_OPEN_WRONLY K) || (acc =? RUMPUSER_OPEN_RDWR K))
         && negb (mode (slot (blkinfos st1) num) =? O_RDWR K) then
        (* XXX: unopen *)
        (EROFS K, None, st1)
      else (0, Some (BLKFDOFF + num), st1).

Definition rumpuser_close (fd : Z) (st : blk) : Z * blk :=
  let rfd := fd - BLKFDOFF in
  if (rfd <? 0) || (rfd + 1 >? NBLKDEV) then (EBADF K, st)
  else
    let n := slot (blkopen st) rfd - 1 in
    let opens := set_slot (blkopen st) rfd n in
    if n =? 0 then
      let toclose := slot (blkdevs st) rfd in
      (* not sure if this appropriately prevents races either ... *)
      let devs := set_slot (blkdevs st) rfd None in
      (0, mkBlk devs (blkinfos st) opens
            (calls st ++ [shutdown_blkfront toclose devs]))
    else (0, mkBlk (blkdevs st) (blkinfos st) opens (calls st)).

End Hypercalls.

(** ** The outstanding-request counters *)

(** The two critical sections on the counters: the end of [rumpuser_bio] and
    the end of [biocomp]. *)
Inductive section_kind := Submit | Complete.

(** Modelled from the spec: [rumpuser_mutex_enter] and [rumpuser_mutex_exit]
    belong to the runtime around this code and are not part of the sources;
    the design document describes [bio_mtx] as a mutex that protects the
    total and the per-slot counters.  [bio_mtx] is [None] when the mutex is
    free, and otherwise names the critical section that holds it: its kind,
    its slot [num] and how many of its statements have run. *)
Record bio := mkBio {
  bio_outstanding_total : Z;
  blkdev_outstanding : list Z;
  bio_mtx : option (section_kind * Z * nat)
}.

Definition bio_init : bio := mkBio 0 (replicate 10 0) None.

(** [blkdev_outstanding[num] += d]; an index outside the array is undefined
    in C and gives [None]. *)
Definition bump (num d : Z) (a : list Z) : option (list Z) :=
  if (0 <=? num) && (num <? NBLKDEV) then
    Some (set_slot a num (slot a num + d))
  else None.

Inductive bio_action :=
  | Enter (k : section_kind) (num : Z)  (* rumpuser_mutex_enter(bio_mtx) *)
  | Step.                               (* the holder's next statement *)

Definition bio_exec (a : bio_action) (b : bio) : option bio :=
  match a, bio_mtx b with
  | Enter k num, None =>
      Some (mkBio (bio_outstanding_total b) (blkdev_outstanding b) (Some (k, num, O)))
  | Enter _ _, Some _ => None
  | Step, None => None
  (* rumpuser_bio *)
  | Step, Some (Submit, num, 0%nat) =>      (* bio_outstanding_total++ *)
      Some (mkBio (bio_outstanding_total b + 1) (blkdev_outstanding b)
              (Some (Submit, num, 1%nat)))
  | Step, Some (Submit, num, 1%nat) =>      (* blkdev_outstanding[num]++ *)
      a' ← bump num 1 (blkdev_outstanding b);
      Some (mkBio (bio_outstanding_total b) a' (Some (Submit, num, 2%nat)))
  | Step, Some (Submit, num, 2%nat) =>      (* rumpuser_cv_signal(bio_cv) *)
      Some (mkBio (bio_outstanding_total b) (blkdev_outstanding b)
              (Some (Submit, num, 3%nat)))
  | Step, Some (Submit, num, _) =>          (* rumpuser_mutex_exit(bio_mtx) *)
      Some (mkBio (bio_outstanding_total b) (blkdev_outstanding b) None)
  (* biocomp *)
  | Step, Some (Complete, num, 0%nat) =>    (* bio_outstanding_total-- *)
      Some (mkBio (bio_outstanding_total b - 1) (blkdev_outstanding b)
              (Some (Complete, num, 1%nat)))
  | Step, Some (Complete, num, 1%nat) =>    (* blkdev_outstanding[num]-- *)
      a' ← bump num (-1) (blkdev_outstanding b);
      Some (mkBio (bio_outstanding_total b) a' (Some (Complete, num, 2%nat)))
  | Step, Some (Complete, num, _) =>        (* rumpuser_mutex_exit(bio_mtx) *)
      Some (mkBio (bio_outstanding_total b) (blkdev_outstanding b) None)
  end.

Fixpoint bio_run (tr : list bio_action) (b : bio) : option bio :=
  match tr with
  | [] => Some b
  | a :: tr' => b' ← bio_exec a b; bio_run tr' b'
  end.

(** The sum over all slots. *)
Definition sum_outstanding (a : list Z) : Z := foldr Z.add 0 a.

End Blk.

(* ===================================================================== *)
(** * Properties of the scheduler *)
(* ===================================================================== *)

Module SchedFacts.
Import Sched.

(** ** Flag arithmetic *)

Lemma land_lor_same (f F : Z) : Z.land (Z.lor f F) F = F.
Proof.
  apply Z.bits_inj'; intros n _.
  rewrite Z.land_spec, Z.lor_spec.
  destruct (Z.testbit f n), (Z.testbit F n); reflexivity.
Qed.

Lemma flag_set_or (F : Z) (th : thread) :
  F <> 0 -> flag_set F (flag_or F th) = true.
Proof.
  intros HF. unfold flag_set, flag_or; simpl.
  rewrite land_lor_same. apply negb_true_iff, Z.eqb_neq, HF.
Qed.

Lemma flag_set_clear (F : Z) (th : thread) :
  Z.land (not32 F) F = 0 -> flag_set F (flag_clear F th) = false.
Proof.
  intros HF. unfold flag_set, flag_clear; simpl.
  rewrite <- Z.land_assoc, HF, Z.land_0_r. reflexivity.
Qed.

Lemma flag_set_or_other (F G : Z) (th : thread) :
  Z.land F G = 0 -> flag_set G (flag_or F th) = flag_set G th.
Proof.
  intros HF. unfold flag_set, flag_or; simpl.
  rewrite Z.land_lor_distr_l, HF, Z.lor_0_r. reflexivity.
Qed.

Lemma flag_set_clear_other (F G : Z) (th : thread) :
  Z.land (not32 F) G = G -> flag_set G (flag_clear F th) = flag_set G th.
Proof.
  intros HF. unfold flag_set, flag_clear; simpl.
  rewrite <- Z.land_assoc, HF. reflexivity.
Qed.

Lemma flag_or_idem (F : Z) (th : thread) :
  flag_or F (flag_or F th) = flag_or F th.
Proof.
  unfold flag_or, set_flags; simpl.
  rewrite <- Z.lor_assoc, Z.lor_diag. reflexivity.
Qed.

Lemma is_runnable_set (th : thread) : is_runnable (set_runnable th) = true.
Proof. apply flag_set_or. discriminate. Qed.

Lemma is_runnable_clear (th : thread) : is_runnable (clear_runnable th) = false.
Proof. apply flag_set_clear. reflexivity. Qed.

Lemma is_runnable_wake (th : thread) : is_runnable (wake_thread th) = true.
Proof. apply is_runnable_set. Qed.

Lemma wakeup_time_wake (th : thread) : wakeup_time (wake_thread th) = 0.
Proof. reflexivity. Qed.

Lemma wake_thread_idem (th : thread) :
  wake_thread (wake_thread th) = wake_thread th.
Proof.
  unfold wake_thread, set_runnable.
  change (set_wakeup_time 0 (flag_or RUNNABLE_FLAG (set_wakeup_time 0 th)))
    with (flag_or RUNNABLE_FLAG (set_wakeup_time 0 th)).
  apply flag_or_idem.
Qed.

(** ** [wake] *)

(** C10: [wake t] stores 0 in the [wakeup_time] of [t] and sets its runnable
    bit, leaving its other flag bits alone; done twice it gives the state it
    gives done once; it changes neither the current thread nor any queue
    (it does not yield), nor any other thread. *)
Theorem wake_clears_sets_idempotent (s : sched) (t : nat) :
  heap (wake t s) !! t = wake_thread <$> heap s !! t
  /\ (forall th : thread,
        wakeup_time (wake_thread th) = 0
        /\ is_runnable (wake_thread th) = true
        /\ (forall F, Z.land RUNNABLE_FLAG F = 0 ->
              flag_set F (wake_thread th) = flag_set F th))
  /\ wake t (wake t s) = wake t s
  /\ current (wake t s) = current s
  /\ thread_list (wake t s) = thread_list s
  /\ exited_threads (wake t s) = exited_threads s
  /\ joinwq (wake t s) = joinwq s
  /\ (forall t' : nat, t' <> t -> heap (wake t s) !! t' = heap s !! t').
Proof.
  repeat split.
  - simpl. apply lookup_alter_eq.
  - apply is_runnable_wake.
  - intros F HF. unfold wake_thread, set_runnable.
    rewrite flag_set_or_other by exact HF. reflexivity.
  - unfold wake, update, with_heap; simpl. f_equal.
    rewrite alter_alter_eq. apply alter_ext.
    intros th _. apply wake_thread_idem.
  - intros t' Hne. simpl. apply lookup_alter_ne. congruence.
Qed.

(** ** One selection pass *)

(** The deadline of a sleeping thread has passed. *)
Definition expired (now : Z) (th : thread) : bool :=
  negb (is_runnable th) && negb (wakeup_time th =? 0) && (wakeup_time th <=? now).

(** The pass will take the thread: it is runnable, or made so by its
    timeout. *)
Definition eligible (now : Z) (th : thread) : bool :=
  is_runnable th || expired now th.

(** What the pass does to the thread it looks at. *)
Definition treat (now : Z) (th : thread) : thread :=
  if expired now th then wake_thread (flag_or THREAD_TIMEDOUT th) else th.

(** Every thread of [l] is live and not eligible. *)
Definition all_waiting (now : Z) (h : gmap nat thread) (l : list nat) : Prop :=
  Forall (fun u => exists th, h !! u = Some th /\ eligible now th = false) l.

Lemma expire_fst (now minw : Z) (th : thread) :
  fst (expire now minw th) = treat now th.
Proof.
  unfold expire, treat, expired.
  destruct (is_runnable th), (wakeup_time th =? 0), (wakeup_time th <=? now);
    simpl; try reflexivity;
    destruct (wakeup_time th <? minw); reflexivity.
Qed.

Lemma treat_runnable (now : Z) (th : thread) :
  is_runnable (treat now th) = eligible now th.
Proof.
  unfold treat, eligible.
  destruct (expired now th) eqn:He.
  - rewrite is_runnable_wake, orb_true_r. reflexivity.
  - rewrite orb_false_r. reflexivity.
Qed.

Lemma treat_waiting (now : Z) (th : thread) :
  eligible now th = false -> treat now th = th.
Proof.
  unfold eligible, treat. intros H.
  apply orb_false_elim in H as [_ ->]. reflexivity.
Qed.

Lemma treat_expired (now : Z) (th : thread) :
  expired now th = true ->
  timed_out (treat now th) = true
  /\ wakeup_time (treat now th) = 0
  /\ is_runnable (treat now th) = true.
Proof.
  intros He. unfold treat. rewrite He. repeat split.
  - unfold timed_out, wake_thread, set_runnable.
    rewrite flag_set_or_other by reflexivity.
    apply (flag_set_or THREAD_TIMEDOUT th). discriminate.
  - apply is_runnable_wake.
Qed.

Lemma treat_not_expired (now : Z) (th : thread) :
  expired now th = false -> treat now th = th.
Proof. intros He. unfold treat. rewrite He. reflexivity. Qed.

(** The walk, from any point of the queue. *)
Lemma scan_from (now : Z) (todo : list nat) :
  forall (h : gmap nat thread) (seen : list nat) (minw : Z),
    (forall t, t ∈ todo -> is_Some (h !! t)) ->
    exists minw',
      (all_waiting now h todo
       /\ scan now h seen todo minw = Some (h, seen ++ todo, minw', None))
      \/ (exists pre t post th,
            todo = pre ++ t :: post
            /\ all_waiting now h pre
            /\ h !! t = Some th
            /\ eligible now th = true
            /\ scan now h seen todo minw =
                 Some (<[t := treat now th]> h, seen ++ pre ++ post ++ [t],
                       minw', Some t)).
Proof.
  induction todo as [|t rest IH]; intros h seen minw Hlive.
  - exists minw. left. split; [constructor|].
    simpl. rewrite app_nil_r. reflexivity.
  - destruct (Hlive t) as [th Hth]; [left|].
    simpl. rewrite Hth.
    pose proof (expire_fst now minw th) as Hfst.
    destruct (expire now minw th) as [th' minw1]; simpl in Hfst; subst th'.
    rewrite treat_runnable.
    destruct (eligible now th) eqn:Hel.
    + exists minw1. right. exists [], t, rest, th.
      repeat split; try assumption; constructor.
    + rewrite (treat_waiting _ _ Hel), insert_id by exact Hth.
      destruct (IH h (seen ++ [t]) minw1) as [minw' [[Hall Hs]|Hpick]].
      { intros u Hu. apply Hlive. right. exact Hu. }
      * exists minw'. left. split.
        -- constructor; [exists th; split; assumption | exact Hall].
        -- rewrite Hs, <- app_assoc. reflexivity.
      * destruct Hpick as (pre & u & post & thu & -> & Hall & Hu & Helu & Hs).
        exists minw'. right. exists (t :: pre), u, post, thu.
        repeat split; try assumption.
        -- constructor; [exists th; split; assumption | exact Hall].
        -- rewrite Hs, <- app_assoc. reflexivity.
Qed.

(** C4: a pass over a run queue [R] of live threads either finds every
    thread waiting (not runnable, and asleep without a deadline or with one
    still ahead) and changes nothing, or splits [R] as [pre ++ t :: post]
    where the threads of [pre] are waiting and left as they are, and [t] is
    the first thread that is runnable once looked at: if its deadline had
    passed it gets [timed_out] set, [wakeup_time] 0 and the runnable bit,
    otherwise it is unchanged; [t] is [next], the queue becomes
    [pre ++ post ++ [t]] and no thread of [post] is looked at. *)
Theorem selection_pass (now : Z) (h : gmap nat thread) (R : list nat) (minw : Z) :
  (forall t, t ∈ R -> is_Some (h !! t)) ->
  exists minw',
    (all_waiting now h R /\ scan now h [] R minw = Some (h, R, minw', None))
    \/ (exists pre t post th,
          R = pre ++ t :: post
          /\ all_waiting now h pre
          /\ h !! t = Some th
          /\ (is_runnable th = true \/ expired now th = true)
          /\ scan now h [] R minw =
               Some (<[t := treat now th]> h, pre ++ post ++ [t], minw', Some t)
          /\ (expired now th = true ->
                timed_out (treat now th) = true
                /\ wakeup_time (treat now th) = 0
                /\ is_runnable (treat now th) = true)
          /\ (expired now th = false -> treat now th = th)).
Proof.
  intros Hlive.
  destruct (scan_from now R h [] minw Hlive) as [minw' [Hidle|Hpick]];
    exists minw'; [left; exact Hidle | right].
  destruct Hpick as (pre & t & post & th & HR & Hall & Hth & Hel & Hs).
  exists pre, t, post, th. repeat split; try assumption.
  - apply orb_true_iff. exact Hel.
  - apply treat_expired; assumption.
  - apply treat_expired; assumption.
  - apply treat_expired; assumption.
  - apply treat_not_expired.
Qed.

(** ** The idle branch *)

(** The deadlines of the sleeping threads of [R] that are still ahead. *)
Definition future_wakeup (now : Z) (h : gmap nat thread) (t : nat) : option Z :=
  th ← h !! t;
  if negb (is_runnable th) && negb (wakeup_time th =? 0) && (now <? wakeup_time th)
  then Some (wakeup_time th) else None.
Definition future_wakeups (now : Z) (h : gmap nat thread) (R : list nat) : list Z :=
  omap (future_wakeup now h) R.

(** The least of [d] and the members of [ws]. *)
Definition earliest (d : Z) (ws : list Z) : Z := foldr Z.min d ws.

Lemma earliest_min (d w : Z) (ws : list Z) :
  earliest (Z.min d w) ws = Z.min w (earliest d ws).
Proof. induction ws as [|x ws IH]; simpl; [lia | rewrite IH; lia]. Qed.

Lemma earliest_le (d : Z) (ws : list Z) :
  earliest d ws <= d /\ Forall (fun w => earliest d ws <= w) ws.
Proof.
  induction ws as [|x ws [IH1 IH2]]; simpl; [split; [lia | constructor]|].
  split; [lia|]. constructor; [lia|].
  eapply Forall_impl; [exact IH2|]. simpl; intros; lia.
Qed.

Lemma earliest_attained (d : Z) (ws : list Z) :
  earliest d ws = d \/ earliest d ws ∈ ws.
Proof.
  induction ws as [|x ws IH]; [left; reflexivity|].
  change (earliest d (x :: ws)) with (Z.min x (earliest d ws)).
  destruct (Z.min_spec x (earliest d ws)) as [[_ ->]|[_ ->]].
  - right. left.
  - destruct IH as [IH|IH]; [left; exact IH | right; right; exact IH].
Qed.

Lemma future_wakeups_ahead (now : Z) (h : gmap nat thread) (R : list nat) :
  Forall (fun w => now < w) (future_wakeups now h R).
Proof.
  apply Forall_forall. intros w Hw.
  apply list_elem_of_omap in Hw as (t & _ & Ht).
  unfold future_wakeup in Ht. destruct (h !! t) as [th|]; simpl in Ht; [|discriminate].
  destruct (now <? wakeup_time th) eqn:Hlt;
    [| rewrite andb_false_r in Ht; discriminate].
  destruct (_ && _) in Ht; simpl in Ht; [|discriminate].
  injection Ht as <-. apply Z.ltb_lt. exact Hlt.
Qed.

(** On a waiting thread the pass only updates [min_wakeup_time]. *)
Lemma expire_waiting (now minw : Z) (h : gmap nat thread) (t : nat) (th : thread) :
  h !! t = Some th -> eligible now th = false ->
  snd (expire now minw th) = earliest minw (future_wakeups now h [t]).
Proof.
  intros Hth Hel. unfold future_wakeups, future_wakeup; simpl. rewrite Hth; simpl.
  unfold eligible, expired in Hel. unfold expire.
  destruct (is_runnable th); [discriminate|]; simpl in *.
  destruct (wakeup_time th =? 0); simpl in *; [reflexivity|].
  destruct (wakeup_time th <=? now) eqn:Hle; [discriminate|].
  apply Z.leb_gt in Hle. apply Z.ltb_lt in Hle as ->. simpl.
  destruct (wakeup_time th <? minw) eqn:Hlt; simpl.
  - apply Z.ltb_lt in Hlt. lia.
  - apply Z.ltb_ge in Hlt. lia.
Qed.

Lemma scan_waiting (now : Z) (h : gmap nat thread) (todo : list nat) :
  forall (seen : list nat) (minw : Z),
    all_waiting now h todo ->
    scan now h seen todo minw =
      Some (h, seen ++ todo, earliest minw (future_wakeups now h todo), None).
Proof.
  induction todo as [|t rest IH]; intros seen minw Hall; simpl.
  - rewrite app_nil_r. reflexivity.
  - inversion Hall as [|? ? (th & Hth & Hel) Hrest]; subst.
    rewrite Hth.
    pose proof (expire_fst now minw th) as Hfst.
    pose proof (expire_waiting now minw h t th Hth Hel) as Hsnd.
    destruct (expire now minw th) as [th' minw1]; simpl in Hfst, Hsnd; subst th'.
    rewrite treat_runnable, Hel, (treat_waiting _ _ Hel), insert_id by exact Hth.
    rewrite (IH _ _ Hrest), <- app_assoc. simpl.
    do 3 f_equal. subst minw1.
    unfold future_wakeups; simpl.
    destruct (future_wakeup now h t) as [w|]; simpl; [|reflexivity].
    rewrite (Z.min_comm w minw), earliest_min. reflexivity.
Qed.

Lemma scan_none_waiting (now : Z) (todo : list nat) :
  forall (h : gmap nat thread) (seen : list nat) (minw : Z) h' l' d,
    scan now h seen todo minw = Some (h', l', d, None) ->
    all_waiting now h todo.
Proof.
  induction todo as [|t rest IH]; intros h seen minw h' l' d Hs; [constructor|].
  simpl in Hs. destruct (h !! t) as [th|] eqn:Hth; [|discriminate].
  pose proof (expire_fst now minw th) as Hfst.
  destruct (expire now minw th) as [th' minw1]; simpl in Hfst; subst th'.
  rewrite treat_runnable in Hs.
  destruct (eligible now th) eqn:Hel; [discriminate|].
  rewrite (treat_waiting _ _ Hel), insert_id in Hs by exact Hth.
  constructor; [exists th; split; assumption|].
  eapply IH. exact Hs.
Qed.

Lemma run_callbacks_thread_list (ws : list nat) (s : sched) :
  thread_list (run_callbacks ws s) = thread_list s.
Proof.
  revert s. induction ws as [|w ws IH]; intros s; [reflexivity|].
  change (run_callbacks (w :: ws) s) with (run_callbacks ws (wake w s)).
  rewrite IH. reflexivity.
Qed.

(** A sum that fits an [s_time_t] is stored as it is. *)
Lemma to_s_time_small (z : Z) : - 2 ^ 63 <= z < 2 ^ 63 -> to_s_time z = z.
Proof.
  intros H. unfold to_s_time.
  destruct (Z_lt_le_dec z 0) as [Hneg|Hpos].
  - replace (z mod 2 ^ 64) with (z + 2 ^ 64)
      by (apply Z.mod_unique with (q := -1); lia).
    destruct (Z.ltb_spec (z + 2 ^ 64) (2 ^ 63)); lia.
  - rewrite Z.mod_small by lia.
    destruct (Z.ltb_spec z (2 ^ 63)); lia.
Qed.

Lemma to_s_time_range (z : Z) : - 2 ^ 63 <= to_s_time z < 2 ^ 63.
Proof.
  unfold to_s_time.
  pose proof (Z.mod_pos_bound z (2 ^ 64) ltac:(lia)) as Hu.
  destruct (Z.ltb_spec (z mod 2 ^ 64) (2 ^ 63)); lia.
Qed.

(** C5, as the code has it: a clock reading [now] is an [s_time_t] more
    than 10 s before the end of its range, so that [now + SECONDS(10)] does
    not wrap around.  When the walk over [R] ends without a runnable thread,
    it has changed nothing, and the iteration calls [block_domain] with the
    least of [now + 10 s] and the deadlines of the sleeping threads that lie
    after [now], then [force_evtchn_callback], in this order and nothing
    else; the loop then goes on with a new walk over the whole of [R], in the
    state the event handlers left.  The deadline is after [now], at most
    [now + 10 s], at most every pending deadline, and is one of these
    values. *)
Theorem idle_pass_blocks_until_earliest (r : round) (env : list round)
    (s : sched) (log : list hcall) h' l' d :
  - 2 ^ 63 <= r_now r < 2 ^ 63 - SECONDS 10 ->
  scan (r_now r) (heap s) [] (thread_list s) (to_s_time (r_now r + SECONDS 10))
    = Some (h', l', d, None) ->
  let pending := future_wakeups (r_now r) (heap s) (thread_list s) in
  let s' := run_callbacks (r_woken r) s in
  let calls := [block_domain d; force_evtchn_callback] in
  h' = heap s /\ l' = thread_list s
  /\ d = earliest (r_now r + SECONDS 10) pending
  /\ pass r s = Some (inr (s', calls))
  /\ select [r] s log = Idle s' (log ++ calls)
  /\ schedule [r] s = Halted s' calls
  /\ (forall (r2 : round) (env2 : list round),
        select (r :: r2 :: env2) s log =
          match pass r2 s' with
          | None => BadPointer
          | Some (inl (s'', next)) => Picked s'' next (log ++ calls)
          | Some (inr (s'', calls2)) =>
              select env2 s'' ((log ++ calls) ++ calls2)
          end)
  /\ select (r :: env) s log = select env s' (log ++ calls)
  /\ thread_list s' = thread_list s
  /\ r_now r < d <= r_now r + SECONDS 10
  /\ Forall (fun w => d <= w) pending
  /\ (d = r_now r + SECONDS 10 \/ d ∈ pending).
Proof.
  intros Hclock Hs pending s' calls.
  rewrite to_s_time_small in Hs by (unfold SECONDS in *; lia).
  pose proof (scan_none_waiting _ _ _ _ _ _ _ _ Hs) as Hall.
  pose proof (scan_waiting _ _ _ [] (r_now r + SECONDS 10) Hall) as Heq.
  rewrite Hs in Heq. simpl in Heq. injection Heq as -> -> ->.
  fold pending.
  destruct (earliest_le (r_now r + SECONDS 10) pending) as [Hle Hall'].
  pose proof (earliest_attained (r_now r + SECONDS 10) pending) as Hatt.
  pose proof (future_wakeups_ahead (r_now r) (heap s) (thread_list s)) as Hahead.
  fold pending in Hahead.
  assert (pass r s = Some (inr (s', calls))) as Hpass.
  { unfold pass. rewrite to_s_time_small by (unfold SECONDS in *; lia).
    rewrite Hs. destruct s; reflexivity. }
  split; [reflexivity|]. split; [reflexivity|]. split; [reflexivity|].
  split; [exact Hpass|].
  split; [simpl; rewrite Hpass; reflexivity|].
  split; [unfold schedule; simpl; rewrite Hpass; reflexivity|].
  split; [intros r2 env2; simpl; rewrite Hpass; reflexivity|].
  split; [simpl; rewrite Hpass; reflexivity|].
  split; [apply run_callbacks_thread_list|].
  split; [|split; assumption].
  split; [|exact Hle].
  destruct Hatt as [->|Hin]; [unfold SECONDS in *; lia|].
  rewrite Forall_forall in Hahead. apply Hahead. exact Hin.
Qed.

(** ** The invariant: a runnable thread has no deadline *)

Definition no_deadline_if_runnable (th : thread) : Prop :=
  is_runnable th = true -> wakeup_time th = 0.

Definition runnable_inv (s : sched) : Prop :=
  map_Forall (fun _ th => no_deadline_if_runnable th) (heap s).

Create HintDb thread_inv.

Lemma inv_wake_thread th : no_deadline_if_runnable (wake_thread th).
Proof. intros _. reflexivity. Qed.

Lemma inv_not_runnable th : is_runnable th = false -> no_deadline_if_runnable th.
Proof. intros H1 H2. congruence. Qed.

Lemma inv_block_thread th : no_deadline_if_runnable (block_thread th).
Proof. apply inv_not_runnable, is_runnable_clear. Qed.

Lemma inv_clear_runnable th : no_deadline_if_runnable (clear_runnable th).
Proof. apply inv_not_runnable, is_runnable_clear. Qed.

Lemma inv_sleep_thread w th : no_deadline_if_runnable (sleep_thread w th).
Proof. apply inv_not_runnable, is_runnable_clear. Qed.

Lemma inv_flag_or F th :
  Z.land F RUNNABLE_FLAG = 0 ->
  no_deadline_if_runnable th -> no_deadline_if_runnable (flag_or F th).
Proof.
  intros HF Hth Hr. unfold is_runnable in Hr.
  rewrite flag_set_or_other in Hr by exact HF. exact (Hth Hr).
Qed.

Lemma inv_flag_clear F th :
  Z.land (not32 F) RUNNABLE_FLAG = RUNNABLE_FLAG ->
  no_deadline_if_runnable th -> no_deadline_if_runnable (flag_clear F th).
Proof.
  intros HF Hth Hr. unfold is_runnable in Hr.
  rewrite flag_set_clear_other in Hr by exact HF. exact (Hth Hr).
Qed.

Lemma inv_treat now th :
  no_deadline_if_runnable th -> no_deadline_if_runnable (treat now th).
Proof.
  intros Hth. unfold treat. destruct (expired now th);
    [apply inv_wake_thread | exact Hth].
Qed.

#[local] Hint Resolve inv_wake_thread inv_block_thread inv_clear_runnable
  inv_sleep_thread inv_treat : thread_inv.

Lemma inv_alter (f : thread -> thread) (t : nat) (h : gmap nat thread) :
  (forall th, no_deadline_if_runnable th -> no_deadline_if_runnable (f th)) ->
  map_Forall (fun _ th => no_deadline_if_runnable th) h ->
  map_Forall (fun _ th => no_deadline_if_runnable th) (alter f t h).
Proof.
  intros Hf Hs u thu Hu.
  destruct (decide (t = u)) as [->|Hne].
  - rewrite lookup_alter_eq in Hu.
    destruct (h !! u) as [th|] eqn:Hth; [|discriminate].
    injection Hu as <-. apply Hf. exact (Hs u th Hth).
  - rewrite lookup_alter_ne in Hu by exact Hne. exact (Hs u thu Hu).
Qed.

Lemma inv_update (f : thread -> thread) (t : nat) (s : sched) :
  (forall th, no_deadline_if_runnable th -> no_deadline_if_runnable (f th)) ->
  runnable_inv s -> runnable_inv (update f t s).
Proof. intros Hf Hs. apply inv_alter; assumption. Qed.

Lemma inv_wake t s : runnable_inv s -> runnable_inv (wake t s).
Proof. apply inv_update. auto with thread_inv. Qed.

Lemma inv_block t s : runnable_inv s -> runnable_inv (block t s).
Proof. apply inv_update. auto with thread_inv. Qed.

Lemma inv_run_callbacks ws s :
  runnable_inv s -> runnable_inv (run_callbacks ws s).
Proof.
  revert s. induction ws as [|w ws IH]; intros s Hs; [exact Hs|].
  change (run_callbacks (w :: ws) s) with (run_callbacks ws (wake w s)).
  apply IH, inv_wake, Hs.
Qed.

Lemma inv_scan now todo :
  forall h seen minw h' l' d o,
    scan now h seen todo minw = Some (h', l', d, o) ->
    map_Forall (fun _ th => no_deadline_if_runnable th) h ->
    map_Forall (fun _ th => no_deadline_if_runnable th) h'.
Proof.
  induction todo as [|t rest IH]; intros h seen minw h' l' d o Hs Hh; simpl in Hs.
  - injection Hs as <- _ _ _. exact Hh.
  - destruct (h !! t) as [th|] eqn:Hth; [|discriminate].
    pose proof (expire_fst now minw th) as Hfst.
    destruct (expire now minw th) as [th' minw1]; simpl in Hfst; subst th'.
    assert (map_Forall (fun _ th => no_deadline_if_runnable th)
              (<[t := treat now th]> h)) as Hh'.
    { apply map_Forall_insert_2; [|exact Hh].
      apply inv_treat. exact (Hh t th Hth). }
    destruct (is_runnable (treat now th)).
    + injection Hs as <- _ _ _. exact Hh'.
    + eapply IH; eassumption.
Qed.

Lemma inv_pass r s :
  runnable_inv s ->
  match pass r s with
  | Some (inl (s', _)) | Some (inr (s', _)) => runnable_inv s'
  | None => True
  end.
Proof.
  intros Hs. unfold pass.
  destruct (scan _ _ _ _ _) as [[[[h l] d] [next|]]|] eqn:Hscan; [| |exact I].
  - exact (inv_scan _ _ _ _ _ _ _ _ _ Hscan Hs).
  - apply inv_run_callbacks. exact (inv_scan _ _ _ _ _ _ _ _ _ Hscan Hs).
Qed.

Lemma inv_select env :
  forall s log, runnable_inv s ->
    match select env s log with
    | Picked s' _ _ | Idle s' _ => runnable_inv s'
    | BadPointer => True
    end.
Proof.
  induction env as [|r env IH]; intros s log Hs; simpl; [exact Hs|].
  pose proof (inv_pass r s Hs) as Hp.
  destruct (pass r s) as [[[s' next]|[s' calls]]|]; [exact Hp | | exact I].
  apply IH. exact Hp.
Qed.

Lemma inv_reap prev s : runnable_inv s -> runnable_inv (reap prev s).
Proof.
  intros Hs. unfold reap, runnable_inv; simpl.
  induction (filter _ (exited_threads s)) as [|x l IH]; simpl; [exact Hs|].
  apply map_Forall_delete. exact IH.
Qed.

Lemma inv_wake_joiner t q s :
  runnable_inv s -> runnable_inv (wake_joiner t q s).
Proof.
  intros Hs. induction q as [|[a b] q IH]; simpl; [exact Hs|].
  destruct (decide (b = t)); [apply inv_wake; exact Hs | exact IH].
Qed.

Lemma inv_guard (b : bool) (s s' : sched) :
  guard b s = Some s' -> runnable_inv s -> runnable_inv s'.
Proof. unfold guard. destruct b; [|discriminate]. intros [= <-]. auto. Qed.

Lemma inv_exec (a : action) (s s' : sched) :
  runnable_inv s -> exec a s = Some s' -> runnable_inv s'.
Proof.
  intros Hs He. destruct a; simpl in He.
  - eapply inv_guard; [exact He|].
    unfold create_thread, runnable_inv; simpl.
    apply map_Forall_insert_2; [|exact Hs]. intros _. reflexivity.
  - eapply inv_guard; [exact He|]. apply inv_wake, Hs.
  - eapply inv_guard; [exact He|]. apply inv_block, Hs.
  - eapply inv_guard; [exact He|]. apply inv_update; auto with thread_inv.
  - unfold dosleep_leave in He.
    destruct (heap s !! current s); simpl in He; [|discriminate].
    injection He as <-. apply inv_update; [|exact Hs].
    intros th. apply inv_flag_clear. reflexivity.
  - eapply inv_guard; [exact He|]. apply inv_update; [|exact Hs].
    intros th _. apply inv_clear_runnable.
  - pose proof (inv_pass r s Hs) as Hp.
    destruct (pass r s) as [[[s1 next]|[s1 calls]]|]; [| |discriminate];
      injection He as <-; exact Hp.
  - injection He as <-. apply inv_reap, Hs.
  - destruct (heap s !! current s); simpl in He; [|discriminate].
    eapply inv_guard; [exact He|].
    unfold exit_gate. apply inv_block, inv_wake_joiner, inv_update; [|exact Hs].
    intros th. apply inv_flag_or. reflexivity.
  - destruct (heap s !! current s); simpl in He; [|discriminate].
    eapply inv_guard; [exact He|].
    unfold exit_final, runnable_inv; simpl.
    apply inv_alter; [|exact Hs].
    intros th _. apply inv_clear_runnable.
  - destruct (heap s !! joinable); simpl in He; [|discriminate].
    eapply inv_guard; [exact He|].
    unfold join_wait. apply inv_block. exact Hs.
  - injection He as <-. exact Hs.
  - destruct (heap s !! joinable); simpl in He; [|discriminate].
    eapply inv_guard; [exact He|].
    unfold join_final. apply inv_wake, inv_update; [|exact Hs].
    intros th. apply inv_flag_clear. reflexivity.
  - eapply inv_guard; [exact He|]. apply inv_update; [|exact Hs].
    intros th. apply inv_flag_or. reflexivity.
Qed.

Lemma inv_dosleep w env s :
  runnable_inv s ->
  match dosleep w env s with
  | Returned _ s' _ | Switched s' _ _ | Sleeping s' _ => runnable_inv s'
  | Fault => True
  end.
Proof.
  intros Hs. unfold dosleep, schedule.
  assert (runnable_inv (dosleep_enter w s)) as H1.
  { apply inv_update; auto with thread_inv. }
  pose proof (inv_select env _ [] H1) as H2.
  change (current (dosleep_enter w s)) with (current s).
  destruct (select env (dosleep_enter w s) []) as [s1 next log|s1 log|];
    [| exact H2 | exact I].
  destruct (decide (current s = next)); [|exact H2].
  unfold dosleep_leave.
  destruct (heap (reap (current s) s1) !! current s); [|exact I].
  apply inv_update; [|apply inv_reap, H2].
  intros th. apply inv_flag_clear. reflexivity.
Qed.

(** *** The invariant between the statements of a sleep entry *)

(** Every runnable thread has no deadline, except the running thread while
    it stands between the store of its deadline and [clear_runnable]. *)
Definition entry_inv (st : sched * entry) : Prop :=
  forall (u : nat) (thu : thread),
    heap (fst st) !! u = Some thu -> is_runnable thu = true ->
    wakeup_time thu = 0 \/ (u = current (fst st) /\ snd st <> Out).

Lemma entry_inv_out (s : sched) : runnable_inv s -> entry_inv (s, Out).
Proof. intros Hs u thu Hu Hr. left. exact (Hs u thu Hu Hr). Qed.

Lemma entry_inv_runnable_inv (s : sched) : entry_inv (s, Out) -> runnable_inv s.
Proof.
  intros Hs u thu Hu Hr.
  destruct (Hs u thu Hu Hr) as [H0|[_ Hne]];
    [exact H0 | exfalso; apply Hne; reflexivity].
Qed.

(** A store through the pointer of the running thread that leaves it inside
    the entry. *)
Lemma entry_inv_inside (f : thread -> thread) (s : sched) (e e' : entry) :
  e' <> Out ->
  entry_inv (s, e) -> entry_inv (update f (current s) s, e').
Proof.
  intros He' Hs u thu Hu Hr. simpl in *.
  destruct (decide (u = current s)) as [->|Hne]; [right; split; auto|].
  rewrite lookup_alter_ne in Hu by congruence.
  destruct (Hs u thu Hu Hr) as [H0|[Hc _]];
    [left; exact H0 | simpl in Hc; congruence].
Qed.

Lemma entry_inv_clear (s : sched) (e : entry) :
  entry_inv (s, e) -> entry_inv (update clear_runnable (current s) s, Out).
Proof.
  intros Hs u thu Hu Hr. simpl in *. left.
  destruct (decide (u = current s)) as [->|Hne].
  - rewrite lookup_alter_eq in Hu.
    destruct (heap s !! current s) as [th|]; [|discriminate].
    injection Hu as <-. rewrite is_runnable_clear in Hr. discriminate.
  - rewrite lookup_alter_ne in Hu by congruence.
    destruct (Hs u thu Hu Hr) as [H0|[Hc _]];
      [exact H0 | simpl in Hc; congruence].
Qed.

Lemma entry_inv_event (t : nat) (s : sched) (e : entry) :
  entry_inv (s, e) -> entry_inv (wake t s, e).
Proof.
  intros Hs u thu Hu Hr. simpl in *.
  destruct (decide (u = t)) as [->|Hne].
  - rewrite lookup_alter_eq in Hu.
    destruct (heap s !! t) as [th|]; [|discriminate].
    injection Hu as <-. left. reflexivity.
  - rewrite lookup_alter_ne in Hu by congruence. exact (Hs u thu Hu Hr).
Qed.

Lemma entry_inv_sexec (c : stmt) (st st' : sched * entry) :
  entry_inv st -> sexec c st = Some st' -> entry_inv st'.
Proof.
  destruct st as [s e]. intros Hs He.
  destruct c as [a|w| | |t]; simpl in He.
  - destruct e; try discriminate.
    destruct (exec a s) as [s1|] eqn:Ha; simpl in He; [|discriminate].
    injection He as <-. apply entry_inv_out.
    exact (inv_exec a s s1 (entry_inv_runnable_inv s Hs) Ha).
  - destruct e; try discriminate.
    unfold guard in He. destruct (live (current s) s); simpl in He; [|discriminate].
    injection He as <-.
    apply (entry_inv_inside _ _ Out); [discriminate | exact Hs].
  - destruct e; try discriminate.
    injection He as <-.
    apply (entry_inv_inside _ _ Stored); [discriminate | exact Hs].
  - destruct e; try discriminate;
      injection He as <-; eapply entry_inv_clear; exact Hs.
  - unfold guard in He. destruct (live t s); simpl in He; [|discriminate].
    injection He as <-. apply entry_inv_event. exact Hs.
Qed.

Lemma entry_inv_srun (tr : list stmt) :
  forall st st', entry_inv st -> srun tr st = Some st' -> entry_inv st'.
Proof.
  induction tr as [|c tr IH]; intros st st' Hs Hrun; simpl in Hrun.
  - injection Hrun as <-. exact Hs.
  - destruct (sexec c st) as [st1|] eqn:He; simpl in Hrun; [|discriminate].
    exact (IH st1 st' (entry_inv_sexec c st st1 Hs He) Hrun).
Qed.

(** The statements of an entry, run without an event in between, are the
    entry as [exec] has it. *)
Lemma sleep_entry_by_statements (w : Z) (s : sched) :
  srun [SStore w; SUntime; SClearRunnable] (s, Out)
    = (fun s' => (s', Out)) <$> exec (ASleepEnter w) s
  /\ srun [SStore w; SClearRunnable] (s, Out)
    = (fun s' => (s', Out)) <$> exec (AClockSleep w) s.
Proof.
  split; simpl; unfold guard; destruct (live (current s) s); simpl;
    try reflexivity; do 2 f_equal;
    unfold dosleep_enter, clock_sleep_enter, update, with_heap; simpl;
    f_equal; rewrite !alter_alter_eq; reflexivity.
Qed.

(** C6, as the code has it.  Start from a state in which every thread
    satisfies [runnable ⇒ wakeup_time = 0], and let the code run statement by
    statement: pieces of the scheduler operations, the three statements at
    the entry of [dosleep] (two for [rumpuser_clock_sleep]), and event
    handlers that [wake] a thread between any two statements.  Then at every
    point every runnable thread has [wakeup_time = 0], except the running
    thread while it stands between the store of its deadline and
    [clear_runnable]; in particular the invariant holds for every thread
    whenever the running thread is not inside such an entry.  So it holds
    after any sequence of whole operations ([create_thread], [wake], [block],
    the two halves of a sleep, the iterations and the end of [schedule], the
    steps of [exit_thread] and [join_thread]), and after a call of [msleep] or
    [absmsleep] however it proceeds. *)
Theorem runnable_means_no_deadline (s : sched) :
  runnable_inv s ->
  (forall (tr : list stmt) (s' : sched) (e : entry),
      srun tr (s, Out) = Some (s', e) ->
      (forall (u : nat) (thu : thread),
          heap s' !! u = Some thu -> is_runnable thu = true ->
          wakeup_time thu = 0 \/ (u = current s' /\ e <> Out))
      /\ (e = Out -> runnable_inv s'))
  /\ (forall (tr : list action) (s' : sched),
        run tr s = Some s' -> runnable_inv s')
  /\ (forall (ms now : Z) (env : list round),
        match msleep ms now env s with
        | Returned _ s' _ | Switched s' _ _ | Sleeping s' _ => runnable_inv s'
        | Fault => True
        end)
  /\ (forall (ms : Z) (env : list round),
        match absmsleep ms env s with
        | Returned _ s' _ | Switched s' _ _ | Sleeping s' _ => runnable_inv s'
        | Fault => True
        end).
Proof.
  intros Hs. split; [|split; [|split]].
  - intros tr s' e Hrun.
    pose proof (entry_inv_srun tr _ _ (entry_inv_out s Hs) Hrun) as Hinv.
    split; [exact Hinv|].
    intros ->. apply entry_inv_runnable_inv. exact Hinv.
  - intros tr. revert s Hs.
    induction tr as [|a tr IH]; intros s Hs s' Hrun; simpl in Hrun.
    + injection Hrun as <-. exact Hs.
    + destruct (exec a s) as [s1|] eqn:He; simpl in Hrun; [|discriminate].
      exact (IH s1 (inv_exec a s s1 Hs He) s' Hrun).
  - intros ms now env. apply inv_dosleep, Hs.
  - intros ms env. apply inv_dosleep, Hs.
Qed.

(** ** The return value of a sleep *)

(** What the other threads and the event handlers can do while the thread
    [t] is inside the [schedule] of its [dosleep]: any action that is not run
    by [t] itself, and any iteration of the selection loop that does not
    choose [t]. *)
Definition step_while_asleep (t : nat) (a : action) (s : sched) : option sched :=
  match a with
  | AWake _ => exec a s
  | APass r =>
      match pass r s with
      | Some (inl (s', next)) =>
          if decide (next = t) then None else Some (with_current next s')
      | Some (inr (s', _)) => Some s'
      | None => None
      end
  | _ => if decide (current s = t) then None else exec a s
  end.

Fixpoint run_while_asleep (t : nat) (tr : list action) (s : sched) : option sched :=
  match tr with
  | [] => Some s
  | a :: tr' => s' ← step_while_asleep t a s; run_while_asleep t tr' s'
  end.

(** The flag [timed_out] of [t] is clear, if [t] is live. *)
Definition not_timed_out (t : nat) (h : gmap nat thread) : Prop :=
  forall th, h !! t = Some th -> timed_out th = false.

Lemma scan_result (now : Z) (todo : list nat) :
  forall h seen minw h' l' d o,
    scan now h seen todo minw = Some (h', l', d, o) ->
    (o = None /\ h' = h)
    \/ (exists u thu, o = Some u /\ h !! u = Some thu
                     /\ eligible now thu = true
                     /\ h' = <[u := treat now thu]> h).
Proof.
  induction todo as [|t rest IH]; intros h seen minw h' l' d o Hs; simpl in Hs.
  - injection Hs as <- _ _ <-. left. split; reflexivity.
  - destruct (h !! t) as [th|] eqn:Hth; [|discriminate].
    pose proof (expire_fst now minw th) as Hfst.
    destruct (expire now minw th) as [th' minw1]; simpl in Hfst; subst th'.
    rewrite treat_runnable in Hs.
    destruct (eligible now th) eqn:Hel.
    + injection Hs as <- _ _ <-. right. exists t, th.
      repeat split; assumption.
    + rewrite (treat_waiting _ _ Hel), insert_id in Hs by exact Hth.
      eapply IH. exact Hs.
Qed.

Lemma nto_alter (f : thread -> thread) (t u : nat) (h : gmap nat thread) :
  (forall th, timed_out th = false -> timed_out (f th) = false) ->
  not_timed_out t h -> not_timed_out t (alter f u h).
Proof.
  intros Hf Hh th Hth.
  destruct (decide (u = t)) as [->|Hne].
  - rewrite lookup_alter_eq in Hth.
    destruct (h !! t) as [th0|] eqn:H0; [|discriminate].
    injection Hth as <-. apply Hf, Hh. exact H0.
  - rewrite lookup_alter_ne in Hth by exact Hne. apply Hh, Hth.
Qed.

Lemma timed_out_flag_or F th :
  Z.land F THREAD_TIMEDOUT = 0 -> timed_out (flag_or F th) = timed_out th.
Proof. apply flag_set_or_other. Qed.

Lemma timed_out_flag_clear F th :
  Z.land (not32 F) THREAD_TIMEDOUT = THREAD_TIMEDOUT ->
  timed_out (flag_clear F th) = timed_out th.
Proof. apply flag_set_clear_other. Qed.

Lemma timed_out_wake th : timed_out (wake_thread th) = timed_out th.
Proof.
  unfold wake_thread, set_runnable.
  rewrite timed_out_flag_or by reflexivity. reflexivity.
Qed.

Lemma timed_out_block th : timed_out (block_thread th) = timed_out th.
Proof.
  unfold block_thread, clear_runnable.
  rewrite timed_out_flag_clear by reflexivity. reflexivity.
Qed.

Lemma timed_out_cleared th : timed_out (flag_clear THREAD_TIMEDOUT th) = false.
Proof. apply flag_set_clear. reflexivity. Qed.

Lemma timed_out_sleep w th : timed_out (sleep_thread w th) = false.
Proof.
  unfold sleep_thread, clear_runnable.
  rewrite timed_out_flag_clear by reflexivity. apply timed_out_cleared.
Qed.

Lemma nto_wake t u s :
  not_timed_out t (heap s) -> not_timed_out t (heap (wake u s)).
Proof. apply nto_alter. intros th. rewrite timed_out_wake. auto. Qed.

Lemma nto_block t u s :
  not_timed_out t (heap s) -> not_timed_out t (heap (block u s)).
Proof. apply nto_alter. intros th. rewrite timed_out_block. auto. Qed.

Lemma nto_run_callbacks t ws s :
  not_timed_out t (heap s) -> not_timed_out t (heap (run_callbacks ws s)).
Proof.
  revert s. induction ws as [|w ws IH]; intros s Hs; [exact Hs|].
  change (run_callbacks (w :: ws) s) with (run_callbacks ws (wake w s)).
  apply IH, nto_wake, Hs.
Qed.

Lemma nto_wake_joiner t u q s :
  not_timed_out t (heap s) -> not_timed_out t (heap (wake_joiner u q s)).
Proof.
  intros Hs. induction q as [|[a b] q IH]; simpl; [exact Hs|].
  destruct (decide (b = u)); [apply nto_wake; exact Hs | exact IH].
Qed.

Lemma nto_deletes t l h :
  not_timed_out t h -> not_timed_out t (foldr delete h l).
Proof.
  intros Hh. induction l as [|x l IH]; simpl; [exact Hh|].
  intros th Hth. apply lookup_delete_Some in Hth as [_ Hth]. apply IH, Hth.
Qed.

Lemma nto_guard t (b : bool) (s s' : sched) :
  guard b s = Some s' ->
  not_timed_out t (heap s) -> not_timed_out t (heap s').
Proof. unfold guard. destruct b; [|discriminate]. intros [= <-]. auto. Qed.

(** A pass that does not choose [t] leaves its flag alone. *)
Lemma nto_pass t r s :
  not_timed_out t (heap s) ->
  match pass r s with
  | Some (inl (s', next)) => next <> t -> not_timed_out t (heap s')
  | Some (inr (s', _)) => not_timed_out t (heap s')
  | None => True
  end.
Proof.
  intros Hs. unfold pass.
  destruct (scan _ _ _ _ _) as [[[[h l] d] o]|] eqn:Hscan; [|exact I].
  apply scan_result in Hscan as [[-> ->]|(u & thu & -> & Hu & _ & ->)].
  - apply nto_run_callbacks. exact Hs.
  - intros Hne th Hth. simpl in Hth.
    rewrite lookup_insert_ne in Hth by exact Hne. apply Hs, Hth.
Qed.

Ltac not_by_sleeper He :=
  match type of He with
  | (if decide (?c = ?t) then None else _) = Some _ =>
      destruct (decide (c = t)); [discriminate|]; simpl in He
  end.

Lemma nto_step t (a : action) (s s' : sched) :
  not_timed_out t (heap s) ->
  step_while_asleep t a s = Some s' -> not_timed_out t (heap s').
Proof.
  intros Hs He. destruct a; simpl in He; try not_by_sleeper He.
  - eapply nto_guard; [exact He|]. simpl.
    intros th Hth. destruct (decide (t0 = t)) as [->|Hne].
    + rewrite lookup_insert_eq in Hth. injection Hth as <-. reflexivity.
    + rewrite lookup_insert_ne in Hth by exact Hne. apply Hs, Hth.
  - eapply nto_guard; [exact He|]. apply nto_wake, Hs.
  - eapply nto_guard; [exact He|]. apply nto_block, Hs.
  - eapply nto_guard; [exact He|]. apply nto_alter; [|exact Hs].
    intros th _. apply timed_out_sleep.
  - unfold dosleep_leave in He.
    destruct (heap s !! current s); simpl in He; [|discriminate].
    injection He as <-. apply nto_alter; [|exact Hs].
    intros th _. apply timed_out_cleared.
  - eapply nto_guard; [exact He|]. apply nto_alter; [|exact Hs].
    intros th. unfold clear_runnable.
    rewrite timed_out_flag_clear by reflexivity. auto.
  - pose proof (nto_pass t r s Hs) as Hp.
    destruct (pass r s) as [[[s1 next]|[s1 calls]]|]; [| |discriminate].
    + destruct (decide (next = t)) as [|Hne]; [discriminate|].
      injection He as <-. exact (Hp Hne).
    + injection He as <-. exact Hp.
  - injection He as <-. apply nto_deletes, Hs.
  - destruct (heap s !! current s); simpl in He; [|discriminate].
    eapply nto_guard; [exact He|].
    unfold exit_gate. apply nto_block, nto_wake_joiner, nto_alter; [|exact Hs].
    intros th. rewrite timed_out_flag_or by reflexivity. auto.
  - destruct (heap s !! current s); simpl in He; [|discriminate].
    eapply nto_guard; [exact He|].
    unfold exit_final; simpl. apply nto_alter; [|exact Hs].
    intros th. unfold clear_runnable.
    rewrite timed_out_flag_clear by reflexivity. auto.
  - destruct (heap s !! joinable); simpl in He; [|discriminate].
    eapply nto_guard; [exact He|].
    unfold join_wait. apply nto_block. exact Hs.
  - injection He as <-. exact Hs.
  - destruct (heap s !! joinable); simpl in He; [|discriminate].
    eapply nto_guard; [exact He|].
    unfold join_final. apply nto_wake, nto_alter; [|exact Hs].
    intros th. rewrite timed_out_flag_clear by reflexivity. auto.
  - eapply nto_guard; [exact He|]. apply nto_alter; [|exact Hs].
    intros th. rewrite timed_out_flag_or by reflexivity. auto.
Qed.

Lemma nto_run t (tr : list action) :
  forall s s', not_timed_out t (heap s) ->
    run_while_asleep t tr s = Some s' -> not_timed_out t (heap s').
Proof.
  induction tr as [|a tr IH]; intros s s' Hs Hrun; simpl in Hrun.
  - injection Hrun as <-. exact Hs.
  - destruct (step_while_asleep t a s) as [s1|] eqn:He; simpl in Hrun;
      [|discriminate].
    exact (IH s1 s' (nto_step t a s s1 Hs He) Hrun).
Qed.

Lemma run_while_asleep_app t (tr1 tr2 : list action) (s : sched) :
  run_while_asleep t (tr1 ++ tr2) s
  = run_while_asleep t tr1 s ≫= run_while_asleep t tr2.
Proof.
  revert s. induction tr1 as [|a tr1 IH]; intros s; simpl; [reflexivity|].
  destruct (step_while_asleep t a s); simpl; [apply IH | reflexivity].
Qed.

Lemma nto_dosleep_enter w s : not_timed_out (current s) (heap (dosleep_enter w s)).
Proof.
  intros th Hth. simpl in Hth. rewrite lookup_alter_eq in Hth.
  destruct (heap s !! current s); [|discriminate].
  injection Hth as <-. apply timed_out_sleep.
Qed.

(** The end of [schedule] never frees the thread that runs it. *)
Lemma reap_lookup_self (t : nat) (s : sched) :
  heap (reap t s) !! t = heap s !! t.
Proof.
  unfold reap; simpl.
  assert (Forall (fun u => u <> t) (filter (fun u => u <> t) (exited_threads s)))
    as Hne by (apply Forall_forall; intros u Hu;
               apply list_elem_of_filter in Hu as [Hu _]; exact Hu).
  induction Hne as [|x l Hx _ IH]; simpl; [reflexivity|].
  rewrite lookup_delete_ne by exact Hx. exact IH.
Qed.

Lemma timed_out_treat now th :
  timed_out th = false -> timed_out (treat now th) = expired now th.
Proof.
  intros Hth. destruct (expired now th) eqn:He.
  - apply treat_expired, He.
  - rewrite treat_not_expired by exact He. exact Hth.
Qed.

(** C3: the thread [t] calls [dosleep] (through [msleep] or [absmsleep]);
    other threads and event handlers run; then an iteration of the selection
    loop chooses [t], whose record before that iteration is [th], and the
    call returns [rv].  Then [rv] is 1 exactly when that iteration found [t]
    not runnable with a deadline that had passed, which is when the
    scheduler's timeout sets [timed_out]; [rv] is 0 when [t] had been made
    runnable before, in particular when the last thing to happen was a
    [wake] of [t]; and [timed_out] is clear after the call in both cases. *)
Theorem dosleep_return_value (w : Z) (s0 : sched) (tr : list action)
    (r : round) (s2 s3 : sched) :
  let t := current s0 in
  run_while_asleep t tr (dosleep_enter w s0) = Some s2 ->
  pass r s2 = Some (inl (s3, t)) ->
  exists (th : thread) (rv : Z) (s4 : sched),
    heap s2 !! t = Some th
    /\ dosleep_leave t (reap t (with_current t s3)) = Some (rv, s4)
    /\ (rv = 1 <-> expired (r_now r) th = true)
    /\ (rv = 0 <-> is_runnable th = true)
    /\ (forall tr', tr = tr' ++ [AWake t] -> rv = 0)
    /\ (exists th4, heap s4 !! t = Some th4 /\ timed_out th4 = false).
Proof.
  intros t Hrun Hpass.
  pose proof (nto_run t tr _ _ (nto_dosleep_enter w s0) Hrun) as Hnto.
  unfold pass in Hpass.
  destruct (scan _ _ _ _ _) as [[[[h l] d] [next|]]|] eqn:Hscan;
    [|discriminate|discriminate].
  injection Hpass as <- ->.
  apply scan_result in Hscan as [[[=] _]|(u & th & [= <-] & Hth & Hel & ->)].
  assert (timed_out th = false) as Hto by (apply Hnto; exact Hth).
  assert (rv_timeout : dosleep_rv (treat (r_now r) th) = 1
                       <-> expired (r_now r) th = true).
  { unfold dosleep_rv. rewrite (timed_out_treat _ _ Hto).
    destruct (expired (r_now r) th); split; congruence. }
  assert (rv_woken : dosleep_rv (treat (r_now r) th) = 0
                     <-> is_runnable th = true).
  { unfold dosleep_rv. rewrite (timed_out_treat _ _ Hto).
    unfold eligible in Hel. unfold expired in *.
    destruct (is_runnable th); simpl in *; [split; reflexivity|].
    rewrite Hel. split; discriminate. }
  exists th, (dosleep_rv (treat (r_now r) th)).
  eexists. split; [exact Hth|]. split.
  { unfold dosleep_leave. rewrite reap_lookup_self. simpl.
    rewrite lookup_insert_eq. reflexivity. }
  split; [exact rv_timeout|]. split; [exact rv_woken|]. split.
  - intros tr' ->. apply rv_woken.
    rewrite run_while_asleep_app in Hrun.
    destruct (run_while_asleep t tr' (dosleep_enter w s0)) as [s1|];
      simpl in Hrun; [|discriminate].
    unfold guard in Hrun. destruct (live t s1); simpl in Hrun; [|discriminate].
    injection Hrun as <-. simpl in Hth. rewrite lookup_alter_eq in Hth.
    destruct (heap s1 !! t); [|discriminate].
    injection Hth as <-. apply is_runnable_wake.
  - exists (flag_clear THREAD_TIMEDOUT (treat (r_now r) th)).
    split; [|apply timed_out_cleared].
    simpl. rewrite lookup_alter_eq.
    pose proof (reap_lookup_self t
      (with_current t (with_thread_list l (with_heap (<[t := treat (r_now r) th]> (heap s2)) s2))))
      as Hreap.
    simpl in Hreap. rewrite Hreap, lookup_insert_eq. reflexivity.
Qed.

(** ** A sleep whose deadline has passed *)

Lemma scan_picks (now : Z) (h : gmap nat thread) (t : nat) (th : thread)
    (post : list nat) (pre : list nat) :
  forall (seen : list nat) (minw : Z),
    all_waiting now h pre ->
    h !! t = Some th ->
    eligible now th = true ->
    exists d,
      scan now h seen (pre ++ t :: post) minw =
        Some (<[t := treat now th]> h, seen ++ pre ++ post ++ [t], d, Some t).
Proof.
  induction pre as [|u pre IH]; intros seen minw Hall Hth Hel; simpl.
  - rewrite Hth.
    pose proof (expire_fst now minw th) as Hfst.
    destruct (expire now minw th) as [th' minw1]; simpl in Hfst; subst th'.
    rewrite treat_runnable, Hel. eexists. reflexivity.
  - inversion Hall as [|? ? (thu & Hu & Helu) Hrest]; subst.
    rewrite Hu.
    pose proof (expire_fst now minw thu) as Hfst.
    destruct (expire now minw thu) as [th' minw1]; simpl in Hfst; subst th'.
    rewrite treat_runnable, Helu, (treat_waiting _ _ Helu), insert_id by exact Hu.
    destruct (IH (seen ++ [u]) minw1 Hrest Hth Hel) as [d Hd].
    exists d. rewrite Hd, <- app_assoc. reflexivity.
Qed.


Lemma expired_sleep (now w : Z) (th : thread) :
  w <> 0 -> w <= now -> expired now (sleep_thread w th) = true.
Proof.
  intros Hw Hle. unfold expired.
  unfold sleep_thread at 1. rewrite is_runnable_clear. simpl.
  apply Z.eqb_neq in Hw. apply Z.leb_le in Hle. rewrite Hw, Hle. reflexivity.
Qed.

(** ** A sleep without a deadline *)



















(** ** Concrete runs *)

Definition boot : sched := mkSched ∅ [] [] [] 0%nat.
Definition blank (n : string) : thread := mkThread n 0 0 0 0.
Definition asleep (n : string) (w : Z) : thread := mkThread n 0 w 0 0.
Definition ready (n : string) : thread := mkThread n RUNNABLE_FLAG 0 0 0.

(** Thread 1 is blocked, thread 2 runs. *)
Definition two : sched :=
  mkSched (<[1%nat := blank "a"]> (<[2%nat := ready "b"]> ∅))
    [1%nat; 2%nat] [] [] 2%nat.

(** Threads 1 and 2 are runnable, thread 1 runs. *)
Definition pair_ready : sched :=
  mkSched (<[1%nat := ready "a"]> (<[2%nat := ready "b"]> ∅))
    [1%nat; 2%nat] [] [] 1%nat.

(** Thread 1 is blocked, thread 2 sleeps until 50, thread 3 is runnable. *)
Definition three : gmap nat thread :=
  <[1%nat := blank "a"]> (<[2%nat := asleep "b" 50]> (<[3%nat := ready "c"]> ∅)).

(** Thread 1 sleeps until 7 s, thread 2 is blocked, thread 3 sleeps until
    12 s; thread 2 runs. *)
Definition all_asleep : sched :=
  mkSched (<[1%nat := asleep "a" 7000000000]>
             (<[2%nat := blank "b"]> (<[3%nat := asleep "c" 12000000000]> ∅)))
    [1%nat; 2%nat; 3%nat] [] [] 2%nat.

(** A single runnable thread. *)
Definition alone : sched :=
  mkSched {[1%nat := ready "a"]} [1%nat] [] [] 1%nat.

Lemma selection_pass_witness :
  exists minw',
    (all_waiting 100 three [1%nat; 2%nat; 3%nat]
     /\ scan 100 three [] [1%nat; 2%nat; 3%nat] 0
        = Some (three, [1%nat; 2%nat; 3%nat], minw', None))
    \/ (exists pre t post th,
          [1%nat; 2%nat; 3%nat] = pre ++ t :: post
          /\ all_waiting 100 three pre
          /\ three !! t = Some th
          /\ (is_runnable th = true \/ expired 100 th = true)
          /\ scan 100 three [] [1%nat; 2%nat; 3%nat] 0 =
               Some (<[t := treat 100 th]> three, pre ++ post ++ [t], minw', Some t)
          /\ (expired 100 th = true ->
                timed_out (treat 100 th) = true
                /\ wakeup_time (treat 100 th) = 0
                /\ is_runnable (treat 100 th) = true)
          /\ (expired 100 th = false -> treat 100 th = th)).
Proof.
  apply (selection_pass 100 three [1%nat; 2%nat; 3%nat] 0).
  intros t Ht. apply list_elem_of_In in Ht. simpl in Ht.
  destruct Ht as [<-|[<-|[<-|[]]]]; eexists; reflexivity.
Defined.

(** On the queue above at time 100 the pass takes thread 2 by its timeout
    and the queue becomes [[1; 3; 2]]. *)
Example selection_pass_run :
  scan 100 three [] [1%nat; 2%nat; 3%nat] (100 + SECONDS 10)
  = Some (<[2%nat := mkThread "b" (Z.lor THREAD_TIMEDOUT RUNNABLE_FLAG) 0 0 0]> three,
          [1%nat; 3%nat; 2%nat], 100 + SECONDS 10, Some 2%nat).
Proof. vm_compute. reflexivity. Qed.

Lemma idle_pass_witness :
  let r := mkRound 1000000000 [2%nat] in
  let calls := [block_domain 7000000000; force_evtchn_callback] in
  let s' := run_callbacks [2%nat] all_asleep in
  scan (r_now r) (heap all_asleep) [] (thread_list all_asleep)
       (to_s_time (r_now r + SECONDS 10))
    = Some (heap all_asleep, thread_list all_asleep, 7000000000, None)
  /\ pass r all_asleep = Some (inr (s', calls))
  /\ select [r] all_asleep [] = Idle s' calls
  /\ schedule [r] all_asleep = Halted s' calls
  /\ 7000000000 = earliest (r_now r + SECONDS 10)
                    (future_wakeups (r_now r) (heap all_asleep)
                       (thread_list all_asleep)).
Proof.
  intros r calls s'.
  assert (scan (r_now r) (heap all_asleep) [] (thread_list all_asleep)
               (to_s_time (r_now r + SECONDS 10))
          = Some (heap all_asleep, thread_list all_asleep, 7000000000, None))
    as Hscan by (vm_compute; reflexivity).
  assert (- 2 ^ 63 <= r_now r < 2 ^ 63 - SECONDS 10) as Hclock
    by (vm_compute; split; [discriminate | reflexivity]).
  destruct (idle_pass_blocks_until_earliest r [] all_asleep [] _ _ _ Hclock Hscan)
    as (_ & _ & Hd & Hpass & Hsel & Hsch & _).
  split; [exact Hscan|]. split; [exact Hpass|]. split; [exact Hsel|].
  split; [exact Hsch | exact Hd].
Defined.

(** C5 as stated fails.  Within 10 s of the end of the clock's range the
    64-bit sum [now + SECONDS(10)] wraps around: with one blocked thread in
    the run queue and the clock at [2^63 - 808], the walk finds no runnable
    thread and [block_domain] is called with a deadline long past, which is
    not the least of [now + 10 s] and the pending deadlines. *)
Lemma idle_pass_blocks_until_earliest_fails :
  let r := mkRound 9223372036854775000 [] in
  let s := block 1%nat alone in
  scan (r_now r) (heap s) [] (thread_list s) (to_s_time (r_now r + SECONDS 10))
    = Some (heap s, thread_list s, -9223372026854776616, None)
  /\ pass r s
     = Some (inr (s, [block_domain (-9223372026854776616);
                      force_evtchn_callback]))
  /\ earliest (r_now r + SECONDS 10)
       (future_wakeups (r_now r) (heap s) (thread_list s))
     = 9223372046854775000
  /\ -9223372026854776616 < r_now r
  /\ ~ (forall (r : round) (s : sched) h' l' d,
          scan (r_now r) (heap s) [] (thread_list s)
               (to_s_time (r_now r + SECONDS 10)) = Some (h', l', d, None) ->
          d = earliest (r_now r + SECONDS 10)
                (future_wakeups (r_now r) (heap s) (thread_list s))).
Proof.
  intros r s.
  assert (scan (r_now r) (heap s) [] (thread_list s)
               (to_s_time (r_now r + SECONDS 10))
          = Some (heap s, thread_list s, -9223372026854776616, None)) as Hscan
    by (vm_compute; reflexivity).
  split; [exact Hscan|].
  split; [vm_compute; reflexivity|].
  split; [vm_compute; reflexivity|].
  split; [reflexivity|].
  intros H. specialize (H r s _ _ _ Hscan). vm_compute in H. discriminate H.
Qed.

Lemma runnable_inv_pair_ready : runnable_inv pair_ready.
Proof.
  unfold runnable_inv, pair_ready; simpl.
  repeat (apply map_Forall_insert_2; [intros _; reflexivity|]).
  apply map_Forall_empty.
Qed.

Lemma runnable_means_no_deadline_witness :
  runnable_inv pair_ready
  /\ (forall (tr : list stmt) (s' : sched) (e : entry),
        srun tr (pair_ready, Out) = Some (s', e) ->
        (forall (u : nat) (thu : thread),
            heap s' !! u = Some thu -> is_runnable thu = true ->
            wakeup_time thu = 0 \/ (u = current s' /\ e <> Out))
        /\ (e = Out -> runnable_inv s'))
  /\ (forall (tr : list action) (s' : sched),
        run tr pair_ready = Some s' -> runnable_inv s')
  /\ (forall (ms now : Z) (env : list round),
        match msleep ms now env pair_ready with
        | Returned _ s' _ | Switched s' _ _ | Sleeping s' _ => runnable_inv s'
        | Fault => True
        end)
  /\ (forall (ms : Z) (env : list round),
        match absmsleep ms env pair_ready with
        | Returned _ s' _ | Switched s' _ _ | Sleeping s' _ => runnable_inv s'
        | Fault => True
        end).
Proof.
  split; [exact runnable_inv_pair_ready|].
  exact (runnable_means_no_deadline pair_ready runnable_inv_pair_ready).
Defined.

(** C6 as stated fails.  Thread 1 runs and enters a sleep: it has stored
    its deadline and has not yet cleared its runnable bit when an event
    handler wakes thread 2.  After that completed [wake], thread 1 is
    runnable with a deadline; its next statement clears the bit.  The same
    happens with the deadline of [rumpuser_clock_sleep]. *)
Lemma runnable_means_no_deadline_fails :
  runnable_inv pair_ready
  /\ (exists (s' : sched) (th : thread),
        srun [SStore 100; SEvent 2%nat] (pair_ready, Out) = Some (s', Stored)
        /\ heap s' !! 1%nat = Some th
        /\ is_runnable th = true
        /\ wakeup_time th = 100)
  /\ ~ (forall (tr : list stmt) (s' : sched) (e : entry),
          srun tr (pair_ready, Out) = Some (s', e) -> runnable_inv s').
Proof.
  split; [exact runnable_inv_pair_ready|].
  assert (srun [SStore 100; SEvent 2%nat] (pair_ready, Out)
          = Some (wake 2%nat (update (set_wakeup_time 100) 1%nat pair_ready),
                  Stored)) as Hrun by reflexivity.
  split.
  - eexists. exists (mkThread "a" RUNNABLE_FLAG 100 0 0).
    split; [exact Hrun|]. split; [vm_compute; reflexivity|].
    split; reflexivity.
  - intros H. specialize (H _ _ _ Hrun).
    specialize (H 1%nat (mkThread "a" RUNNABLE_FLAG 100 0 0)).
    assert (wakeup_time (mkThread "a" RUNNABLE_FLAG 100 0 0) = 0) as Hw.
    { apply H; [vm_compute; reflexivity | reflexivity]. }
    discriminate Hw.
Qed.

(** The run above goes on: the entry is completed, the scheduler chooses
    thread 2, and the invariant holds again for every thread. *)
Example sleep_entry_with_event :
  srun [SStore 100; SEvent 2%nat; SUntime; SClearRunnable;
        SOp (APass (mkRound 1 []))] (pair_ready, Out)
  = Some (mkSched (<[1%nat := asleep "a" 100]> (<[2%nat := ready "b"]> ∅))
            [1%nat; 2%nat] [] [] 2%nat, Out).
Proof. vm_compute. reflexivity. Qed.

(** A run from the empty scheduler: two threads are created, the first is
    chosen and goes to sleep, the second runs and wakes it. *)
Example scheduler_run :
  run [ACreate 1 (blank "a") 0; ACreate 2 (blank "b") 0; APass (mkRound 0 []);
       ASleepEnter 100; APass (mkRound 1 []); AReap; AWake 1;
       APass (mkRound 2 []); AReap; ASleepLeave] boot
  = Some (mkSched (<[1%nat := ready "a"]> (<[2%nat := ready "b"]> ∅))
            [2%nat; 1%nat] [] [] 1%nat).
Proof. vm_compute. reflexivity. Qed.

Lemma dosleep_return_value_witness :
  let tr := [APass (mkRound 0 []); AReap; AWake 1%nat] in
  let r := mkRound 2 [] in
  exists s2 s3,
    run_while_asleep 1%nat tr (dosleep_enter 100 pair_ready) = Some s2
    /\ pass r s2 = Some (inl (s3, 1%nat))
    /\ exists th rv s4,
        heap s2 !! 1%nat = Some th
        /\ dosleep_leave 1%nat (reap 1%nat (with_current 1%nat s3)) = Some (rv, s4)
        /\ (rv = 1 <-> expired (r_now r) th = true)
        /\ (rv = 0 <-> is_runnable th = true)
        /\ (forall tr', tr = tr' ++ [AWake 1%nat] -> rv = 0)
        /\ (exists th4, heap s4 !! 1%nat = Some th4 /\ timed_out th4 = false).
Proof.
  intros tr r.
  eexists. eexists.
  split; [vm_compute; reflexivity|].
  split; [vm_compute; reflexivity|].
  apply (dosleep_return_value 100 pair_ready tr r); vm_compute; reflexivity.
Defined.

(** The two ways out of a sleep of 100 ms begun at time 0 by thread 1 while
    thread 2 is runnable: thread 2 wakes thread 1 at once and the sleep
    returns 0; or thread 2 blocks, the CPU sleeps until the deadline, and the
    sleep returns 1. *)
Example msleep_woken :
  (s2 ← run_while_asleep 1%nat [APass (mkRound 0 []); AReap; AWake 1%nat]
          (dosleep_enter (0 + MILLISECS 100) pair_ready);
   match pass (mkRound 2 []) s2 with
   | Some (inl (s3, t)) =>
       fst <$> dosleep_leave t (reap t (with_current t s3))
   | _ => None
   end) = Some 0.
Proof. vm_compute. reflexivity. Qed.

Example msleep_timed_out :
  (s2 ← run_while_asleep 1%nat
          [APass (mkRound 0 []); AReap; ABlock 2%nat; APass (mkRound 5 [])]
          (dosleep_enter (0 + MILLISECS 100) pair_ready);
   match pass (mkRound 100000000 []) s2 with
   | Some (inl (s3, t)) =>
       fst <$> dosleep_leave t (reap t (with_current t s3))
   | _ => None
   end) = Some 1.
Proof. vm_compute. reflexivity. Qed.



(** What [absmsleep 0] does there: the CPU is put to sleep for the default
    10 s, and the call returns 0 once an event handler has woken the thread;
    with no such event it is still asleep after any number of iterations. *)
Example absmsleep_zero_run :
  absmsleep 0 [mkRound 5 [1%nat]; mkRound 6 []] alone
  = Returned 0 alone [block_domain (5 + SECONDS 10); force_evtchn_callback].
Proof. vm_compute. reflexivity. Qed.

Example absmsleep_zero_stays_asleep :
  absmsleep 0 [mkRound 5 []; mkRound (5 + SECONDS 10) [];
               mkRound (5 + SECONDS 20) []] alone
  = Sleeping (block 1%nat alone)
      [block_domain (5 + SECONDS 10); force_evtchn_callback;
       block_domain (5 + SECONDS 20); force_evtchn_callback;
       block_domain (5 + SECONDS 30); force_evtchn_callback].
Proof. vm_compute. reflexivity. Qed.

End SchedFacts.

(* ===================================================================== *)
(** * Properties of the block-device hypercalls *)
(* ===================================================================== *)

Module BlkFacts.
Import Blk.

(** ** [rumpuser_close] *)

(** C9: [rumpuser_close fd] returns [EBADF] and does nothing when [fd - 64]
    is outside [0, 10).  Otherwise it returns 0 and decrements the slot's
    open count whatever its value; exactly when the decremented count is 0 it
    stores [NULL] in the slot and then calls [shutdown_blkfront] on the
    handle it had saved, and else it leaves the handles alone.  On a slot
    that was never opened the count becomes -1. *)
Theorem close_decrements_unconditionally (K : consts) (fd : Z) (st : blk) :
  let rfd := fd - BLKFDOFF in
  let rv := fst (rumpuser_close K fd st) in
  let st' := snd (rumpuser_close K fd st) in
  let n := slot (blkopen st) rfd - 1 in
  (~ (0 <= rfd < NBLKDEV) -> rv = EBADF K /\ st' = st)
  /\ (0 <= rfd < NBLKDEV ->
        rv = 0
        /\ blkopen st' = set_slot (blkopen st) rfd n
        /\ blkinfos st' = blkinfos st
        /\ (n = 0 ->
              blkdevs st' = set_slot (blkdevs st) rfd None
              /\ calls st' =
                   calls st ++ [shutdown_blkfront (slot (blkdevs st) rfd)
                                  (set_slot (blkdevs st) rfd None)]
              /\ (length (blkdevs st) = 10%nat ->
                    slot (set_slot (blkdevs st) rfd None) rfd = None))
        /\ (n <> 0 -> blkdevs st' = blkdevs st /\ calls st' = calls st))
  /\ (EBADF K <> 0 -> (rv = EBADF K <-> ~ (0 <= rfd < NBLKDEV)))
  /\ (fst (rumpuser_close K BLKFDOFF blk_init) = 0
      /\ slot (blkopen (snd (rumpuser_close K BLKFDOFF blk_init))) 0 = -1).
Proof.
  intros rfd rv st' n. subst rv st'. unfold rumpuser_close.
  fold rfd. fold n. unfold NBLKDEV.
  destruct (rfd <? 0) eqn:Hlo; [apply Z.ltb_lt in Hlo | apply Z.ltb_ge in Hlo];
    simpl.
  { repeat split; try lia; try (intros; lia); auto. }
  destruct (rfd + 1 >? 10) eqn:Hhi; rewrite Z.gtb_ltb in Hhi;
    [apply Z.ltb_lt in Hhi | apply Z.ltb_ge in Hhi]; simpl.
  { repeat split; try lia; try (intros; lia); auto. }
  assert (length (blkdevs st) = 10%nat ->
          slot (set_slot (blkdevs st) rfd None) rfd = None) as Hnull.
  { intros Hlen. unfold slot, set_slot.
    apply list_lookup_total_insert_eq. lia. }
  destruct (n =? 0) eqn:Hn; [apply Z.eqb_eq in Hn | apply Z.eqb_neq in Hn];
    simpl; repeat split; try reflexivity; try lia; try (intros; lia);
    try (intros; congruence); try (intros; apply Hnull; assumption).
Qed.

(** ** The outstanding counters *)

Lemma slot_cons_succ (x : Z) (a : list Z) (i : nat) :
  (x :: a) !!! S i = a !!! i.
Proof. reflexivity. Qed.

Lemma sum_insert (a : list Z) :
  forall (i : nat) (v : Z),
    (i < length a)%nat ->
    sum_outstanding (<[i := v]> a) = sum_outstanding a - a !!! i + v.
Proof.
  induction a as [|x a IH]; intros i v Hi; simpl in Hi; [lia|].
  destruct i as [|i].
  - change (<[0%nat := v]> (x :: a)) with (v :: a).
    change ((x :: a) !!! 0%nat) with x.
    unfold sum_outstanding; simpl. lia.
  - change (<[S i := v]> (x :: a)) with (x :: <[i := v]> a).
    rewrite slot_cons_succ.
    change (sum_outstanding (x :: <[i := v]> a))
      with (x + sum_outstanding (<[i := v]> a)).
    change (sum_outstanding (x :: a)) with (x + sum_outstanding a).
    rewrite IH by lia. lia.
Qed.

Lemma bump_sum (num d : Z) (a a' : list Z) :
  length a = 10%nat ->
  bump num d a = Some a' ->
  length a' = 10%nat /\ sum_outstanding a' = sum_outstanding a + d.
Proof.
  intros Hlen Hb. unfold bump, NBLKDEV in Hb.
  destruct (0 <=? num) eqn:H0; [apply Z.leb_le in H0 | discriminate].
  destruct (num <? 10) eqn:H1; [apply Z.ltb_lt in H1 | discriminate].
  simpl in Hb. injection Hb as <-. unfold set_slot, slot. split.
  - rewrite length_insert. exact Hlen.
  - rewrite sum_insert by lia. lia.
Qed.

(** How far the total is ahead of the sum inside a critical section. *)
Definition lead (m : option (section_kind * Z * nat)) : Z :=
  match m with
  | Some (Submit, _, 1%nat) => 1
  | Some (Complete, _, 1%nat) => -1
  | _ => 0
  end.

Definition counters_agree (b : bio) : Prop :=
  length (blkdev_outstanding b) = 10%nat
  /\ bio_outstanding_total b
     = sum_outstanding (blkdev_outstanding b) + lead (bio_mtx b).

Lemma counters_agree_init : counters_agree bio_init.
Proof. split; reflexivity. Qed.

Lemma counters_agree_exec (a : bio_action) (b b' : bio) :
  counters_agree b -> bio_exec a b = Some b' -> counters_agree b'.
Proof.
  intros [Hlen Hsum] He. unfold counters_agree.
  destruct b as [total arr mtx]; simpl in *.
  destruct a as [k num|]; simpl in He.
  - destruct mtx; [discriminate|]. injection He as <-. simpl in *.
    split; [exact Hlen | destruct k; simpl; lia].
  - destruct mtx as [[[k num] pc]|]; [|discriminate].
    destruct k; destruct pc as [|[|[|pc]]]; simpl in *;
      try (injection He as <-; simpl; split; [exact Hlen | lia]).
    + destruct (bump num 1 arr) as [arr'|] eqn:Hb; simpl in He; [|discriminate].
      injection He as <-. simpl.
      destruct (bump_sum _ _ _ _ Hlen Hb) as [Hlen' Hsum']. split; [exact Hlen' | lia].
    + destruct (bump num (-1) arr) as [arr'|] eqn:Hb; simpl in He; [|discriminate].
      injection He as <-. simpl.
      destruct (bump_sum _ _ _ _ Hlen Hb) as [Hlen' Hsum']. split; [exact Hlen' | lia].
Qed.

Lemma counters_agree_run (tr : list bio_action) :
  forall b b', counters_agree b -> bio_run tr b = Some b' -> counters_agree b'.
Proof.
  induction tr as [|a tr IH]; intros b b' Hb Hrun; simpl in Hrun.
  - injection Hrun as <-. exact Hb.
  - destruct (bio_exec a b) as [b1|] eqn:He; simpl in Hrun; [|discriminate].
    exact (IH b1 b' (counters_agree_exec a b b1 Hb He) Hrun).
Qed.

(** The critical section at the end of [rumpuser_bio], and the one at the
    end of [biocomp], each from [rumpuser_mutex_enter] to
    [rumpuser_mutex_exit]. *)
Definition submit_section (num : Z) : list bio_action :=
  [Enter Submit num; Step; Step; Step; Step].
Definition complete_section (num : Z) : list bio_action :=
  [Enter Complete num; Step; Step; Step].

(** C7: in every state that the submissions and completions reach from the
    initial one, however their critical sections follow one another, the
    total equals the sum of the per-slot counters whenever [bio_mtx] is free.
    A whole critical section of [rumpuser_bio] adds 1 to the total and to the
    slot's counter, and one of [biocomp] subtracts 1 from both. *)
Theorem total_is_sum_when_unlocked (tr : list bio_action) (b : bio) :
  bio_run tr bio_init = Some b ->
  (bio_mtx b = None ->
     bio_outstanding_total b = sum_outstanding (blkdev_outstanding b))
  /\ (forall num : Z, 0 <= num < NBLKDEV -> bio_mtx b = None ->
        bio_run (submit_section num) b =
          Some (mkBio (bio_outstanding_total b + 1)
                  (set_slot (blkdev_outstanding b) num
                     (slot (blkdev_outstanding b) num + 1)) None)
        /\ bio_run (complete_section num) b =
             Some (mkBio (bio_outstanding_total b - 1)
                     (set_slot (blkdev_outstanding b) num
                        (slot (blkdev_outstanding b) num + -1)) None)).
Proof.
  intros Hrun.
  destruct (counters_agree_run tr _ _ counters_agree_init Hrun) as [Hlen Hsum].
  split.
  - intros Hfree. rewrite Hsum, Hfree. simpl. lia.
  - intros num Hnum Hfree. destruct b as [total arr mtx]; simpl in *. subst mtx.
    unfold submit_section, complete_section; simpl.
    unfold bump. unfold NBLKDEV in *.
    destruct (0 <=? num) eqn:H0; [|apply Z.leb_gt in H0; lia].
    destruct (num <? 10) eqn:H1; [|apply Z.ltb_ge in H1; lia].
    simpl. split; reflexivity.
Qed.

Lemma total_is_sum_when_unlocked_witness :
  let tr := submit_section 0 ++ submit_section 3 ++ complete_section 0
            ++ [Enter Submit 3; Step] in
  let b := mkBio 2 [0; 0; 0; 1; 0; 0; 0; 0; 0; 0] (Some (Submit, 3, 1%nat)) in
  let tr' := tr ++ [Step; Step; Step] in
  let b' := mkBio 2 [0; 0; 0; 2; 0; 0; 0; 0; 0; 0] None in
  bio_run tr bio_init = Some b
  /\ bio_run tr' bio_init = Some b'
  /\ (bio_mtx b' = None ->
        bio_outstanding_total b' = sum_outstanding (blkdev_outstanding b')).
Proof.
  intros tr b tr' b'.
  split; [reflexivity|]. split; [reflexivity|].
  apply (total_is_sum_when_unlocked tr' b'). reflexivity.
Defined.

(** ** Device names *)

(** The bytes of a C string up to its terminating NUL. *)
Fixpoint c_str (s : string) : string :=
  match s with
  | EmptyString => EmptyString
  | String c r => if uchar c =? 0 then EmptyString else String c (c_str r)
  end.

(** The character of the decimal digit [n]. *)
Definition digit (n : Z) : ascii := ascii_of_nat (Z.to_nat (48 + n)).

(** The name [blk<n>]. *)
Definition blk_name (n : Z) : string :=
  String "b" (String "l" (String "k" (String (digit n) EmptyString))).

(** [name] is one of [blk0] .. [blk9]. *)
Definition is_blk_name (name : string) : Prop :=
  exists n, 0 <= n < NBLKDEV /\ c_str name = blk_name n.

Lemma uchar_range (c : ascii) : 0 <= uchar c < 256.
Proof. unfold uchar. pose proof (nat_ascii_bounded c). lia. Qed.

Lemma uchar_inj (c c' : ascii) : uchar c = uchar c' -> c = c'.
Proof.
  unfold uchar. intros H. apply Nat2Z.inj in H.
  rewrite <- (ascii_nat_embedding c), <- (ascii_nat_embedding c'), H.
  reflexivity.
Qed.

Lemma uchar_digit (n : Z) : 0 <= n < 10 -> uchar (digit n) = 48 + n.
Proof.
  intros Hn. unfold uchar, digit.
  rewrite nat_ascii_embedding by lia. lia.
Qed.

Lemma strlen_nonneg (s : string) : 0 <= strlen s.
Proof.
  induction s as [|c r IH]; simpl; [lia|].
  destruct (uchar c =? 0); lia.
Qed.

Lemma strlen_zero (s : string) : strlen s = 0 -> c_str s = EmptyString.
Proof.
  destruct s as [|c r]; simpl; [reflexivity|].
  pose proof (strlen_nonneg r).
  destruct (uchar c =? 0); [reflexivity | lia].
Qed.

Lemma c_str_empty (s : string) : c_str s = EmptyString -> strlen s = 0.
Proof.
  destruct s as [|c r]; simpl; [reflexivity|].
  destruct (uchar c =? 0); [reflexivity | discriminate].
Qed.

Lemma strncmp_cons (c c' : ascii) (r r' : string) (n : nat) :
  strncmp (String c r) (String c' r') (S n)
  = if uchar c =? uchar c' then
      if uchar c =? 0 then 0 else strncmp r r' n
    else uchar c - uchar c'.
Proof. reflexivity. Qed.

Lemma strncmp_nil (c' : ascii) (r' : string) (n : nat) :
  strncmp EmptyString (String c' r') (S n)
  = if 0 =? uchar c' then 0 else 0 - uchar c'.
Proof.
  change (strncmp EmptyString (String c' r') (S n))
    with (if 0 =? uchar c' then (if 0 =? 0 then 0 else strncmp EmptyString r' n)
          else 0 - uchar c').
  destruct (0 =? uchar c'); reflexivity.
Qed.

(** One step of a comparison that comes out equal, against a byte that is
    not NUL. *)
Lemma strncmp_step (s : string) (c' : ascii) (r' : string) (n : nat) :
  uchar c' <> 0 ->
  strncmp s (String c' r') (S n) = 0 ->
  exists r, s = String c' r /\ strncmp r r' n = 0.
Proof.
  intros Hc' H. destruct s as [|c r].
  - rewrite strncmp_nil in H.
    destruct (0 =? uchar c') eqn:E; [apply Z.eqb_eq in E; lia | lia].
  - rewrite strncmp_cons in H.
    destruct (uchar c =? uchar c') eqn:E;
      [apply Z.eqb_eq in E | apply Z.eqb_neq in E; lia].
    destruct (uchar c =? 0) eqn:E0; [apply Z.eqb_eq in E0; lia|].
    exists r. split; [|exact H]. f_equal. apply uchar_inj, E.
Qed.

Lemma strncmp_blk (name : string) :
  strncmp name "blk" 3 = 0 <->
  exists r, name = String "b" (String "l" (String "k" r)).
Proof.
  split.
  - intros H.
    apply strncmp_step in H as (r1 & -> & H); [|discriminate].
    apply strncmp_step in H as (r2 & -> & H); [|discriminate].
    apply strncmp_step in H as (r3 & -> & H); [|discriminate].
    exists r3. reflexivity.
  - intros [r ->]. reflexivity.
Qed.

Lemma devname2num_blk (n : Z) (name : string) :
  0 <= n < NBLKDEV -> c_str name = blk_name n -> devname2num name = n.
Proof.
  unfold NBLKDEV. intros Hn Hc.
  pose proof (uchar_digit n Hn) as Hd.
  assert (forall (c : ascii) (t : string) (s : string),
             uchar c <> 0 -> c_str s = String c t ->
             exists r, s = String c r /\ c_str r = t) as Hsplit.
  { intros c t s Hnz H. destruct s as [|c0 r]; [discriminate|].
    simpl in H. destruct (uchar c0 =? 0); [discriminate|].
    injection H as -> H. exists r. split; [reflexivity | exact H]. }
  unfold blk_name in Hc.
  apply Hsplit in Hc as (r1 & -> & Hc); [|discriminate].
  apply Hsplit in Hc as (r2 & -> & Hc); [|discriminate].
  apply Hsplit in Hc as (r3 & -> & Hc); [|discriminate].
  apply Hsplit in Hc as (r4 & -> & Hc); [|lia].
  apply c_str_empty in Hc.
  unfold devname2num.
  replace (strncmp _ "blk" 3) with 0 by reflexivity.
  assert (strlen (String "b" (String "l" (String "k" (String (digit n) r4)))) = 4)
    as Hlen.
  { change (strlen (String "b" (String "l" (String "k" (String (digit n) r4)))))
      with (1 + (1 + (1 + (if uchar (digit n) =? 0 then 0 else 1 + strlen r4)))).
    rewrite Hd, Hc. destruct (48 + n =? 0) eqn:E; [apply Z.eqb_eq in E|]; lia. }
  rewrite Hlen. simpl negb. simpl orb.
  change (byte_at _ (Z.to_nat (4 - 1))) with (digit n).
  replace (schar "0") with 48 by reflexivity.
  unfold schar. rewrite Hd.
  replace (48 + n <? 128) with true by (symmetry; apply Z.ltb_lt; lia).
  unfold NBLKDEV.
  replace (48 + n - 48 <? 0) with false by (symmetry; apply Z.ltb_ge; lia).
  replace (48 + n - 48 >=? 10) with false
    by (symmetry; rewrite Z.geb_leb; apply Z.leb_gt; lia).
  simpl. lia.
Qed.

Lemma devname2num_valid (name : string) :
  devname2num name <> -1 ->
  0 <= devname2num name < NBLKDEV
  /\ c_str name = blk_name (devname2num name).
Proof.
  unfold devname2num, NBLKDEV.
  destruct (strncmp name "blk" 3 =? 0) eqn:Hcmp; simpl; [|congruence].
  destruct (strlen name =? 4) eqn:Hlen; simpl; [|congruence].
  apply Z.eqb_eq in Hcmp, Hlen.
  apply strncmp_blk in Hcmp as [r ->].
  rewrite Hlen.
  change (byte_at _ (Z.to_nat (4 - 1))) with (head_byte r).
  change (strlen (String "b" (String "l" (String "k" r))))
    with (1 + (1 + (1 + strlen r))) in Hlen.
  destruct r as [|c r4]; [simpl in Hlen; lia|].
  simpl in Hlen. simpl head_byte.
  destruct (uchar c =? 0) eqn:Hc0; [lia|].
  assert (strlen r4 = 0) as Hr4 by lia.
  replace (schar "0") with 48 by reflexivity.
  set (num := schar c - 48).
  destruct (num <? 0) eqn:H0; simpl; [congruence|].
  destruct (num >=? 10) eqn:H1; simpl; [congruence|].
  apply Z.ltb_ge in H0. rewrite Z.geb_leb in H1. apply Z.leb_gt in H1.
  intros _. split; [lia|].
  pose proof (uchar_range c) as Hrange.
  assert (uchar c = 48 + num) as Hc.
  { unfold num, schar in H0, H1 |- *. destruct (uchar c <? 128); lia. }
  clearbody num.
  assert (c = digit num) as ->.
  { apply uchar_inj. rewrite uchar_digit by lia. exact Hc. }
  simpl c_str. rewrite Hc0, (strlen_zero _ Hr4). reflexivity.
Qed.

Lemma devname2num_range (name : string) :
  devname2num name = -1 \/ 0 <= devname2num name < NBLKDEV.
Proof.
  destruct (decide (devname2num name = -1)) as [H|H]; [left; exact H|].
  right. apply devname2num_valid, H.
Qed.

Lemma devname2num_invalid (name : string) :
  ~ is_blk_name name -> devname2num name = -1.
Proof.
  intros Hno.
  destruct (decide (devname2num name = -1)) as [H|H]; [exact H|].
  exfalso. apply Hno. exists (devname2num name). apply devname2num_valid, H.
Qed.

(** ** [rumpuser_open] *)

Section Open.

Context (K : consts).
Context (init_blkfront : string -> blkfront_info -> option Z * blkfront_info).

Lemma devopen_rv (num : Z) (st : blk) :
  let rv := fst (devopen K init_blkfront num st) in
  rv = 1 \/ rv = 0 \/ rv = EIO K.
Proof.
  unfold devopen.
  destruct (negb (slot (blkopen st) num =? 0)); [left; reflexivity|].
  destruct (init_blkfront _ _) as [[d|] info]; simpl; auto.
Qed.

(** C8: [rumpuser_open] returns [ENXIO], stores no descriptor and changes
    nothing unless the mode has the block-I/O flag and the name is [blk]
    followed by one decimal digit [n] of [0, 10) and nothing else; whenever
    it stores a descriptor it returns 0 and the descriptor is [64 + n]; so
    (error numbers not being 0) a call that returns 0 was made with such a
    name and has stored [64 + n]. *)
Theorem open_only_blk_names (name : string) (mode_ : Z) (st : blk) :
  let res := rumpuser_open K init_blkfront name mode_ st in
  let rv := fst (fst res) in
  let fdp := snd (fst res) in
  let st' := snd res in
  (Z.land mode_ (RUMPUSER_OPEN_BIO K) = 0 \/ ~ is_blk_name name ->
     rv = ENXIO K /\ fdp = None /\ st' = st)
  /\ (forall fd : Z, fdp = Some fd ->
        rv = 0
        /\ Z.land mode_ (RUMPUSER_OPEN_BIO K) <> 0
        /\ exists n, 0 <= n < NBLKDEV /\ c_str name = blk_name n
                     /\ fd = BLKFDOFF + n)
  /\ (ENXIO K <> 0 -> EIO K <> 0 -> EROFS K <> 0 -> rv = 0 ->
        Z.land mode_ (RUMPUSER_OPEN_BIO K) <> 0
        /\ exists n, 0 <= n < NBLKDEV /\ c_str name = blk_name n
                     /\ fdp = Some (BLKFDOFF + n)).
Proof.
  intros res rv fdp st'. subst rv fdp st' res. unfold rumpuser_open.
  destruct (Z.land mode_ (RUMPUSER_OPEN_BIO K) =? 0) eqn:Hbio;
    [apply Z.eqb_eq in Hbio | apply Z.eqb_neq in Hbio]; simpl.
  { repeat split; try discriminate; try congruence. }
  destruct (devname2num name =? -1) eqn:Hnum;
    [apply Z.eqb_eq in Hnum | apply Z.eqb_neq in Hnum]; simpl.
  { repeat split; try discriminate; try congruence. }
  destruct (devname2num_valid name Hnum) as [Hrange Hname].
  assert (is_blk_name name) as Hvalid by (eexists; split; eassumption).
  pose proof (devopen_rv (devname2num name) st) as Hrv. simpl in Hrv.
  destruct (devopen K init_blkfront (devname2num name) st) as [rv1 st1].
  simpl in Hrv.
  split; [intros [H|H]; [congruence | contradiction]|].
  destruct (rv1 =? 0) eqn:Hrv1;
    [apply Z.eqb_eq in Hrv1 | apply Z.eqb_neq in Hrv1]; simpl.
  - destruct (_ && _); simpl.
    + split; [discriminate|]. intros; congruence.
    + split.
      * intros fd [= <-]. repeat split; try assumption.
        exists (devname2num name). repeat split; try apply Hrange. exact Hname.
      * intros _ _ _ _. split; [exact Hbio|].
        exists (devname2num name). repeat split; try apply Hrange. exact Hname.
  - split; [discriminate|]. intros _ Heio _ H0.
    destruct Hrv as [-> | [-> | ->]]; [discriminate | congruence | congruence].
Qed.

End Open.

(** A backend on which every device opens, read-only or read-write. *)
Definition backend (rw : bool) (path : string) (_ : blkfront_info)
    : option Z * blkfront_info :=
  (Some 4096, mkInfo 2048 512 (if rw then O_RDWR netbsd else 0)).

Example open_blk3 :
  rumpuser_open netbsd (backend true) "blk3" 0x12 blk_init
  = (0, Some 67,
     mkBlk (set_slot (blkdevs blk_init) 3 (Some 4096))
       (set_slot (blkinfos blk_init) 3 (mkInfo 2048 512 2))
       (set_slot (blkopen blk_init) 3 1)
       [init_blkfront_call "device/vbd/960"]).
Proof. vm_compute. reflexivity. Qed.

(** There is no eleventh device. *)
Example open_blk10 :
  rumpuser_open netbsd (backend true) "blk10" 0x12 blk_init
  = (ENXIO netbsd, None, blk_init).
Proof. vm_compute. reflexivity. Qed.

Example open_without_bio :
  rumpuser_open netbsd (backend true) "blk3" 0x02 blk_init
  = (ENXIO netbsd, None, blk_init).
Proof. vm_compute. reflexivity. Qed.

(** C1, on the code: two calls of [rumpuser_open] that fail and still change
    the open count.  Write access to [blk0] whose backend opened read-only
    returns [EROFS] with the count raised from 0 to 1 and the handle kept,
    and no [shutdown_blkfront]; and opening a device that is already open
    returns 1 with the count raised from 1 to 2. *)
Theorem open_failure_changes_refcount :
  let wr := Z.lor (RUMPUSER_OPEN_BIO netbsd) (RUMPUSER_OPEN_WRONLY netbsd) in
  let rd := RUMPUSER_OPEN_BIO netbsd in
  let r1 := rumpuser_open netbsd (backend false) "blk0" wr blk_init in
  let r2 := rumpuser_open netbsd (backend false) "blk0" rd blk_init in
  let r3 := rumpuser_open netbsd (backend false) "blk0" rd (snd r2) in
  (fst r1 = (EROFS netbsd, None)
   /\ slot (blkopen blk_init) 0 = 0
   /\ slot (blkopen (snd r1)) 0 = 1
   /\ slot (blkdevs (snd r1)) 0 = Some 4096
   /\ calls (snd r1) = [init_blkfront_call "device/vbd/768"])
  /\ (fst r2 = (0, Some 64)
      /\ slot (blkopen (snd r2)) 0 = 1
      /\ fst r3 = (1, None)
      /\ slot (blkopen (snd r3)) 0 = 2).
Proof. vm_compute. repeat split; reflexivity. Qed.

(** The failures that do leave the slot as it was: a name or mode that is
    refused, and a closed device that the backend does not open. *)
Lemma open_eio_keeps_refcount (K : consts)
    (init_blkfront : string -> blkfront_info -> option Z * blkfront_info)
    (name : string) (mode_ : Z) (st : blk) :
  Z.land mode_ (RUMPUSER_OPEN_BIO K) <> 0 ->
  devname2num name <> -1 ->
  slot (blkopen st) (devname2num name) = 0 ->
  EIO K <> 0 ->
  fst (init_blkfront ("device/vbd/" +:+ pretty (768 + Z.shiftl (devname2num name) 6))
         (slot (blkinfos st) (devname2num name))) = None ->
  let res := rumpuser_open K init_blkfront name mode_ st in
  fst res = (EIO K, None) /\ blkopen (snd res) = blkopen st.
Proof.
  intros Hbio Hnum Hclosed Heio Hnull. simpl.
  unfold rumpuser_open, devopen.
  apply Z.eqb_neq in Hbio, Hnum, Heio. rewrite Hbio, Hnum, Hclosed. simpl.
  destruct (init_blkfront _ _) as [[d|] info]; simpl in Hnull; [discriminate|].
  simpl. rewrite Heio. simpl. split; reflexivity.
Qed.

End BlkFacts.

(* ===================================================================== *)
(** * More of the scheduler *)
(* ===================================================================== *)

Module SchedMore.
Import Sched SchedFacts.

(** ** [block] against [wake] *)

Lemma not32_runnable : not32 RUNNABLE_FLAG = Z.ones 32 - 1.
Proof. reflexivity. Qed.

Lemma testbit_not32_runnable (n : Z) :
  0 <= n ->
  Z.testbit (not32 RUNNABLE_FLAG) n = (0 <? n) && (n <? 32).
Proof.
  intros Hn. unfold not32, RUNNABLE_FLAG.
  change 0xFFFFFFFF with (Z.ones 32). change 1 with (Z.ones 1).
  rewrite Z.lxor_spec.
  destruct (Z.ltb_spec 0 n) as [H0|H0]; destruct (Z.ltb_spec n 32) as [H1|H1]; simpl.
  - rewrite Z.ones_spec_high, Z.ones_spec_low by lia. reflexivity.
  - rewrite !Z.ones_spec_high by lia. reflexivity.
  - rewrite !Z.ones_spec_low by lia. reflexivity.
  - lia.
Qed.

Lemma block_thread_idem (th : thread) :
  block_thread (block_thread th) = block_thread th.
Proof.
  unfold block_thread, clear_runnable, flag_clear, set_wakeup_time, set_flags;
    simpl.
  rewrite <- Z.land_assoc, Z.land_diag. reflexivity.
Qed.

Lemma block_wake_thread (th : thread) :
  block_thread (wake_thread th) = block_thread th.
Proof.
  unfold block_thread, wake_thread, clear_runnable, set_runnable, flag_clear,
    flag_or, set_wakeup_time, set_flags; simpl. f_equal.
  rewrite Z.land_lor_distr_l.
  replace (Z.land RUNNABLE_FLAG (not32 RUNNABLE_FLAG)) with 0 by reflexivity.
  apply Z.lor_0_r.
Qed.

Lemma wake_block_thread (th : thread) :
  0 <= flags th < 2 ^ 32 ->
  wake_thread (block_thread th) = wake_thread th.
Proof.
  intros Hf.
  unfold block_thread, wake_thread, clear_runnable, set_runnable, flag_clear,
    flag_or, set_wakeup_time, set_flags; simpl. f_equal.
  apply Z.bits_inj'. intros n Hn.
  rewrite !Z.lor_spec, Z.land_spec, testbit_not32_runnable by exact Hn.
  destruct (Z.ltb_spec 0 n) as [H0|H0]; simpl.
  - destruct (Z.ltb_spec n 32) as [H1|H1]; simpl.
    + rewrite andb_true_r. reflexivity.
    + rewrite andb_false_r.
      assert (Z.testbit (flags th) n = false) as ->; [|reflexivity].
      destruct (Z.eq_dec (flags th) 0) as [->|Hnz]; [apply Z.bits_0|].
      apply Z.bits_above_log2; [lia|].
      apply Z.log2_lt_pow2; [lia|].
      eapply Z.lt_le_trans; [apply Hf|].
      apply Z.pow_le_mono_r; lia.
  - assert (n = 0) as -> by lia.
    change (Z.testbit RUNNABLE_FLAG 0) with true.
    rewrite !orb_true_r. reflexivity.
Qed.

Lemma update_twice (f g : thread -> thread) (t : nat) (s : sched) :
  update f t (update g t s) = update (f ∘ g) t s.
Proof.
  unfold update, with_heap; simpl. f_equal. apply alter_alter_eq.
Qed.

(** X1: [block t] stores 0 in [wakeup_time] and clears the runnable bit of
    [t] and nothing else: the other flag bits of [t], the other threads, the
    queues and the current thread stay as they are (it does not yield).
    Blocking twice is blocking once; a [block] after a [wake] cancels the
    [wake]; and a [wake] after a [block] is the [wake] alone, the flags being
    a 32-bit word. *)
Theorem block_clears_and_composes (s : sched) (t : nat) :
  heap (block t s) !! t = block_thread <$> heap s !! t
  /\ (forall th : thread,
        wakeup_time (block_thread th) = 0
        /\ is_runnable (block_thread th) = false
        /\ (forall F, Z.land (not32 RUNNABLE_FLAG) F = F ->
              flag_set F (block_thread th) = flag_set F th))
  /\ block t (block t s) = block t s
  /\ block t (wake t s) = block t s
  /\ ((forall th, heap s !! t = Some th -> 0 <= flags th < 2 ^ 32) ->
        wake t (block t s) = wake t s)
  /\ current (block t s) = current s
  /\ thread_list (block t s) = thread_list s
  /\ exited_threads (block t s) = exited_threads s
  /\ joinwq (block t s) = joinwq s
  /\ (forall t' : nat, t' <> t -> heap (block t s) !! t' = heap s !! t').
Proof.
  repeat split.
  - simpl. apply lookup_alter_eq.
  - apply is_runnable_clear.
  - intros F HF. unfold block_thread, clear_runnable.
    rewrite flag_set_clear_other by exact HF. reflexivity.
  - unfold block. rewrite update_twice. unfold update. f_equal.
    apply alter_ext. intros th _. apply block_thread_idem.
  - unfold block, wake. rewrite update_twice. unfold update. f_equal.
    apply alter_ext. intros th _. apply block_wake_thread.
  - intros Hrange. unfold block, wake. rewrite update_twice. unfold update.
    f_equal. apply alter_ext. intros th Hth. apply wake_block_thread.
    exact (Hrange th Hth).
  - intros t' Hne. simpl. apply lookup_alter_ne. congruence.
Qed.

(** ** What a pass does to the run queue *)

Lemma scan_shape (now : Z) (todo : list nat) :
  forall h seen minw h' l' d o,
    scan now h seen todo minw = Some (h', l', d, o) ->
    (o = None /\ l' = seen ++ todo)
    \/ (exists pre u post,
          o = Some u /\ todo = pre ++ u :: post
          /\ l' = seen ++ pre ++ post ++ [u]).
Proof.
  induction todo as [|t rest IH]; intros h seen minw h' l' d o Hs; simpl in Hs.
  - injection Hs as _ <- _ <-. left. rewrite app_nil_r. split; reflexivity.
  - destruct (h !! t) as [th|] eqn:Hth; [|discriminate].
    destruct (expire now minw th) as [th' minw1].
    destruct (is_runnable th').
    + injection Hs as _ <- _ <-. right. exists [], t, rest.
      repeat split; reflexivity.
    + apply IH in Hs as [[-> ->]|(pre & u & post & -> & -> & ->)].
      * left. rewrite <- app_assoc. split; reflexivity.
      * right. exists (t :: pre), u, post.
        rewrite <- app_assoc. repeat split; reflexivity.
Qed.

Lemma scan_perm now h seen todo minw h' l' d o :
  scan now h seen todo minw = Some (h', l', d, o) -> l' ≡ₚ seen ++ todo.
Proof.
  intros Hs.
  apply scan_shape in Hs as [[_ ->]|(pre & u & post & _ & -> & ->)];
    [reflexivity|].
  apply Permutation_app_head, Permutation_app_head.
  rewrite (Permutation_app_comm post [u]). reflexivity.
Qed.

Lemma scan_live now h seen todo minw h' l' d o :
  scan now h seen todo minw = Some (h', l', d, o) ->
  forall u, is_Some (h' !! u) <-> is_Some (h !! u).
Proof.
  intros Hs u.
  apply scan_result in Hs as [[_ ->]|(t & th & _ & Hth & _ & ->)]; [reflexivity|].
  destruct (decide (t = u)) as [->|Hne].
  - rewrite lookup_insert_eq, Hth. split; eauto.
  - rewrite lookup_insert_ne by exact Hne. reflexivity.
Qed.

Lemma run_callbacks_live ws s u :
  is_Some (heap (run_callbacks ws s) !! u) <-> is_Some (heap s !! u).
Proof.
  revert s. induction ws as [|w ws IH]; intros s; [reflexivity|].
  change (run_callbacks (w :: ws) s) with (run_callbacks ws (wake w s)).
  rewrite IH. simpl. rewrite lookup_alter_is_Some. reflexivity.
Qed.

Lemma run_callbacks_exited ws s :
  exited_threads (run_callbacks ws s) = exited_threads s.
Proof.
  revert s. induction ws as [|w ws IH]; intros s; [reflexivity|].
  change (run_callbacks (w :: ws) s) with (run_callbacks ws (wake w s)).
  rewrite IH. reflexivity.
Qed.

Lemma run_callbacks_joinwq ws s :
  joinwq (run_callbacks ws s) = joinwq s.
Proof.
  revert s. induction ws as [|w ws IH]; intros s; [reflexivity|].
  change (run_callbacks (w :: ws) s) with (run_callbacks ws (wake w s)).
  rewrite IH. reflexivity.
Qed.

Lemma run_callbacks_current ws s :
  current (run_callbacks ws s) = current s.
Proof.
  revert s. induction ws as [|w ws IH]; intros s; [reflexivity|].
  change (run_callbacks (w :: ws) s) with (run_callbacks ws (wake w s)).
  rewrite IH. reflexivity.
Qed.

(** The state after one iteration of the loop, whichever way it went. *)
Definition after_pass (res : sched * nat + sched * list hcall) : sched :=
  match res with inl (s', _) => s' | inr (s', _) => s' end.

(** X2: an iteration of the selection loop never loses, adds or duplicates a
    thread: the run queue afterwards is a permutation of the run queue
    before, the same threads are live, and the exited list, the join queue
    and [current] are untouched; the thread it chooses is one of the run
    queue. *)
Theorem pass_keeps_the_threads (r : round) (s : sched)
    (res : sched * nat + sched * list hcall) :
  pass r s = Some res ->
  thread_list (after_pass res) ≡ₚ thread_list s
  /\ (forall u, is_Some (heap (after_pass res) !! u) <-> is_Some (heap s !! u))
  /\ exited_threads (after_pass res) = exited_threads s
  /\ joinwq (after_pass res) = joinwq s
  /\ current (after_pass res) = current s
  /\ (forall s' next, res = inl (s', next) -> next ∈ thread_list s).
Proof.
  unfold pass. intros Hp.
  destruct (scan _ _ _ _ _) as [[[[h l] d] o]|] eqn:Hscan; [|discriminate].
  pose proof (scan_perm _ _ _ _ _ _ _ _ _ Hscan) as Hperm. simpl in Hperm.
  pose proof (scan_live _ _ _ _ _ _ _ _ _ Hscan) as Hlive.
  pose proof (scan_shape _ _ _ _ _ _ _ _ _ Hscan) as Hshape.
  destruct o as [next|]; injection Hp as <-; simpl.
  - repeat split; try assumption; try apply Hlive.
    intros s' n [= _ <-].
    destruct Hshape as [[[=] _]|(pre & u & post & [= <-] & -> & _)].
    apply elem_of_app. right. left.
  - rewrite run_callbacks_thread_list, run_callbacks_exited,
      run_callbacks_joinwq, run_callbacks_current. simpl.
    repeat split; try assumption.
    + intros H. apply run_callbacks_live in H. apply Hlive, H.
    + intros H. apply run_callbacks_live. simpl. apply Hlive, H.
    + intros s' n [=].
Qed.

Lemma pass_keeps_the_threads_witness :
  exists res,
    pass (mkRound 100 []) (mkSched three [1%nat; 2%nat; 3%nat] [] [] 3%nat)
      = Some res
    /\ thread_list (after_pass res) = [1%nat; 3%nat; 2%nat]
    /\ thread_list (after_pass res) ≡ₚ [1%nat; 2%nat; 3%nat].
Proof.
  eexists. split; [vm_compute; reflexivity|]. split; [reflexivity|].
  refine (proj1 (pass_keeps_the_threads (mkRound 100 [])
                   (mkSched three [1%nat; 2%nat; 3%nat] [] [] 3%nat) _ _)).
  vm_compute. reflexivity.
Defined.

(** ** The queues hold live threads, once each *)

(** No thread is twice on a queue or on both queues, and every queued
    pointer is to a live thread. *)
Record queues_ok (s : sched) : Prop := mkQueuesOk {
  run_nodup : NoDup (thread_list s);
  exited_nodup : NoDup (exited_threads s);
  run_not_exited : forall t, t ∈ thread_list s -> t ∉ exited_threads s;
  run_live : forall t, t ∈ thread_list s -> is_Some (heap s !! t);
  exited_live : forall t, t ∈ exited_threads s -> is_Some (heap s !! t)
}.

(** A change of thread records and of the join queue only. *)
Lemma queues_ok_same_queues (s s' : sched) :
  thread_list s' = thread_list s ->
  exited_threads s' = exited_threads s ->
  (forall u, is_Some (heap s !! u) -> is_Some (heap s' !! u)) ->
  queues_ok s -> queues_ok s'.
Proof.
  intros HR HE Hlive [H1 H2 H3 H4 H5].
  split; rewrite ?HR, ?HE; auto.
Qed.

Lemma queues_ok_update (f : thread -> thread) (t : nat) (s : sched) :
  queues_ok s -> queues_ok (update f t s).
Proof.
  apply queues_ok_same_queues; try reflexivity.
  intros u Hu. simpl. apply lookup_alter_is_Some. exact Hu.
Qed.

Lemma queues_ok_with_joinwq (q : list (nat * nat)) (s : sched) :
  queues_ok s -> queues_ok (with_joinwq q s).
Proof. apply queues_ok_same_queues; auto. Qed.

Lemma queues_ok_with_current (t : nat) (s : sched) :
  queues_ok s -> queues_ok (with_current t s).
Proof. apply queues_ok_same_queues; auto. Qed.

Lemma queues_ok_wake_joiner t q s :
  queues_ok s -> queues_ok (wake_joiner t q s).
Proof.
  intros Hs. induction q as [|[a b] q IH]; simpl; [exact Hs|].
  destruct (decide (b = t)); [apply queues_ok_update; exact Hs | exact IH].
Qed.

Lemma queues_ok_guard (b : bool) (s s' : sched) :
  guard b s = Some s' -> queues_ok s -> queues_ok s'.
Proof. unfold guard. destruct b; [|discriminate]. intros [= <-]. auto. Qed.

Lemma queues_ok_pass r s res :
  pass r s = Some res -> queues_ok s -> queues_ok (after_pass res).
Proof.
  intros Hp [H1 H2 H3 H4 H5].
  unfold pass in Hp.
  destruct (scan _ _ _ _ _) as [[[[h l] d] o]|] eqn:Hscan; [|discriminate].
  pose proof (scan_perm _ _ _ _ _ _ _ _ _ Hscan) as Hperm. simpl in Hperm.
  pose proof (scan_live _ _ _ _ _ _ _ _ _ Hscan) as Hlive.
  assert (queues_ok (with_thread_list l (with_heap h s))) as Hok.
  { split; simpl.
    - rewrite Hperm. exact H1.
    - exact H2.
    - intros t Ht. rewrite Hperm in Ht. auto.
    - intros t Ht. rewrite Hperm in Ht. apply Hlive. auto.
    - intros t Ht. apply Hlive. auto. }
  destruct o as [next|]; injection Hp as <-; simpl; [exact Hok|].
  revert Hok. apply queues_ok_same_queues.
  - apply run_callbacks_thread_list.
  - apply run_callbacks_exited.
  - intros u Hu. apply run_callbacks_live. exact Hu.
Qed.

Lemma lookup_deletes (l : list nat) (h : gmap nat thread) (t : nat) :
  t ∉ l -> foldr delete h l !! t = h !! t.
Proof.
  induction l as [|x l IH]; intros Hnotin; simpl; [reflexivity|].
  apply not_elem_of_cons in Hnotin as [Hne Hnotin].
  rewrite lookup_delete_ne by congruence. apply IH, Hnotin.
Qed.

Lemma lookup_deletes_in (l : list nat) (h : gmap nat thread) (t : nat) :
  t ∈ l -> foldr delete h l !! t = None.
Proof.
  induction l as [|x l IH]; intros Hin; simpl.
  - apply elem_of_nil in Hin. contradiction.
  - destruct (decide (x = t)) as [->|Hne]; [apply lookup_delete_eq|].
    rewrite lookup_delete_ne by exact Hne.
    apply elem_of_cons in Hin as [->|Hin]; [congruence | apply IH, Hin].
Qed.

Lemma queues_ok_reap prev s : queues_ok s -> queues_ok (reap prev s).
Proof.
  intros [H1 H2 H3 H4 H5]. unfold reap. split; simpl.
  - exact H1.
  - apply NoDup_filter, H2.
  - intros t Ht Hin. apply list_elem_of_filter in Hin as [_ Hin].
    exact (H3 t Ht Hin).
  - intros t Ht. rewrite lookup_deletes; [auto|].
    intros Hin. apply list_elem_of_filter in Hin as [_ Hin].
    exact (H3 t Ht Hin).
  - intros t Ht. apply list_elem_of_filter in Ht as [-> Ht].
    rewrite lookup_deletes; [auto|].
    intros Hin. apply list_elem_of_filter in Hin as [Hne _]. congruence.
Qed.

Lemma queues_ok_create t th0 ck s :
  heap s !! t = None -> queues_ok s -> queues_ok (create_thread t th0 ck s).
Proof.
  intros Hfresh [H1 H2 H3 H4 H5].
  assert (t ∉ thread_list s) as HnR.
  { intros Hin. destruct (H4 t Hin) as [x Hx]. congruence. }
  assert (t ∉ exited_threads s) as HnE.
  { intros Hin. destruct (H5 t Hin) as [x Hx]. congruence. }
  unfold create_thread. split; simpl.
  - apply NoDup_app. split; [exact H1|]. split; [|apply NoDup_singleton].
    intros x Hx Hin. apply list_elem_of_singleton in Hin as ->. exact (HnR Hx).
  - exact H2.
  - intros x Hx. apply elem_of_app in Hx as [Hx|Hx]; [auto|].
    apply list_elem_of_singleton in Hx as ->. exact HnE.
  - intros x Hx. apply lookup_insert_is_Some'.
    apply elem_of_app in Hx as [Hx|Hx]; [right; auto|].
    apply list_elem_of_singleton in Hx as ->. left. reflexivity.
  - intros x Hx. apply lookup_insert_is_Some'. right. auto.
Qed.

Lemma queues_ok_exit_final s :
  current s ∈ thread_list s -> queues_ok s -> queues_ok (exit_final s).
Proof.
  intros Hcur [H1 H2 H3 H4 H5]. unfold exit_final. split; simpl.
  - apply NoDup_filter, H1.
  - apply NoDup_cons. split; [apply H3, Hcur | exact H2].
  - intros t Ht Hin. apply list_elem_of_filter in Ht as [Hne Ht].
    apply elem_of_cons in Hin as [->|Hin]; [congruence | exact (H3 t Ht Hin)].
  - intros t Ht. apply list_elem_of_filter in Ht as [_ Ht].
    apply lookup_alter_is_Some. auto.
  - intros t Ht. apply lookup_alter_is_Some.
    apply elem_of_cons in Ht as [->|Ht]; auto.
Qed.

Lemma live_true t s : live t s = true -> is_Some (heap s !! t).
Proof. unfold live. intros H. apply bool_decide_eq_true in H. exact H. Qed.

Lemma live_false t s : live t s = false -> heap s !! t = None.
Proof.
  unfold live. intros H. apply bool_decide_eq_false in H.
  destruct (heap s !! t) eqn:E; [|reflexivity]. exfalso. apply H. eauto.
Qed.

(** X3: the scheduler keeps its queues sound.  If no thread is twice on the
    run queue or the exited list or on both, and every queued pointer is to a
    live thread, then the same holds after any action of the scheduler:
    creating a thread at a fresh address, waking, blocking, either half of a
    sleep, an iteration or the end of [schedule], the steps of [exit_thread]
    and [join_thread].  The last step of [exit_thread] needs its caller to be
    on the run queue, as a running thread is. *)
Theorem queues_stay_sound (a : action) (s s' : sched) :
  queues_ok s ->
  (a = AExitFinal -> current s ∈ thread_list s) ->
  exec a s = Some s' ->
  queues_ok s'.
Proof.
  intros Hs Hexit He. destruct a; simpl in He.
  - unfold guard in He. destruct (live t s) eqn:Hl; simpl in He; [discriminate|].
    injection He as <-. apply queues_ok_create; [apply live_false, Hl | exact Hs].
  - eapply queues_ok_guard; [exact He|]. apply queues_ok_update, Hs.
  - eapply queues_ok_guard; [exact He|]. apply queues_ok_update, Hs.
  - eapply queues_ok_guard; [exact He|]. apply queues_ok_update, Hs.
  - unfold dosleep_leave in He.
    destruct (heap s !! current s); simpl in He; [|discriminate].
    injection He as <-. apply queues_ok_update, Hs.
  - eapply queues_ok_guard; [exact He|]. apply queues_ok_update, Hs.
  - destruct (pass r s) as [res|] eqn:Hp; [|discriminate].
    pose proof (queues_ok_pass r s res Hp Hs) as Hok.
    destruct res as [[s1 next]|[s1 calls]]; injection He as <-;
      [apply queues_ok_with_current|]; exact Hok.
  - injection He as <-. apply queues_ok_reap, Hs.
  - destruct (heap s !! current s); simpl in He; [|discriminate].
    eapply queues_ok_guard; [exact He|].
    unfold exit_gate, block.
    apply queues_ok_update, queues_ok_wake_joiner, queues_ok_update, Hs.
  - destruct (heap s !! current s); simpl in He; [|discriminate].
    eapply queues_ok_guard; [exact He|].
    apply queues_ok_exit_final; [apply Hexit; reflexivity | exact Hs].
  - destruct (heap s !! joinable); simpl in He; [|discriminate].
    eapply queues_ok_guard; [exact He|].
    unfold join_wait, block.
    apply queues_ok_update, queues_ok_with_joinwq, Hs.
  - injection He as <-. apply queues_ok_with_joinwq, Hs.
  - destruct (heap s !! joinable); simpl in He; [|discriminate].
    eapply queues_ok_guard; [exact He|].
    unfold join_final, wake. apply queues_ok_update, queues_ok_update, Hs.
  - eapply queues_ok_guard; [exact He|]. apply queues_ok_update, Hs.
Qed.

Lemma queues_ok_boot : queues_ok boot.
Proof.
  split; simpl; try apply NoDup_nil_2;
    intros t Ht; apply elem_of_nil in Ht; contradiction.
Qed.

Lemma queues_stay_sound_witness :
  queues_ok boot
  /\ exec (ACreate 1 (blank "a") 7) boot
     = Some (create_thread 1 (blank "a") 7 boot)
  /\ queues_ok (create_thread 1 (blank "a") 7 boot).
Proof.
  split; [exact queues_ok_boot|]. split; [reflexivity|].
  apply (queues_stay_sound (ACreate 1 (blank "a") 7) boot).
  - exact queues_ok_boot.
  - discriminate.
  - reflexivity.
Defined.

(** X4: on sound queues the selection loop never follows a dangling
    pointer: each iteration of it is defined, and a call of [schedule] does
    not crash, however long the environment lets it run. *)
Theorem schedule_never_crashes (s : sched) :
  queues_ok s ->
  (forall r : round, is_Some (pass r s))
  /\ (forall env : list round, schedule env s <> Crashed).
Proof.
  intros Hs.
  assert (forall r s0, queues_ok s0 -> is_Some (pass r s0)) as Hpass.
  { intros r s0 [_ _ _ Hlive _]. unfold pass.
    destruct (scan_from (r_now r) (thread_list s0) (heap s0) []
                (to_s_time (r_now r + SECONDS 10)) Hlive)
      as [d [[_ ->]|(pre & t & post & th & _ & _ & _ & _ & ->)]]; eauto. }
  split; [intros r; apply Hpass, Hs|].
  intros env. unfold schedule.
  assert (forall log, select env s log <> BadPointer) as Hsel.
  { revert s Hs. induction env as [|r env IH]; intros s Hs log; simpl;
      [discriminate|].
    destruct (Hpass r s Hs) as [res Hres]. rewrite Hres.
    pose proof (queues_ok_pass r s res Hres Hs) as Hok.
    destruct res as [[s1 next]|[s1 calls]]; [discriminate|].
    apply IH. exact Hok. }
  specialize (Hsel []).
  destruct (select env s []) as [s1 next log|s1 log|]; [| discriminate | congruence].
  destruct (decide (current s = next)); discriminate.
Qed.

Lemma schedule_never_crashes_witness :
  (forall r : round, is_Some (pass r all_asleep))
  /\ (forall env : list round, schedule env all_asleep <> Crashed).
Proof.
  apply (schedule_never_crashes all_asleep).
  split; simpl.
  - repeat (apply NoDup_cons; split;
            [rewrite ?elem_of_cons, ?elem_of_nil; intuition discriminate|]).
    apply NoDup_nil_2.
  - apply NoDup_nil_2.
  - intros t _ Hin. apply elem_of_nil in Hin. contradiction.
  - intros t Ht. rewrite !elem_of_cons, elem_of_nil in Ht.
    destruct Ht as [->|[->|[->|[]]]]; eexists; reflexivity.
  - intros t Ht. apply elem_of_nil in Ht. contradiction.
Defined.

(** ** Round robin *)

(** Threads that do nothing but call [schedule]: each iteration chooses a
    thread, which finishes its own [schedule] and calls it again.  The result
    is the threads chosen, in order, and the last state. *)
Fixpoint yields (envs : list round) (s : sched) : option (list nat * sched) :=
  match envs with
  | [] => Some ([], s)
  | r :: envs' =>
      match pass r s with
      | Some (inl (s', next)) =>
          '(chosen, s'') ← yields envs' (reap next (with_current next s'));
          Some (next :: chosen, s'')
      | _ => None
      end
  end.

(** Every thread of [l] is live and runnable. *)
Definition all_runnable (h : gmap nat thread) (l : list nat) : Prop :=
  Forall (fun t => exists th, h !! t = Some th /\ is_runnable th = true) l.

Lemma pass_runnable_head (r : round) (s : sched) (t : nat) (rest : list nat)
    (th : thread) :
  thread_list s = t :: rest ->
  heap s !! t = Some th ->
  is_runnable th = true ->
  pass r s = Some (inl (with_thread_list (rest ++ [t]) s, t)).
Proof.
  intros HR Hth Hrun. unfold pass. rewrite HR. simpl. rewrite Hth.
  unfold expire. rewrite Hrun. simpl. rewrite Hrun, insert_id by exact Hth.
  destruct s; reflexivity.
Qed.

Lemma reap_nothing (t : nat) (s : sched) :
  exited_threads s = [] -> reap t s = s.
Proof. intros HE. unfold reap. destruct s; simpl in *. subst. reflexivity. Qed.

Lemma last_nonempty (x : nat) (l : list nat) (d1 d2 : nat) :
  List.last (x :: l) d1 = List.last (x :: l) d2.
Proof.
  revert x. induction l as [|y l IH]; intros x; [reflexivity|].
  change (List.last (y :: l) d1 = List.last (y :: l) d2). apply IH.
Qed.

Lemma yields_rotate (envs : list round) :
  forall (s : sched) (R : list nat),
    thread_list s = R ->
    exited_threads s = [] ->
    all_runnable (heap s) R ->
    (length envs <= length R)%nat ->
    exists s',
      yields envs s = Some (take (length envs) R, s')
      /\ thread_list s' = drop (length envs) R ++ take (length envs) R
      /\ heap s' = heap s
      /\ current s' = List.last (take (length envs) R) (current s).
Proof.
  induction envs as [|r envs IH]; intros s R HR HE Hall Hlen; simpl.
  - exists s. rewrite drop_0, take_0, app_nil_r. auto.
  - destruct R as [|t rest]; simpl in Hlen; [lia|].
    inversion Hall as [|? ? (th & Hth & Hrun) Hrest]; subst.
    rewrite (pass_runnable_head r s t rest th HR Hth Hrun).
    set (s1 := with_current t (with_thread_list (rest ++ [t]) s)).
    rewrite (reap_nothing t s1) by exact HE.
    destruct (IH s1 (rest ++ [t])) as (s' & Hy & Hl & Hh & Hc);
      [reflexivity | exact HE | | rewrite length_app; simpl; lia |].
    { apply Forall_app. split; [exact Hrest|].
      constructor; [|constructor]. exists th. auto. }
    rewrite take_app_le in Hy, Hl, Hc by lia.
    rewrite drop_app_le in Hl by lia.
    exists s'. rewrite Hy. simpl. repeat split.
    + rewrite Hl, <- app_assoc. reflexivity.
    + exact Hh.
    + rewrite Hc. simpl.
      destruct (take (length envs) rest) as [|n l]; [reflexivity|].
      apply last_nonempty.
Qed.

(** X5: round robin.  When every thread of the run queue [R] is runnable
    and none has exited, [k <= |R|] calls of [schedule] in a row, whatever
    the clock reads, choose the first [k] threads of [R] in queue order and
    leave the queue rotated by [k]; so [|R|] calls choose every thread once,
    in order, and give back the queue [R], with no thread record changed. *)
Theorem round_robin_rotation (envs : list round) (s : sched) :
  exited_threads s = [] ->
  all_runnable (heap s) (thread_list s) ->
  (length envs <= length (thread_list s))%nat ->
  let k := length envs in
  let R := thread_list s in
  exists s',
    yields envs s = Some (take k R, s')
    /\ thread_list s' = drop k R ++ take k R
    /\ heap s' = heap s
    /\ (k = length R -> yields envs s = Some (R, s') /\ thread_list s' = R).
Proof.
  intros HE Hall Hlen k R.
  destruct (yields_rotate envs s R eq_refl HE Hall Hlen) as (s' & Hy & Hl & Hh & _).
  exists s'. fold k in Hy, Hl.
  split; [exact Hy|]. split; [exact Hl|]. split; [exact Hh|].
  intros Hk. rewrite Hy, Hl. fold R.
  rewrite take_ge, drop_ge by lia. split; reflexivity.
Qed.

(** Three runnable threads. *)
Definition trio : sched :=
  mkSched (<[1%nat := ready "a"]> (<[2%nat := ready "b"]> (<[3%nat := ready "c"]> ∅)))
    [1%nat; 2%nat; 3%nat] [] [] 3%nat.

Lemma round_robin_rotation_witness :
  let envs := [mkRound 0 []; mkRound 5 []; mkRound 9 []] in
  exists s',
    yields envs trio = Some ([1%nat; 2%nat; 3%nat], s')
    /\ thread_list s' = [1%nat; 2%nat; 3%nat]
    /\ heap s' = heap trio.
Proof.
  intros envs.
  destruct (round_robin_rotation envs trio) as (s' & Hy & Hl & Hh & _).
  - reflexivity.
  - repeat constructor; eexists; split; reflexivity.
  - simpl. lia.
  - exists s'. repeat split; assumption.
Defined.

(** ** [schedule] with a ready thread *)

(** X6: [schedule] does not put the CPU to sleep while a thread it can run
    is on the run queue.  If the queue holds live threads and one of them is
    runnable or has a deadline that has passed, the first iteration chooses a
    thread that is one of these, and the call makes no hypervisor call:
    it returns at once in the caller, or switches to the chosen thread. *)
Theorem schedule_runs_a_ready_thread (r : round) (env : list round)
    (s : sched) (t : nat) (th : thread) :
  (forall u, u ∈ thread_list s -> is_Some (heap s !! u)) ->
  t ∈ thread_list s ->
  heap s !! t = Some th ->
  eligible (r_now r) th = true ->
  exists (s' : sched) (next : nat) (thn : thread),
    select (r :: env) s [] = Picked s' next []
    /\ next ∈ thread_list s
    /\ heap s !! next = Some thn
    /\ eligible (r_now r) thn = true
    /\ (schedule (r :: env) s = Resumed (reap next s') []
        \/ schedule (r :: env) s = SwitchedTo (with_current next s') next []).
Proof.
  intros Hlive Hin Hth Hel.
  destruct (scan_from (r_now r) (thread_list s) (heap s) []
              (to_s_time (r_now r + SECONDS 10)) Hlive)
    as [d [[Hall _]|(pre & u & post & thu & HR & _ & Hu & Helu & Hs)]].
  - exfalso. unfold all_waiting in Hall. rewrite Forall_forall in Hall.
    destruct (Hall t Hin) as (th' & Hth' & Hel'). congruence.
  - assert (select (r :: env) s [] =
            Picked (with_thread_list ([] ++ pre ++ post ++ [u])
                      (with_heap (<[u := treat (r_now r) thu]> (heap s)) s)) u [])
      as Hsel.
    { simpl. unfold pass. rewrite Hs. reflexivity. }
    eexists _, u, thu. split; [exact Hsel|].
    split; [rewrite HR; apply elem_of_app; right; left|].
    split; [exact Hu|]. split; [exact Helu|].
    unfold schedule. rewrite Hsel.
    destruct (decide (current s = u)) as [->|Hne]; [left | right]; reflexivity.
Qed.

Lemma schedule_runs_a_ready_thread_witness :
  exists s' next thn,
    select [mkRound 100 []] (mkSched three [1%nat; 2%nat; 3%nat] [] [] 3%nat) []
      = Picked s' next []
    /\ next ∈ [1%nat; 2%nat; 3%nat]
    /\ three !! next = Some thn
    /\ eligible 100 thn = true
    /\ (schedule [mkRound 100 []] (mkSched three [1%nat; 2%nat; 3%nat] [] [] 3%nat)
          = Resumed (reap next s') []
        \/ schedule [mkRound 100 []] (mkSched three [1%nat; 2%nat; 3%nat] [] [] 3%nat)
          = SwitchedTo (with_current next s') next []).
Proof.
  apply (schedule_runs_a_ready_thread (mkRound 100 []) []
           (mkSched three [1%nat; 2%nat; 3%nat] [] [] 3%nat) 3%nat (ready "c")).
  - intros u Hu. simpl in Hu. rewrite !elem_of_cons, elem_of_nil in Hu.
    destruct Hu as [->|[->|[->|[]]]]; eexists; reflexivity.
  - simpl. rewrite !elem_of_cons. auto.
  - reflexivity.
  - reflexivity.
Defined.

(** ** The end of a thread *)

Lemma scan_next_queued now h seen todo minw h' l' d u :
  scan now h seen todo minw = Some (h', l', d, Some u) -> u ∈ todo.
Proof.
  intros Hs.
  apply scan_shape in Hs as [[[=] _]|(pre & v & post & [= <-] & -> & _)].
  apply elem_of_app. right. left.
Qed.

(** What is left of an exited thread [t]: it is off the run queue, and
    either still on the exited list with its structure, or unlinked and
    freed. *)
Definition exited_or_freed (t : nat) (s : sched) : Prop :=
  (t ∉ thread_list s)
  /\ ((t ∈ exited_threads s /\ is_Some (heap s !! t))
      \/ ((t ∉ exited_threads s) /\ heap s !! t = None)).

(** The scheduler goes on after [t] has exited: any actions, where
    [exit_thread] is called by a thread of the run queue, as a running thread
    is, and no new thread structure is allocated at the address of [t]. *)
Inductive goes_on (t : nat) : sched -> sched -> Prop :=
  | goes_on_refl (s : sched) : goes_on t s s
  | goes_on_step (a : action) (s s1 s2 : sched) :
      (a = AExitFinal -> current s ∈ thread_list s) ->
      (forall th0 ck, a <> ACreate t th0 ck) ->
      exec a s = Some s1 -> goes_on t s1 s2 -> goes_on t s s2.

Lemma exited_or_freed_same_queues (t : nat) (s s' : sched) :
  thread_list s' = thread_list s ->
  exited_threads s' = exited_threads s ->
  (is_Some (heap s' !! t) <-> is_Some (heap s !! t)) ->
  exited_or_freed t s -> exited_or_freed t s'.
Proof.
  intros HR HE Hlive [HnR Hcase]. unfold exited_or_freed.
  rewrite HR, HE. split; [exact HnR|].
  destruct Hcase as [[Hin Hl]|[Hnin Hnone]]; [left | right]; split; auto.
  - apply Hlive, Hl.
  - apply eq_None_not_Some. intros Hl. apply Hlive in Hl.
    rewrite Hnone in Hl. destruct Hl as [x Hx]. discriminate.
Qed.

Lemma exited_or_freed_update t (f : thread -> thread) (u : nat) (s : sched) :
  exited_or_freed t s -> exited_or_freed t (update f u s).
Proof.
  apply exited_or_freed_same_queues; try reflexivity.
  simpl. apply lookup_alter_is_Some.
Qed.

Lemma exited_or_freed_with_joinwq t (q : list (nat * nat)) (s : sched) :
  exited_or_freed t s -> exited_or_freed t (with_joinwq q s).
Proof. apply exited_or_freed_same_queues; reflexivity. Qed.

Lemma exited_or_freed_with_current t (u : nat) (s : sched) :
  exited_or_freed t s -> exited_or_freed t (with_current u s).
Proof. apply exited_or_freed_same_queues; reflexivity. Qed.

Lemma exited_or_freed_wake_joiner t u q s :
  exited_or_freed t s -> exited_or_freed t (wake_joiner u q s).
Proof.
  intros Hs. induction q as [|[a b] q IH]; simpl; [exact Hs|].
  destruct (decide (b = u)); [apply exited_or_freed_update; exact Hs | exact IH].
Qed.

Lemma exited_or_freed_guard t (b : bool) (s s' : sched) :
  guard b s = Some s' -> exited_or_freed t s -> exited_or_freed t s'.
Proof. unfold guard. destruct b; [|discriminate]. intros [= <-]. auto. Qed.

Lemma exited_or_freed_pass t r s res :
  pass r s = Some res -> exited_or_freed t s -> exited_or_freed t (after_pass res).
Proof.
  intros Hp [HnR Hcase]. unfold pass in Hp.
  destruct (scan _ _ _ _ _) as [[[[h l] d] o]|] eqn:Hscan; [|discriminate].
  pose proof (scan_perm _ _ _ _ _ _ _ _ _ Hscan) as Hperm. simpl in Hperm.
  pose proof (scan_live _ _ _ _ _ _ _ _ _ Hscan t) as Hlive.
  assert (exited_or_freed t (with_thread_list l (with_heap h s))) as Hok.
  { split; simpl; [rewrite Hperm; exact HnR|].
    destruct Hcase as [[Hin Hl]|[Hnin Hnone]]; [left | right]; split; auto.
    - apply Hlive, Hl.
    - apply eq_None_not_Some. intros Hl. apply Hlive in Hl.
      rewrite Hnone in Hl. destruct Hl as [x Hx]. discriminate. }
  destruct o as [next|]; injection Hp as <-; simpl; [exact Hok|].
  revert Hok. apply exited_or_freed_same_queues.
  - apply run_callbacks_thread_list.
  - apply run_callbacks_exited.
  - apply run_callbacks_live.
Qed.

(** The end of [schedule]: run by [t] it leaves [t] as it is, run by another
    thread it leaves [t] freed. *)
Lemma reap_exited t prev s :
  exited_or_freed t s ->
  (prev <> t ->
     heap (reap prev s) !! t = None /\ (t ∉ exited_threads (reap prev s)))
  /\ (prev = t -> t ∈ exited_threads s ->
        heap (reap prev s) !! t = heap s !! t
        /\ t ∈ exited_threads (reap prev s)).
Proof.
  intros [HnR Hcase]. split.
  - intros Hne. split.
    + destruct Hcase as [[Hin _]|[Hnin Hnone]]; unfold reap; simpl.
      * apply lookup_deletes_in. apply list_elem_of_filter. split; congruence.
      * rewrite lookup_deletes; [exact Hnone|].
        intros Hin. apply list_elem_of_filter in Hin as [_ Hin]. exact (Hnin Hin).
    + unfold reap; simpl. intros Hin.
      apply list_elem_of_filter in Hin as [-> _]. congruence.
  - intros -> Hin. split; [apply reap_lookup_self|].
    unfold reap; simpl. apply list_elem_of_filter. split; [reflexivity | exact Hin].
Qed.

Lemma exited_or_freed_reap t prev s :
  exited_or_freed t s -> exited_or_freed t (reap prev s).
Proof.
  intros Hs. pose proof (reap_exited t prev s Hs) as [Hother Hself].
  destruct Hs as [HnR Hcase]. split; [exact HnR|].
  destruct (decide (prev = t)) as [->|Hne].
  - destruct Hcase as [[Hin Hl]|[Hnin Hnone]].
    + left. destruct (Hself eq_refl Hin) as [Hh Hin']. rewrite Hh. auto.
    + right. split.
      * unfold reap; simpl. intros Hin.
        apply list_elem_of_filter in Hin as [_ Hin]. exact (Hnin Hin).
      * rewrite reap_lookup_self. exact Hnone.
  - right. destruct (Hother Hne) as [Hnone Hnin]. auto.
Qed.

Lemma exited_or_freed_create t u th0 ck s :
  u <> t -> exited_or_freed t s -> exited_or_freed t (create_thread u th0 ck s).
Proof.
  intros Hne [HnR Hcase]. unfold create_thread. split; simpl.
  - intros Hin. apply elem_of_app in Hin as [Hin|Hin]; [exact (HnR Hin)|].
    apply list_elem_of_singleton in Hin. congruence.
  - rewrite lookup_insert_ne by exact Hne. exact Hcase.
Qed.

Lemma exited_or_freed_exit_final t s :
  current s ∈ thread_list s ->
  exited_or_freed t s -> exited_or_freed t (exit_final s).
Proof.
  intros Hcur [HnR Hcase].
  assert (current s <> t) as Hne by (intros <-; exact (HnR Hcur)).
  unfold exit_final. split; simpl.
  - intros Hin. apply list_elem_of_filter in Hin as [_ Hin]. exact (HnR Hin).
  - rewrite lookup_alter_ne by exact Hne.
    destruct Hcase as [[Hin Hl]|[Hnin Hnone]]; [left | right]; split; auto.
    + right. exact Hin.
    + intros Hin. apply elem_of_cons in Hin as [->|Hin]; [congruence | auto].
Qed.

Lemma exited_or_freed_exec t (a : action) (s s' : sched) :
  (a = AExitFinal -> current s ∈ thread_list s) ->
  (forall th0 ck, a <> ACreate t th0 ck) ->
  exec a s = Some s' ->
  exited_or_freed t s -> exited_or_freed t s'.
Proof.
  intros Hexit Hfresh He Hs. destruct a; simpl in He.
  - eapply exited_or_freed_guard; [exact He|].
    apply exited_or_freed_create; [|exact Hs].
    intros ->. exact (Hfresh th0 ck eq_refl).
  - eapply exited_or_freed_guard; [exact He|]. apply exited_or_freed_update, Hs.
  - eapply exited_or_freed_guard; [exact He|]. apply exited_or_freed_update, Hs.
  - eapply exited_or_freed_guard; [exact He|]. apply exited_or_freed_update, Hs.
  - unfold dosleep_leave in He.
    destruct (heap s !! current s); simpl in He; [|discriminate].
    injection He as <-. apply exited_or_freed_update, Hs.
  - eapply exited_or_freed_guard; [exact He|]. apply exited_or_freed_update, Hs.
  - destruct (pass r s) as [res|] eqn:Hp; [|discriminate].
    pose proof (exited_or_freed_pass t r s res Hp Hs) as Hok.
    destruct res as [[s1 next]|[s1 calls]]; injection He as <-;
      [apply exited_or_freed_with_current|]; exact Hok.
  - injection He as <-. apply exited_or_freed_reap, Hs.
  - destruct (heap s !! current s); simpl in He; [|discriminate].
    eapply exited_or_freed_guard; [exact He|].
    unfold exit_gate, block.
    apply exited_or_freed_update, exited_or_freed_wake_joiner,
      exited_or_freed_update, Hs.
  - destruct (heap s !! current s); simpl in He; [|discriminate].
    eapply exited_or_freed_guard; [exact He|].
    apply exited_or_freed_exit_final; [apply Hexit; reflexivity | exact Hs].
  - destruct (heap s !! joinable); simpl in He; [|discriminate].
    eapply exited_or_freed_guard; [exact He|].
    unfold join_wait, block.
    apply exited_or_freed_update, exited_or_freed_with_joinwq, Hs.
  - injection He as <-. apply exited_or_freed_with_joinwq, Hs.
  - destruct (heap s !! joinable); simpl in He; [|discriminate].
    eapply exited_or_freed_guard; [exact He|].
    unfold join_final, wake.
    apply exited_or_freed_update, exited_or_freed_update, Hs.
  - eapply exited_or_freed_guard; [exact He|]. apply exited_or_freed_update, Hs.
Qed.

Lemma exited_or_freed_goes_on t (s s' : sched) :
  goes_on t s s' -> exited_or_freed t s -> exited_or_freed t s'.
Proof.
  induction 1 as [s|a s s1 s2 Hexit Hfresh He _ IH]; intros Hs; [exact Hs|].
  apply IH. exact (exited_or_freed_exec t a s s1 Hexit Hfresh He Hs).
Qed.

Lemma pass_not_queued t r s s' next :
  (t ∉ thread_list s) -> pass r s = Some (inl (s', next)) -> next <> t.
Proof.
  intros HnR Hp ->. apply HnR. unfold pass in Hp.
  destruct (scan _ _ _ _ _) as [[[[h l] d] [u|]]|] eqn:Hscan;
    [|discriminate|discriminate].
  injection Hp as _ ->.
  exact (scan_next_queued _ _ _ _ _ _ _ _ _ Hscan).
Qed.

(** X7: the last step of [exit_thread], for a running thread [t] that is
    not held by [THREAD_MUSTJOIN]: [t] leaves the run queue and heads the
    exited list, not runnable.  From then on, whatever the scheduler goes on
    to do (any actions of the threads and the event handlers, short of
    allocating a new thread at the address of [t]), [t] is never on the run
    queue again and no iteration of the selection loop chooses it; it stays
    on the exited list with its structure until it is freed, and is then on
    no list; the end of [schedule] run by any other thread frees [t] and
    takes it off the exited list, whereas the end of [schedule] run by [t]
    itself leaves both alone. *)
Theorem exited_thread_is_reaped_by_another (s : sched) (th : thread) :
  let t := current s in
  heap s !! t = Some th ->
  flag_set THREAD_MUSTJOIN th = false ->
  exec AExitFinal s = Some (exit_final s)
  /\ (t ∉ thread_list (exit_final s))
  /\ exited_threads (exit_final s) = t :: exited_threads s
  /\ heap (exit_final s) !! t = Some (clear_runnable th)
  /\ (forall r s' next, pass r (exit_final s) = Some (inl (s', next)) -> next <> t)
  /\ (forall u, u <> t ->
        heap (reap u (exit_final s)) !! t = None
        /\ (t ∉ exited_threads (reap u (exit_final s))))
  /\ (heap (reap t (exit_final s)) !! t = Some (clear_runnable th)
      /\ t ∈ exited_threads (reap t (exit_final s)))
  /\ (forall s' : sched,
        goes_on t (exit_final s) s' ->
        (t ∉ thread_list s')
        /\ (forall r s'' next,
              pass r s' = Some (inl (s'', next)) -> next <> t)
        /\ ((t ∈ exited_threads s' /\ is_Some (heap s' !! t))
            \/ ((t ∉ exited_threads s') /\ heap s' !! t = None))
        /\ (forall u, u <> t ->
              heap (reap u s') !! t = None
              /\ (t ∉ exited_threads (reap u s')))
        /\ (t ∈ exited_threads s' ->
              heap (reap t s') !! t = heap s' !! t
              /\ t ∈ exited_threads (reap t s'))).
Proof.
  intros t Hth Hmj.
  assert (heap (exit_final s) !! t = Some (clear_runnable th)) as Hth1.
  { unfold exit_final; simpl. fold t. rewrite lookup_alter_eq, Hth. reflexivity. }
  assert (t ∉ thread_list (exit_final s)) as HnR.
  { unfold exit_final; simpl. fold t. intros H.
    apply list_elem_of_filter in H as [Hne _]. congruence. }
  assert (exited_or_freed t (exit_final s)) as Hleft.
  { split; [exact HnR|]. left. split; [|rewrite Hth1; eauto].
    unfold exit_final; simpl. left. }
  split; [simpl; fold t; rewrite Hth; simpl; rewrite Hmj; reflexivity|].
  split; [exact HnR|]. split; [reflexivity|]. split; [exact Hth1|].
  split; [intros r s' next; apply pass_not_queued; exact HnR|].
  split; [intros u Hu; apply (reap_exited t u _ Hleft); exact Hu|].
  split.
  { split; [rewrite reap_lookup_self; exact Hth1|].
    apply (reap_exited t t _ Hleft); [reflexivity|]. unfold exit_final; simpl. left. }
  intros s' Hgo.
  pose proof (exited_or_freed_goes_on t _ _ Hgo Hleft) as Hs'.
  split; [apply Hs'|].
  split; [intros r s'' next; apply pass_not_queued, Hs'|].
  split; [apply Hs'|].
  split; [intros u Hu; apply (reap_exited t u _ Hs'); exact Hu|].
  intros Hin. apply (reap_exited t t _ Hs'); [reflexivity | exact Hin].
Qed.

Lemma exited_thread_is_reaped_by_another_witness :
  exec AExitFinal pair_ready = Some (exit_final pair_ready)
  /\ thread_list (exit_final pair_ready) = [2%nat]
  /\ exited_threads (exit_final pair_ready) = [1%nat]
  /\ heap (reap 2%nat (exit_final pair_ready)) !! 1%nat = None
  /\ exited_threads (reap 2%nat (exit_final pair_ready)) = []
  /\ (exists s',
        run [APass (mkRound 0 []); AReap; ACreate 3%nat (blank "c") 0]
          (exit_final pair_ready) = Some s'
        /\ (1%nat ∉ thread_list s')
        /\ ((1%nat ∈ exited_threads s' /\ is_Some (heap s' !! 1%nat))
            \/ ((1%nat ∉ exited_threads s') /\ heap s' !! 1%nat = None))).
Proof.
  destruct (exited_thread_is_reaped_by_another pair_ready (ready "a"))
    as (He & _ & HE & _ & _ & Hreap & _ & Hlater); [reflexivity | reflexivity |].
  split; [exact He|]. split; [reflexivity|]. split; [exact HE|].
  split; [apply (Hreap 2%nat); discriminate|]. split; [reflexivity|].
  eexists. split; [vm_compute; reflexivity|].
  refine (let H := Hlater _ _ in conj (proj1 H) (proj1 (proj2 (proj2 H)))).
  eapply (goes_on_step _ (APass (mkRound 0 [])));
    [discriminate | intros th0 ck; discriminate | vm_compute; reflexivity |].
  eapply (goes_on_step _ AReap);
    [discriminate | intros th0 ck; discriminate | vm_compute; reflexivity |].
  eapply (goes_on_step _ (ACreate 3%nat (blank "c") 0));
    [discriminate | intros th0 ck [=] | vm_compute; reflexivity |].
  apply goes_on_refl.
Defined.

(** ** The handshake of [exit_thread] and [join_thread] *)

Lemma flag_set_block (F : Z) (th : thread) :
  Z.land (not32 RUNNABLE_FLAG) F = F ->
  flag_set F (block_thread th) = flag_set F th.
Proof.
  intros HF. unfold block_thread, clear_runnable.
  rewrite flag_set_clear_other by exact HF. reflexivity.
Qed.

Lemma flag_set_wake (F : Z) (th : thread) :
  Z.land RUNNABLE_FLAG F = 0 ->
  flag_set F (wake_thread th) = flag_set F th.
Proof.
  intros HF. unfold wake_thread, set_runnable.
  rewrite flag_set_or_other by exact HF. reflexivity.
Qed.

Lemma wake_joiner_first (t j : nat) (q1 q2 : list (nat * nat)) (s : sched) :
  Forall (fun jw => snd jw <> t) q1 ->
  wake_joiner t (q1 ++ (j, t) :: q2) s = wake j s.
Proof.
  induction q1 as [|[a b] q1 IH]; intros Hq; simpl.
  - destruct (decide (t = t)); [reflexivity | congruence].
  - inversion Hq as [|? ? Hb Hrest]; subst. simpl in Hb.
    destruct (decide (b = t)); [congruence | apply IH, Hrest].
Qed.

Lemma wake_joiner_none (t : nat) (q : list (nat * nat)) (s : sched) :
  Forall (fun jw => snd jw <> t) q -> wake_joiner t q s = s.
Proof.
  induction q as [|[a b] q IH]; intros Hq; simpl; [reflexivity|].
  inversion Hq as [|? ? Hb Hrest]; subst. simpl in Hb.
  destruct (decide (b = t)); [congruence | apply IH, Hrest].
Qed.

Lemma remove_waiter_first (t j : nat) (q1 q2 : list (nat * nat)) :
  Forall (fun jw => snd jw <> t) q1 ->
  remove_waiter (j, t) (q1 ++ (j, t) :: q2) = q1 ++ q2.
Proof.
  induction q1 as [|x q1 IH]; intros Hq; simpl.
  - destruct (decide ((j, t) = (j, t))); [reflexivity | congruence].
  - inversion Hq as [|? ? Hx Hrest]; subst.
    destruct (decide (x = (j, t))) as [->|_]; [simpl in Hx; congruence|].
    rewrite (IH Hrest). reflexivity.
Qed.

(** X8: the exit/join handshake goes through.  A thread [t] marked
    [THREAD_MUSTJOIN] reaches the gate of [exit_thread] while [j] is parked in
    [join_thread(t)], its waiter being the first on the join queue that wants
    [t].  The gate marks [t] joined, wakes [j] and blocks [t], and leaves the
    join queue as it is.  When [j] runs again it takes its waiter, and no
    other, off the queue and finishes [join_thread]: [t] loses
    [THREAD_MUSTJOIN], keeps [THREAD_JOINED] and is runnable.  And when [t]
    runs again its gate is open: the last step of [exit_thread] is
    enabled. *)
Theorem exit_join_handshake (s : sched) (th thj : thread) (j : nat)
    (q1 q2 : list (nat * nat)) :
  let t := current s in
  heap s !! t = Some th ->
  flag_set THREAD_MUSTJOIN th = true ->
  heap s !! j = Some thj ->
  j <> t ->
  joinwq s = q1 ++ (j, t) :: q2 ->
  Forall (fun jw => snd jw <> t) q1 ->
  let s1 := exit_gate s in
  let s2 := join_final t (join_resume t (with_current j s1)) in
  exec AExitGate s = Some s1
  /\ heap s1 !! t = Some (block_thread (flag_or THREAD_JOINED th))
  /\ heap s1 !! j = Some (wake_thread thj)
  /\ joinwq s1 = q1 ++ (j, t) :: q2
  /\ exec (AJoinWait t) (with_current j s1) = None
  /\ run [AJoinResume t; AJoinFinal t] (with_current j s1) = Some s2
  /\ joinwq (join_resume t (with_current j s1)) = q1 ++ q2
  /\ joinwq s2 = q1 ++ q2
  /\ (exists th2, heap s2 !! t = Some th2
                  /\ is_runnable th2 = true
                  /\ wakeup_time th2 = 0
                  /\ flag_set THREAD_MUSTJOIN th2 = false
                  /\ flag_set THREAD_JOINED th2 = true)
  /\ exec AExitFinal (with_current t s2) = Some (exit_final (with_current t s2)).
Proof.
  intros t Hth Hmj Hthj Hne Hq Hq1 s1 s2.
  assert (exec AExitGate s = Some s1) as Hx1.
  { cbn [exec]. fold t. rewrite Hth. cbn [mbind option_bind].
    rewrite Hmj. reflexivity. }
  assert (s1 = block t (wake j (update (flag_or THREAD_JOINED) t s))) as Hs1.
  { unfold s1, exit_gate. fold t.
    change (joinwq (update (flag_or THREAD_JOINED) t s)) with (joinwq s).
    rewrite Hq, wake_joiner_first by exact Hq1. reflexivity. }
  set (th1 := block_thread (flag_or THREAD_JOINED th)).
  assert (heap s1 !! t = Some th1) as Ht1.
  { rewrite Hs1. unfold block, wake, update. cbn [heap with_heap].
    rewrite lookup_alter_eq, lookup_alter_ne by exact Hne.
    rewrite lookup_alter_eq, Hth. reflexivity. }
  assert (heap s1 !! j = Some (wake_thread thj)) as Hj1.
  { rewrite Hs1. unfold block, wake, update. cbn [heap with_heap].
    rewrite lookup_alter_ne by congruence.
    rewrite lookup_alter_eq, lookup_alter_ne by congruence.
    rewrite Hthj. reflexivity. }
  assert (flag_set THREAD_MUSTJOIN th1 = true) as Hmj1.
  { unfold th1. rewrite flag_set_block by reflexivity.
    rewrite flag_set_or_other by reflexivity. exact Hmj. }
  assert (flag_set THREAD_JOINED th1 = true) as Hjd1.
  { unfold th1. rewrite flag_set_block by reflexivity.
    apply flag_set_or. discriminate. }
  set (th2 := wake_thread (flag_clear THREAD_MUSTJOIN th1)).
  assert (heap s2 !! t = Some th2) as Ht2.
  { unfold s2, join_final, join_resume, wake, update.
    cbn [heap with_heap with_joinwq with_current].
    rewrite !lookup_alter_eq, Ht1. reflexivity. }
  assert (flag_set THREAD_MUSTJOIN th2 = false) as Hmj2.
  { unfold th2. rewrite flag_set_wake by reflexivity.
    apply flag_set_clear. reflexivity. }
  assert (joinwq s1 = q1 ++ (j, t) :: q2) as Hq1'.
  { rewrite Hs1. exact Hq. }
  assert (joinwq (join_resume t (with_current j s1)) = q1 ++ q2) as Hq2.
  { unfold join_resume. cbn [joinwq with_joinwq with_current current].
    rewrite Hq1'. apply remove_waiter_first, Hq1. }
  clear Hs1. clearbody s1 th1.
  split; [exact Hx1|].
  split; [exact Ht1|]. split; [exact Hj1|]. split; [exact Hq1'|]. split.
  { cbn [exec heap with_current]. rewrite Ht1. cbn [mbind option_bind].
    rewrite Hmj1, Hjd1, andb_false_r. reflexivity. }
  split.
  { cbn [run exec mbind option_bind join_resume heap with_joinwq with_current].
    rewrite Ht1. cbn [mbind option_bind]. rewrite Hmj1, Hjd1. reflexivity. }
  split; [exact Hq2|]. split; [exact Hq2|].
  split.
  { exists th2. split; [exact Ht2|]. subst th2.
    split; [apply is_runnable_wake|].
    split; [reflexivity|]. split; [exact Hmj2|].
    rewrite flag_set_wake by reflexivity.
    rewrite flag_set_clear_other by reflexivity. exact Hjd1. }
  cbn [exec heap with_current current]. rewrite Ht2. cbn [mbind option_bind].
  rewrite Hmj2. reflexivity.
Qed.

(** Thread 1 runs and must be joined; thread 2 is parked in
    [join_thread(1)]. *)
Definition joining : sched :=
  mkSched (<[1%nat := mkThread "a" (Z.lor RUNNABLE_FLAG THREAD_MUSTJOIN) 0 0 0]>
             (<[2%nat := blank "b"]> ∅))
    [2%nat; 1%nat] [] [(2%nat, 1%nat)] 1%nat.

Lemma exit_join_handshake_witness :
  let s1 := exit_gate joining in
  let s2 := join_final 1%nat (join_resume 1%nat (with_current 2%nat s1)) in
  exec AExitGate joining = Some s1
  /\ heap s1 !! 2%nat = Some (wake_thread (blank "b"))
  /\ run [AJoinResume 1%nat; AJoinFinal 1%nat] (with_current 2%nat s1) = Some s2
  /\ joinwq s2 = []
  /\ exec AExitFinal (with_current 1%nat s2)
     = Some (exit_final (with_current 1%nat s2)).
Proof.
  intros s1 s2.
  destruct (exit_join_handshake joining
              (mkThread "a" (Z.lor RUNNABLE_FLAG THREAD_MUSTJOIN) 0 0 0)
              (blank "b") 2%nat [] [])
    as (H1 & _ & H3 & _ & _ & H5 & _ & H6 & _ & H7);
    [reflexivity | reflexivity | reflexivity | discriminate | reflexivity
    | constructor |].
  repeat split; assumption.
Defined.

(** ** A sleep that runs to its deadline *)

(** The thread is blocked with no deadline. *)
Definition parked (h : gmap nat thread) (u : nat) : Prop :=
  exists th, h !! u = Some th /\ is_runnable th = false /\ wakeup_time th = 0.

Lemma parked_waiting now (f : thread -> thread) (t : nat)
    (h : gmap nat thread) (l : list nat) :
  t ∉ l -> Forall (parked h) l -> all_waiting now (alter f t h) l.
Proof.
  intros Hnotin Hall. unfold all_waiting. rewrite Forall_forall in *.
  intros u Hu. destruct (Hall u Hu) as (thu & Hthu & Hrun & Hw).
  exists thu. split.
  - rewrite lookup_alter_ne; [exact Hthu|]. intros ->. exact (Hnotin Hu).
  - unfold eligible, expired. rewrite Hrun, Hw. reflexivity.
Qed.

Lemma parked_no_wakeups now (f : thread -> thread) (t : nat)
    (h : gmap nat thread) (l : list nat) :
  t ∉ l -> Forall (parked h) l -> future_wakeups now (alter f t h) l = [].
Proof.
  induction l as [|u l IH]; intros Hnotin Hall; [reflexivity|].
  apply not_elem_of_cons in Hnotin as [Hne Hnotin].
  inversion Hall as [|? ? (thu & Hthu & Hrun & Hw) Hrest]; subst.
  unfold future_wakeups in *. simpl.
  unfold future_wakeup at 1. rewrite lookup_alter_ne by congruence.
  rewrite Hthu. simpl. rewrite Hw. simpl. rewrite andb_false_r.
  apply IH; assumption.
Qed.

(** X9: a timed sleep that nobody interrupts.  The caller of [msleep] shares
    the run queue with parked threads only (blocked, no deadline); its
    deadline [w], the 64-bit sum [now + ms·10⁶] as an [s_time_t], is not 0,
    lies after the time of the first iteration of the selection loop and
    within 10 s of it; that time is an [s_time_t] more than 10 s before the
    end of its range; and no event handler wakes anyone.  Then the scheduler
    calls [block_domain] once, with exactly [w], and the next iteration, at a
    time of [w] or later, ends the sleep: [msleep] returns 1, the caller is
    at the tail of the queue, runnable, with no deadline and [timed_out]
    clear.  The deadline is [now + ms·10⁶] itself when that fits an
    [s_time_t]. *)
Theorem msleep_runs_to_its_deadline (ms now0 : Z) (s : sched) (r1 r2 : round)
    (env : list round) (pre post : list nat) (th : thread) :
  let t := current s in
  let w := to_s_time (now0 + MILLISECS ms) in
  w <> 0 ->
  - 2 ^ 63 <= r_now r1 < 2 ^ 63 - SECONDS 10 ->
  r_now r1 < w <= r_now r1 + SECONDS 10 ->
  r_woken r1 = [] ->
  w <= r_now r2 ->
  heap s !! t = Some th ->
  thread_list s = pre ++ t :: post ->
  t ∉ pre ++ post ->
  Forall (parked (heap s)) (pre ++ post) ->
  exists (s' : sched) (th' : thread),
    msleep ms now0 (r1 :: r2 :: env) s
      = Returned 1 s' [block_domain w; force_evtchn_callback]
    /\ thread_list s' = pre ++ post ++ [t]
    /\ heap s' !! t = Some th'
    /\ timed_out th' = false
    /\ is_runnable th' = true
    /\ wakeup_time th' = 0
    /\ (- 2 ^ 63 <= now0 + MILLISECS ms < 2 ^ 63 -> w = now0 + MILLISECS ms).
Proof.
  intros t w Hw0 Hclock Hr1 Hquiet Hr2 Hth HR Hnotin Hparked.
  assert ((t ∉ pre) /\ (t ∉ post)) as [Hnpre Hnpost].
  { split; intros H; apply Hnotin, elem_of_app; auto. }
  apply Forall_app in Hparked as [Hppre Hppost].
  set (h1 := alter (sleep_thread w) t (heap s)).
  assert (h1 !! t = Some (sleep_thread w th)) as Hth1.
  { unfold h1. rewrite lookup_alter_eq, Hth. reflexivity. }
  assert (is_runnable (sleep_thread w th) = false) as Hnr
    by apply is_runnable_clear.
  assert (wakeup_time (sleep_thread w th) = w) as Hwt by reflexivity.
  (* the first iteration finds nothing to run *)
  assert (eligible (r_now r1) (sleep_thread w th) = false) as Hel1.
  { unfold eligible, expired. rewrite Hnr, Hwt. simpl.
    replace (w <=? r_now r1) with false by (symmetry; apply Z.leb_gt; lia).
    apply andb_false_r. }
  assert (all_waiting (r_now r1) h1 (pre ++ t :: post)) as Hall1.
  { apply Forall_app. split; [apply parked_waiting; assumption|].
    constructor; [exists (sleep_thread w th); auto|].
    apply parked_waiting; assumption. }
  assert (future_wakeup (r_now r1) h1 t = Some w) as Hfw1.
  { unfold future_wakeup. rewrite Hth1. cbn [mbind option_bind].
    rewrite Hnr, Hwt.
    replace (w =? 0) with false by (symmetry; apply Z.eqb_neq; exact Hw0).
    replace (r_now r1 <? w) with true by (symmetry; apply Z.ltb_lt; lia).
    reflexivity. }
  assert (future_wakeups (r_now r1) h1 (pre ++ t :: post) = [w]) as Hfw.
  { unfold future_wakeups at 1. rewrite omap_app.
    fold (future_wakeups (r_now r1) h1 pre).
    change (omap (future_wakeup (r_now r1) h1) (t :: post))
      with (match future_wakeup (r_now r1) h1 t with
            | Some y => y :: future_wakeups (r_now r1) h1 post
            | None => future_wakeups (r_now r1) h1 post
            end).
    rewrite Hfw1. unfold h1.
    rewrite !parked_no_wakeups by assumption. reflexivity. }
  pose proof (scan_waiting (r_now r1) h1 (pre ++ t :: post) []
                (to_s_time (r_now r1 + SECONDS 10)) Hall1) as Hscan1.
  rewrite Hfw in Hscan1. cbn [earliest foldr app] in Hscan1.
  rewrite to_s_time_small in Hscan1 at 2 by (unfold SECONDS in *; lia).
  replace (Z.min w (r_now r1 + SECONDS 10)) with w in Hscan1 by lia.
  (* the second one takes the caller by its timeout *)
  assert (expired (r_now r2) (sleep_thread w th) = true) as Hexp
    by (apply expired_sleep; assumption).
  assert (eligible (r_now r2) (sleep_thread w th) = true) as Hel2.
  { unfold eligible. rewrite Hexp. apply orb_true_r. }
  destruct (scan_picks (r_now r2) h1 t _ post pre []
              (to_s_time (r_now r2 + SECONDS 10))
              (parked_waiting _ _ _ _ _ Hnpre Hppre) Hth1 Hel2) as [d Hscan2].
  set (th1 := treat (r_now r2) (sleep_thread w th)) in *.
  destruct (treat_expired _ _ Hexp) as (Hto & Hwk & Hrun).
  fold th1 in Hto, Hwk, Hrun.
  set (s2 := reap t (with_thread_list (pre ++ post ++ [t])
                       (with_heap (<[t := th1]> h1) (dosleep_enter w s)))).
  assert (heap s2 !! t = Some th1) as Hreap.
  { unfold s2. rewrite reap_lookup_self. simpl. apply lookup_insert_eq. }
  exists (update (flag_clear THREAD_TIMEDOUT) t s2),
         (flag_clear THREAD_TIMEDOUT th1).
  split.
  - unfold msleep, dosleep, schedule. fold w.
    change (current (dosleep_enter w s)) with t.
    simpl select. unfold pass at 1.
    change (heap (dosleep_enter w s)) with h1.
    change (thread_list (dosleep_enter w s)) with (thread_list s).
    rewrite HR, Hscan1, Hquiet.
    change (run_callbacks [] ?x) with x.
    unfold pass.
    cbn [heap thread_list with_heap with_thread_list].
    rewrite Hscan2.
    destruct (decide (t = t)) as [_|Hne]; [|congruence].
    change (dosleep_leave (current s) (reap t _)) with (dosleep_leave t s2).
    unfold dosleep_leave. rewrite Hreap.
    unfold dosleep_rv. rewrite Hto. reflexivity.
  - split; [reflexivity|]. split.
    + cbn [update heap with_heap]. rewrite lookup_alter_eq, Hreap. reflexivity.
    + split; [apply timed_out_cleared|]. split; [|split; [exact Hwk|]].
      * unfold is_runnable. rewrite flag_set_clear_other by reflexivity.
        exact Hrun.
      * intros Hfit. apply to_s_time_small, Hfit.
Qed.

Lemma msleep_runs_to_its_deadline_witness :
  exists s' th',
    msleep 100 5 [mkRound 6 []; mkRound 100000005 []] two
      = Returned 1 s' [block_domain (5 + MILLISECS 100); force_evtchn_callback]
    /\ thread_list s' = [1%nat] ++ [] ++ [2%nat]
    /\ heap s' !! 2%nat = Some th'
    /\ timed_out th' = false
    /\ is_runnable th' = true
    /\ wakeup_time th' = 0
    /\ (- 2 ^ 63 <= 5 + MILLISECS 100 < 2 ^ 63 ->
        to_s_time (5 + MILLISECS 100) = 5 + MILLISECS 100).
Proof.
  apply (msleep_runs_to_its_deadline 100 5 two (mkRound 6 [])
           (mkRound 100000005 []) [] [1%nat] [] (ready "b")).
  - vm_compute. discriminate.
  - vm_compute. split; [discriminate | reflexivity].
  - vm_compute. split; [reflexivity | discriminate].
  - reflexivity.
  - vm_compute. discriminate.
  - reflexivity.
  - reflexivity.
  - simpl. intros H. apply list_elem_of_singleton in H. discriminate.
  - repeat constructor. exists (blank "a"). repeat split; reflexivity.
Defined.

End SchedMore.

(* ===================================================================== *)
(** * More of the hypercalls, [rumphyper_base.c] *)
(* ===================================================================== *)

Module Hyper.
Import Blk.

(** ** [rumpuser_getfileinfo] *)

(** Modelled from the spec: [struct blkfront_info] is declared in
    [mini-os/blkfront.h], which is not part of the sources; the design
    document gives the size as [sectors × sector_size].  The product is
    stored through a [uint64_t *], so it is taken modulo [2^64]. *)
Definition device_size (info : blkfront_info) : Z :=
  (sectors info * sector_size info) mod 2 ^ 64.

Section FileInfo.

Context (K : consts).
Context (init_blkfront : string -> blkfront_info -> option Z * blkfront_info).
(** [RUMPUSER_FT_BLK], of [rumpuser.h]. *)
Context (RUMPUSER_FT_BLK : Z).

(** The result is the return value, the values stored to [*size] and [*type]
    if any, and the state. *)
Definition rumpuser_getfileinfo (name : string) (st : blk)
    : Z * option (Z * Z) * blk :=
  let num := devname2num name in
  if num =? -1 then (ENXIO K, None, st)
  else
    let '(rv, st1) := devopen K init_blkfront num st in
    if negb (rv =? 0) then (rv, None, st1)
    else
      let size := device_size (slot (blkinfos st1) num) in
      let st2 := snd (rumpuser_close K (num + BLKFDOFF) st1) in
      (0, Some (size, RUMPUSER_FT_BLK), st2).

End FileInfo.

(** ** [rumpuser_getparam] *)

(** [strcmp], on strings that end at their first NUL. *)
Fixpoint strcmp (a b : string) : Z :=
  let ca := uchar (head_byte a) in
  let cb := uchar (head_byte b) in
  if ca =? cb then
    if ca =? 0 then 0
    else match a with
         | EmptyString => 0
         | String _ r => strcmp r (tail_bytes b)
         end
  else ca - cb.

(** The loop over a table of (name, value) entries that ends at the entry
    with a [NULL] name.  The result is the return value and what [strcpy]
    has put into [buf], if anything. *)
Fixpoint getparam_in (E2BIG ENOENT : Z) (tab : list (string * string))
    (name : string) (blen : Z) : Z * option string :=
  match tab with
  | [] => (ENOENT, None)
  | (n, value) :: tab' =>
      if strcmp name n =? 0 then
        if blen <? strlen value + 1 then (E2BIG, None)
        else (0, Some value)
      else getparam_in E2BIG ENOENT tab' name blen
  end.

(** [envtab].  [RUMPUSER_PARAM_NCPU] and [RUMPUSER_PARAM_HOSTNAME] are
    string macros of [rumpuser.h], which is not part of the sources. *)
Definition envtab (RUMPUSER_PARAM_NCPU RUMPUSER_PARAM_HOSTNAME : string)
    : list (string * string) :=
  [ (RUMPUSER_PARAM_NCPU, "1");
    (RUMPUSER_PARAM_HOSTNAME, "rump4xen");
    ("RUMP_VERBOSE", "1");
    ("RUMP_MEMLIMIT", "8m") ]%string.

Definition rumpuser_getparam (E2BIG ENOENT : Z)
    (RUMPUSER_PARAM_NCPU RUMPUSER_PARAM_HOSTNAME : string)
    (name : string) (blen : Z) : Z * option string :=
  getparam_in E2BIG ENOENT
    (envtab RUMPUSER_PARAM_NCPU RUMPUSER_PARAM_HOSTNAME) name blen.

(** ** The clock *)

(** Conversion to [unsigned long long] and back to a signed 64-bit value. *)
Definition to_u64 (z : Z) : Z := z mod 2 ^ 64.
Definition to_s64 (z : Z) : Z :=
  let u := z mod 2 ^ 64 in if u <? 2 ^ 63 then u else u - 2 ^ 64.

(** [rumpuser_clock_gettime]: [now] is the value of [NOW()]; the result is
    [*sec] and [*nsec] (the return value is always 0).  The divisions are
    by an [unsigned long long] constant. *)
Definition rumpuser_clock_gettime (now : Z) : Z * Z :=
  (to_s64 (to_u64 now / 1000000000), to_u64 now mod 1000000000).

(** The deadline that [rumpuser_clock_sleep] stores for
    [RUMPUSER_CLOCK_ABSMONO]: [sec * (1000*1000*1000ULL) + nsec], computed
    in [unsigned long long] and stored in an [s_time_t]. *)
Definition absmono_wakeup (sec nsec : Z) : Z :=
  to_s64 (to_u64 sec * 1000000000 + to_u64 nsec).

(** The argument that [rumpuser_clock_sleep] passes to [msleep] for
    [RUMPUSER_CLOCK_RELWALL]: [sec * 1000 + nsec / (1000*1000UL)] stored in a
    [uint32_t], for [sec] and [nsec] that are not negative. *)
Definition relwall_msec (sec nsec : Z) : Z :=
  (sec * 1000 + nsec / 1000000) mod 2 ^ 32.

(** [rumpuser_clock_sleep], by the clock asked for.  [rumpkern_unsched] and
    [rumpkern_sched] around the sleep belong to the rump kernel and do not
    touch the state modelled here; the return value is always 0. *)
Definition clock_sleep_relwall (sec nsec now : Z) (env : list Sched.round)
    (s : Sched.sched) : Sched.sleep_result :=
  Sched.msleep (relwall_msec sec nsec) now env s.


End Hyper.

Module HyperFacts.
Import Blk BlkFacts Hyper.

(** ** Arrays of slots *)

Lemma slot_set_eq {A} `{Inhabited A} (a : list A) (i : Z) (v : A) :
  (Z.to_nat i < length a)%nat -> slot (set_slot a i v) i = v.
Proof. intros Hi. unfold slot, set_slot. apply list_lookup_total_insert_eq, Hi. Qed.

Lemma slot_set_ne {A} `{Inhabited A} (a : list A) (i j : Z) (v : A) :
  0 <= i -> 0 <= j -> i <> j -> slot (set_slot a i v) j = slot a j.
Proof.
  intros Hi Hj Hne. unfold slot, set_slot.
  apply list_lookup_total_insert_ne. lia.
Qed.

Lemma set_slot_twice {A} (a : list A) (i : Z) (v w : A) :
  set_slot (set_slot a i v) i w = set_slot a i w.
Proof. unfold set_slot. apply list_insert_insert_eq. Qed.

Lemma set_slot_same {A} `{Inhabited A} (a : list A) (i : Z) :
  (Z.to_nat i < length a)%nat -> set_slot a i (slot a i) = a.
Proof.
  intros Hi. unfold set_slot, slot. apply list_insert_id.
  apply list_lookup_lookup_total_lt, Hi.
Qed.

Lemma length_set_slot {A} (a : list A) (i : Z) (v : A) :
  length (set_slot a i v) = length a.
Proof. unfold set_slot. apply length_insert. Qed.

(** The three arrays have [NBLKDEV] entries. *)
Definition arrays_ok (st : blk) : Prop :=
  length (blkdevs st) = 10%nat
  /\ length (blkinfos st) = 10%nat
  /\ length (blkopen st) = 10%nat.

Section Devices.

Context (K : consts).
Context (init_blkfront : string -> blkfront_info -> option Z * blkfront_info).

(** The path that [devopen] asks the backend for. *)
Definition vbd_path (num : Z) : string :=
  "device/vbd/" +:+ pretty (768 + Z.shiftl num 6).

Lemma devopen_open (num : Z) (st : blk) :
  slot (blkopen st) num <> 0 ->
  devopen K init_blkfront num st
  = (1, mkBlk (blkdevs st) (blkinfos st)
          (set_slot (blkopen st) num (slot (blkopen st) num + 1)) (calls st)).
Proof.
  intros Hc. unfold devopen. apply Z.eqb_neq in Hc. rewrite Hc. reflexivity.
Qed.

Lemma devopen_closed (num : Z) (st : blk) :
  slot (blkopen st) num = 0 ->
  devopen K init_blkfront num st
  = let '(dev, info) := init_blkfront (vbd_path num) (slot (blkinfos st) num) in
    let devs := set_slot (blkdevs st) num dev in
    let infos := set_slot (blkinfos st) num info in
    let log := calls st ++ [init_blkfront_call (vbd_path num)] in
    match dev with
    | Some _ => (0, mkBlk devs infos (set_slot (blkopen st) num 1) log)
    | None => (EIO K, mkBlk devs infos (blkopen st) log)
    end.
Proof. intros Hc. unfold devopen. rewrite Hc. reflexivity. Qed.

Lemma close_in_range (n : Z) (st : blk) :
  0 <= n < NBLKDEV ->
  rumpuser_close K (BLKFDOFF + n) st
  = let c := slot (blkopen st) n - 1 in
    let opens := set_slot (blkopen st) n c in
    if c =? 0 then
      (0, mkBlk (set_slot (blkdevs st) n None) (blkinfos st) opens
            (calls st ++ [shutdown_blkfront (slot (blkdevs st) n)
                            (set_slot (blkdevs st) n None)]))
    else (0, mkBlk (blkdevs st) (blkinfos st) opens (calls st)).
Proof.
  unfold NBLKDEV. intros Hn. unfold rumpuser_close.
  replace (BLKFDOFF + n - BLKFDOFF) with n by lia.
  replace (n <? 0) with false by (symmetry; apply Z.ltb_ge; lia).
  replace (n + 1 >? NBLKDEV) with false
    by (symmetry; unfold NBLKDEV; rewrite Z.gtb_ltb; apply Z.ltb_ge; lia).
  reflexivity.
Qed.

(** X10: a successful [rumpuser_open] followed by [rumpuser_close] of the
    descriptor it stored is a round trip.  The descriptor is [64 + n] for the
    slot [n] of the name; the open found the slot closed and made the one
    call of [init_blkfront] for it; the close returns 0, puts the open counts
    back exactly as they were, leaves [NULL] in the slot, and makes the one
    call of [shutdown_blkfront], on the handle the backend had returned. *)
Theorem open_close_round_trip (name : string) (mode_ : Z) (st st1 : blk)
    (fd : Z) :
  arrays_ok st ->
  EIO K <> 0 ->
  rumpuser_open K init_blkfront name mode_ st = (0, Some fd, st1) ->
  let n := devname2num name in
  0 <= n < NBLKDEV
  /\ fd = BLKFDOFF + n
  /\ slot (blkopen st) n = 0
  /\ exists (d : Z) (info : blkfront_info),
       init_blkfront (vbd_path n) (slot (blkinfos st) n) = (Some d, info)
       /\ slot (blkopen st1) n = 1
       /\ slot (blkdevs st1) n = Some d
       /\ rumpuser_close K fd st1
          = (0, mkBlk (set_slot (blkdevs st) n None)
                  (set_slot (blkinfos st) n info)
                  (blkopen st)
                  (calls st ++ [init_blkfront_call (vbd_path n);
                                shutdown_blkfront (Some d)
                                  (set_slot (blkdevs st) n None)])).
Proof.
  intros (Hlen_d & Hlen_i & Hlen_o) Heio Hopen n.
  unfold rumpuser_open in Hopen. fold n in Hopen.
  destruct (Z.land mode_ (RUMPUSER_OPEN_BIO K) =? 0); simpl in Hopen;
    [congruence|].
  destruct (n =? -1) eqn:Hnum; simpl in Hopen; [congruence|].
  apply Z.eqb_neq in Hnum.
  destruct (devname2num_valid name Hnum) as [Hrange _]. fold n in Hrange.
  assert (Z.to_nat n < 10)%nat as Hidx by (unfold NBLKDEV in Hrange; lia).
  destruct (decide (slot (blkopen st) n = 0)) as [Hc|Hc].
  2:{ rewrite devopen_open in Hopen by exact Hc. simpl in Hopen. congruence. }
  rewrite devopen_closed in Hopen by exact Hc.
  destruct (init_blkfront (vbd_path n) (slot (blkinfos st) n))
    as [[d|] info] eqn:Hinit.
  2:{ apply Z.eqb_neq in Heio. cbn beta iota zeta in Hopen.
      rewrite Heio in Hopen. simpl in Hopen. congruence. }
  simpl in Hopen.
  destruct (_ && _) in Hopen; [congruence|].
  injection Hopen as <- <-.
  split; [exact Hrange|]. split; [reflexivity|]. split; [exact Hc|].
  exists d, info. split; [reflexivity|]. simpl.
  split; [apply slot_set_eq; lia|]. split; [apply slot_set_eq; lia|].
  rewrite close_in_range by exact Hrange. simpl.
  rewrite slot_set_eq by lia. simpl.
  rewrite !set_slot_twice, slot_set_eq by lia.
  replace (1 - 1) with (slot (blkopen st) n) by (rewrite Hc; reflexivity).
  rewrite set_slot_same by lia.
  rewrite <- app_assoc. reflexivity.
Qed.

(** X11: [rumpuser_open] and [rumpuser_close] touch one slot only.  For any
    slot [m] other than the one the name or the descriptor stands for, the
    open count, the handle and the device info of [m] are after the call
    what they were before, whatever the call returns. *)
Theorem other_slots_untouched (name : string) (mode_ fd : Z) (st : blk) (m : Z) :
  0 <= m ->
  let same (st' : blk) :=
    slot (blkopen st') m = slot (blkopen st) m
    /\ slot (blkdevs st') m = slot (blkdevs st) m
    /\ slot (blkinfos st') m = slot (blkinfos st) m in
  (m <> devname2num name ->
     same (snd (rumpuser_open K init_blkfront name mode_ st)))
  /\ (m <> fd - BLKFDOFF -> same (snd (rumpuser_close K fd st))).
Proof.
  intros Hm same. split.
  - intros Hne. unfold rumpuser_open.
    destruct (Z.land mode_ (RUMPUSER_OPEN_BIO K) =? 0); simpl;
      [repeat split|].
    destruct (devname2num name =? -1) eqn:Hnum; simpl; [repeat split|].
    apply Z.eqb_neq in Hnum.
    destruct (devname2num_valid name Hnum) as [[Hn0 _] _].
    assert (same (snd (devopen K init_blkfront (devname2num name) st))) as Hdev.
    { unfold devopen.
      destruct (negb _); simpl.
      - repeat split. apply slot_set_ne; lia.
      - destruct (init_blkfront _ _) as [[d|] info]; simpl;
          repeat split; apply slot_set_ne; lia. }
    destruct (devopen K init_blkfront (devname2num name) st) as [rv st1].
    simpl in Hdev.
    destruct (negb (rv =? 0)); simpl; [exact Hdev|].
    destruct (_ && _); exact Hdev.
  - intros Hne. unfold rumpuser_close.
    destruct (fd - BLKFDOFF <? 0) eqn:Hlo; simpl; [repeat split|].
    apply Z.ltb_ge in Hlo.
    destruct (fd - BLKFDOFF + 1 >? NBLKDEV); simpl; [repeat split|].
    destruct (_ =? 0); simpl; repeat split; apply slot_set_ne; lia.
Qed.

(** ** Reference counting *)

(** [k] calls of [devopen] on the slot [n], and [k] calls of
    [rumpuser_close] on its descriptor. *)
Definition bumps (k : nat) (n : Z) (st : blk) : blk :=
  Nat.iter k (fun st => snd (devopen K init_blkfront n st)) st.
Definition closes (k : nat) (n : Z) (st : blk) : blk :=
  Nat.iter k (fun st => snd (rumpuser_close K (BLKFDOFF + n) st)) st.

Lemma bump_then_close (n : Z) (st : blk) :
  arrays_ok st -> 0 <= n < NBLKDEV -> 1 <= slot (blkopen st) n ->
  snd (rumpuser_close K (BLKFDOFF + n) (snd (devopen K init_blkfront n st))) = st.
Proof.
  intros (_ & _ & Hlen) Hn Hc. unfold NBLKDEV in Hn.
  rewrite devopen_open by lia. simpl.
  rewrite close_in_range by exact Hn. simpl.
  rewrite slot_set_eq by lia.
  replace (slot (blkopen st) n + 1 - 1 =? 0) with false
    by (symmetry; apply Z.eqb_neq; lia).
  simpl. rewrite set_slot_twice.
  replace (slot (blkopen st) n + 1 - 1) with (slot (blkopen st) n) by lia.
  rewrite set_slot_same by lia. destruct st; reflexivity.
Qed.

Lemma bumps_state (k : nat) (n : Z) (st : blk) :
  arrays_ok st -> 0 <= n < NBLKDEV -> 1 <= slot (blkopen st) n ->
  arrays_ok (bumps k n st)
  /\ slot (blkopen (bumps k n st)) n = slot (blkopen st) n + Z.of_nat k
  /\ blkdevs (bumps k n st) = blkdevs st
  /\ blkinfos (bumps k n st) = blkinfos st
  /\ calls (bumps k n st) = calls st.
Proof.
  intros Hok Hn Hc. unfold NBLKDEV in Hn.
  induction k as [|k (Hok' & Hcount & Hd & Hi & Hcalls)].
  - simpl. repeat split; try apply Hok. lia.
  - unfold bumps in *. rewrite Nat.iter_succ.
    set (st' := Nat.iter k _ st) in *.
    rewrite devopen_open by lia. simpl.
    destruct Hok' as (H1 & H2 & H3).
    repeat split; try assumption.
    + cbn [blkopen]. rewrite length_set_slot. exact H3.
    + rewrite slot_set_eq by lia. lia.
Qed.

(** X12: reference counting balances.  On a slot that is open (count at
    least 1), [k] further opens followed by [k] closes give back the very
    state they started from; the opens raise the count by [k] and neither
    they nor the closes call the backend. *)
Theorem bumps_and_closes_balance (k : nat) (n : Z) (st : blk) :
  arrays_ok st ->
  0 <= n < NBLKDEV ->
  1 <= slot (blkopen st) n ->
  closes k n (bumps k n st) = st
  /\ slot (blkopen (bumps k n st)) n = slot (blkopen st) n + Z.of_nat k
  /\ calls (bumps k n st) = calls st.
Proof.
  intros Hok Hn Hc.
  destruct (bumps_state k n st Hok Hn Hc) as (_ & Hcount & _ & _ & Hcalls).
  split; [|split; assumption].
  clear Hcount Hcalls. induction k as [|k IH]; [reflexivity|].
  unfold closes. rewrite Nat.iter_succ_r. fold (closes k n).
  unfold bumps at 1. rewrite Nat.iter_succ. fold (bumps k n st).
  destruct (bumps_state k n st Hok Hn Hc) as (Hok' & Hcount & _).
  rewrite bump_then_close; [exact IH | exact Hok' | exact Hn | lia].
Qed.

End Devices.

Lemma arrays_ok_init : arrays_ok blk_init.
Proof. repeat split. Qed.

Lemma open_close_round_trip_witness :
  exists st1 d info,
    rumpuser_open netbsd (backend true) "blk3" 0x12 blk_init = (0, Some 67, st1)
    /\ backend true (vbd_path 3) (slot (blkinfos blk_init) 3) = (Some d, info)
    /\ rumpuser_close netbsd 67 st1
       = (0, mkBlk (set_slot (blkdevs blk_init) 3 None)
               (set_slot (blkinfos blk_init) 3 info)
               (blkopen blk_init)
               [init_blkfront_call (vbd_path 3);
                shutdown_blkfront (Some d) (set_slot (blkdevs blk_init) 3 None)]).
Proof.
  eexists.
  destruct (open_close_round_trip netbsd (backend true) "blk3" 0x12 blk_init
              _ 67 arrays_ok_init ltac:(discriminate) open_blk3)
    as (_ & _ & _ & d & info & Hinit & _ & _ & Hclose).
  exists d, info. split; [exact open_blk3|]. split; [exact Hinit|].
  exact Hclose.
Defined.

Lemma other_slots_untouched_witness :
  slot (blkopen (snd (rumpuser_open netbsd (backend true) "blk3" 0x12 blk_init))) 4
  = slot (blkopen blk_init) 4
  /\ slot (blkopen (snd (rumpuser_close netbsd 67 blk_init))) 4
     = slot (blkopen blk_init) 4.
Proof.
  destruct (other_slots_untouched netbsd (backend true) "blk3" 0x12 67
              blk_init 4 ltac:(lia)) as [Hopen Hclose].
  split; [apply Hopen | apply Hclose]; vm_compute; discriminate.
Defined.

Lemma bumps_and_closes_balance_witness :
  let st := snd (rumpuser_open netbsd (backend true) "blk3" 0x12 blk_init) in
  closes netbsd 5 3 (bumps netbsd (backend true) 5 3 st) = st
  /\ slot (blkopen (bumps netbsd (backend true) 5 3 st)) 3 = 6
  /\ calls (bumps netbsd (backend true) 5 3 st) = calls st.
Proof.
  intros st.
  destruct (bumps_and_closes_balance netbsd (backend true) 5 3 st)
    as (H1 & H2 & H3).
  - repeat split.
  - unfold NBLKDEV. lia.
  - vm_compute. discriminate.
  - split; [exact H1|]. split; [exact H2 | exact H3].
Defined.

(** ** [rumpuser_getfileinfo] *)

(** X13: what [rumpuser_getfileinfo] leaves behind.  A name that is not a
    block device gives [ENXIO] and no change (no block-I/O flag is asked
    for).  On a closed device that the backend opens, the call returns 0 with
    the size [sectors × sector_size] and the block type, and has closed the
    device again: the open counts are as before, the slot holds [NULL], and
    the backend saw one [init_blkfront] and one [shutdown_blkfront].  On a
    device that is already open, [devopen] answers 1 and the call returns
    that 1 with nothing stored, the open count raised by one and never
    lowered again. *)
Theorem getfileinfo_opens_and_closes (K : consts)
    (init_blkfront : string -> blkfront_info -> option Z * blkfront_info)
    (FT : Z) (name : string) (st : blk) :
  arrays_ok st ->
  let n := devname2num name in
  let res := rumpuser_getfileinfo K init_blkfront FT name st in
  (n = -1 -> res = (ENXIO K, None, st))
  /\ (forall d info,
        n <> -1 ->
        slot (blkopen st) n = 0 ->
        init_blkfront (vbd_path n) (slot (blkinfos st) n) = (Some d, info) ->
        res = (0, Some (device_size info, FT),
               mkBlk (set_slot (blkdevs st) n None)
                 (set_slot (blkinfos st) n info)
                 (blkopen st)
                 (calls st ++ [init_blkfront_call (vbd_path n);
                               shutdown_blkfront (Some d)
                                 (set_slot (blkdevs st) n None)])))
  /\ (n <> -1 ->
      slot (blkopen st) n <> 0 ->
      res = (1, None,
             mkBlk (blkdevs st) (blkinfos st)
               (set_slot (blkopen st) n (slot (blkopen st) n + 1))
               (calls st)))
  /\ (forall info,
        n <> -1 ->
        slot (blkopen st) n = 0 ->
        EIO K <> 0 ->
        init_blkfront (vbd_path n) (slot (blkinfos st) n) = (None, info) ->
        fst res = (EIO K, None) /\ blkopen (snd res) = blkopen st).
Proof.
  intros (Hlen_d & Hlen_i & Hlen_o) n res. subst res.
  unfold rumpuser_getfileinfo. fold n.
  split; [intros ->; reflexivity|].
  split; [|split].
  - intros d info Hn Hc Hinit.
    destruct (devname2num_valid name Hn) as [Hrange _]. fold n in Hrange.
    assert (Z.to_nat n < 10)%nat by (unfold NBLKDEV in Hrange; lia).
    apply Z.eqb_neq in Hn. rewrite Hn.
    rewrite devopen_closed, Hinit by exact Hc. simpl.
    replace (n + BLKFDOFF) with (BLKFDOFF + n) by lia.
    rewrite close_in_range by exact Hrange. simpl.
    rewrite !slot_set_eq by lia. simpl.
    rewrite !set_slot_twice.
    replace (1 - 1) with (slot (blkopen st) n) by (rewrite Hc; reflexivity).
    rewrite set_slot_same by lia.
    rewrite <- app_assoc. reflexivity.
  - intros Hn Hc. apply Z.eqb_neq in Hn. rewrite Hn.
    rewrite devopen_open by exact Hc. reflexivity.
  - intros info Hn Hc Heio Hinit.
    apply Z.eqb_neq in Hn, Heio. rewrite Hn.
    rewrite devopen_closed, Hinit by exact Hc. cbn beta iota zeta.
    rewrite Heio. split; reflexivity.
Qed.

Lemma getfileinfo_opens_and_closes_witness :
  rumpuser_getfileinfo netbsd (backend true) 2 "blk3" blk_init
  = (0, Some (2048 * 512, 2),
     mkBlk (blkdevs blk_init)
       (set_slot (blkinfos blk_init) 3 (mkInfo 2048 512 2))
       (blkopen blk_init)
       [init_blkfront_call "device/vbd/960";
        shutdown_blkfront (Some 4096) (blkdevs blk_init)]).
Proof.
  destruct (getfileinfo_opens_and_closes netbsd (backend true) 2 "blk3"
              blk_init arrays_ok_init) as (_ & Hok & _).
  rewrite (Hok 4096 (mkInfo 2048 512 2)).
  - vm_compute. reflexivity.
  - vm_compute. discriminate.
  - reflexivity.
  - reflexivity.
Defined.

(** ** [rumpuser_getparam] *)

Lemma c_str_head_nul (b : string) :
  uchar (head_byte b) = 0 -> c_str b = EmptyString.
Proof.
  destruct b as [|c r]; simpl; [reflexivity|].
  intros ->. reflexivity.
Qed.

Lemma c_str_head_not_nul (b : string) :
  uchar (head_byte b) <> 0 ->
  c_str b = String (head_byte b) (c_str (tail_bytes b)).
Proof.
  destruct b as [|c r]; simpl; [intros H; exfalso; apply H; reflexivity|].
  intros H. apply Z.eqb_neq in H. rewrite H. reflexivity.
Qed.

Lemma strcmp_cons (c : ascii) (r b : string) :
  strcmp (String c r) b
  = if uchar c =? uchar (head_byte b) then
      if uchar c =? 0 then 0 else strcmp r (tail_bytes b)
    else uchar c - uchar (head_byte b).
Proof. reflexivity. Qed.

Lemma strcmp_nil (b : string) :
  strcmp EmptyString b
  = if 0 =? uchar (head_byte b) then 0 else 0 - uchar (head_byte b).
Proof.
  unfold strcmp. change (uchar (head_byte EmptyString)) with 0.
  destruct (0 =? uchar (head_byte b)); reflexivity.
Qed.

(** [strcmp] is 0 exactly on equal C strings. *)
Lemma strcmp_eq (a : string) :
  forall b, strcmp a b = 0 <-> c_str a = c_str b.
Proof.
  induction a as [|c r IH]; intros b.
  - rewrite strcmp_nil. simpl c_str.
    destruct (0 =? uchar (head_byte b)) eqn:E.
    + apply Z.eqb_eq in E. rewrite (c_str_head_nul b) by lia. tauto.
    + apply Z.eqb_neq in E. rewrite (c_str_head_not_nul b) by lia.
      split; [lia | discriminate].
  - rewrite strcmp_cons. simpl c_str.
    destruct (uchar c =? uchar (head_byte b)) eqn:E.
    + apply Z.eqb_eq in E.
      destruct (uchar c =? 0) eqn:E0.
      * apply Z.eqb_eq in E0. rewrite (c_str_head_nul b) by lia. tauto.
      * apply Z.eqb_neq in E0. rewrite (c_str_head_not_nul b) by lia.
        rewrite IH. apply uchar_inj in E. rewrite <- E.
        split; [intros ->; reflexivity | intros [= ->]; reflexivity].
    + apply Z.eqb_neq in E.
      destruct (uchar c =? 0) eqn:E0.
      * apply Z.eqb_eq in E0. rewrite (c_str_head_not_nul b) by lia.
        split; [lia | discriminate].
      * split; [lia|]. intros H. exfalso. apply E.
        destruct (Z.eq_dec (uchar (head_byte b)) 0) as [Hb|Hb].
        -- rewrite (c_str_head_nul b) in H by exact Hb. discriminate.
        -- rewrite (c_str_head_not_nul b) in H by exact Hb.
           injection H as -> _. reflexivity.
Qed.

(** No entry of [tab] has the name [name]. *)
Definition no_entry (tab : list (string * string)) (name : string) : Prop :=
  Forall (fun e => c_str (fst e) <> c_str name) tab.

Lemma getparam_in_cases (E2BIG ENOENT : Z) (tab : list (string * string))
    (name : string) (blen : Z) :
  (no_entry tab name
   /\ getparam_in E2BIG ENOENT tab name blen = (ENOENT, None))
  \/ (exists pre n value post,
        tab = pre ++ (n, value) :: post
        /\ no_entry pre name
        /\ c_str n = c_str name
        /\ getparam_in E2BIG ENOENT tab name blen
           = if blen <? strlen value + 1 then (E2BIG, None)
             else (0, Some value)).
Proof.
  induction tab as [|[n value] tab IH]; simpl.
  - left. split; [constructor | reflexivity].
  - destruct (strcmp name n =? 0) eqn:E.
    + apply Z.eqb_eq, strcmp_eq in E.
      right. exists [], n, value, tab.
      split; [reflexivity|]. split; [constructor|]. split; [congruence|].
      reflexivity.
    + apply Z.eqb_neq in E. rewrite strcmp_eq in E.
      destruct IH as [[Hno ->]|(pre & n' & v' & post & -> & Hno & Hn & ->)].
      * left. split; [|reflexivity]. constructor; [simpl; congruence | exact Hno].
      * right. exists ((n, value) :: pre), n', v', post.
        split; [reflexivity|]. split; [|split; [exact Hn | reflexivity]].
        constructor; [simpl; congruence | exact Hno].
Qed.

(** X14: [rumpuser_getparam] answers from the first entry of [envtab] whose
    name is the name asked for, compared as C strings: it returns 0 and
    copies the value when the buffer has room for the value and its NUL,
    [E2BIG] with nothing copied when it has not, and [ENOENT] when there is
    no such entry.  So it never copies more than [blen] bytes, and no call
    with a buffer of fewer than 2 bytes copies anything. *)
Theorem getparam_first_match (E2BIG ENOENT : Z) (ncpu hostname : string)
    (name : string) (blen : Z) :
  let tab := envtab ncpu hostname in
  let res := rumpuser_getparam E2BIG ENOENT ncpu hostname name blen in
  ((no_entry tab name /\ res = (ENOENT, None))
   \/ (exists pre n value post,
         tab = pre ++ (n, value) :: post
         /\ no_entry pre name
         /\ c_str n = c_str name
         /\ res = if blen <? strlen value + 1 then (E2BIG, None)
                  else (0, Some value)))
  /\ (forall value, snd res = Some value ->
        fst res = 0 /\ strlen value + 1 <= blen /\ 2 <= blen).
Proof.
  intros tab res. subst res. unfold rumpuser_getparam. fold tab.
  pose proof (getparam_in_cases E2BIG ENOENT tab name blen) as Hcases.
  split; [exact Hcases|].
  intros value Hbuf.
  destruct Hcases as [[_ Hres]|(pre & n & v & post & Htab & _ & _ & Hres)].
  { rewrite Hres in Hbuf. discriminate. }
  rewrite Hres in *.
  destruct (blen <? strlen v + 1) eqn:Hlt; simpl in Hbuf; [discriminate|].
  injection Hbuf as ->. apply Z.ltb_ge in Hlt.
  split; [reflexivity|]. split; [exact Hlt|].
  assert (In (n, value) tab) as Hin.
  { rewrite Htab. apply in_or_app. right. left. reflexivity. }
  assert (1 <= strlen value); [|lia].
  unfold tab, envtab in Hin. simpl in Hin.
  destruct Hin as [[= _ <-]|[[= _ <-]|[[= _ <-]|[[= _ <-]|[]]]]];
    vm_compute; discriminate.
Qed.

(** ** The clock *)

Lemma to_u64_small (z : Z) : 0 <= z < 2 ^ 64 -> to_u64 z = z.
Proof. intros H. unfold to_u64. apply Z.mod_small, H. Qed.

Lemma to_s64_small (z : Z) : 0 <= z < 2 ^ 63 -> to_s64 z = z.
Proof.
  intros H. unfold to_s64.
  rewrite Z.mod_small by lia.
  replace (z <? 2 ^ 63) with true by (symmetry; apply Z.ltb_lt; lia).
  reflexivity.
Qed.

(** X15: the two clock hypercalls agree.  For a clock reading [now] in
    [0, 2^63), [rumpuser_clock_gettime] stores [now / 10⁹] seconds and
    [now mod 10⁹] nanoseconds, with [0 <= nsec < 10⁹]; and the deadline that
    [rumpuser_clock_sleep] computes from these two values for the absolute
    clock is [now] again. *)
Theorem clock_gettime_round_trip (now : Z) :
  0 <= now < 2 ^ 63 ->
  let sec := fst (rumpuser_clock_gettime now) in
  let nsec := snd (rumpuser_clock_gettime now) in
  sec = now / 1000000000
  /\ nsec = now mod 1000000000
  /\ 0 <= sec
  /\ 0 <= nsec < 1000000000
  /\ absmono_wakeup sec nsec = now.
Proof.
  intros Hnow sec nsec. subst sec nsec. unfold rumpuser_clock_gettime. simpl.
  rewrite to_u64_small by lia.
  pose proof (Z.div_mod now 1000000000 ltac:(lia)) as Hdm.
  pose proof (Z.mod_pos_bound now 1000000000 ltac:(lia)) as Hmod.
  assert (0 <= now / 1000000000) as Hdiv by (apply Z.div_pos; lia).
  assert (now / 1000000000 < 2 ^ 63) as Hdiv'.
  { apply Z.div_lt_upper_bound; lia. }
  rewrite to_s64_small by lia.
  repeat split; try lia.
  unfold absmono_wakeup. rewrite !to_u64_small by lia.
  rewrite to_s64_small by lia. lia.
Qed.

Lemma clock_gettime_round_trip_witness :
  fst (rumpuser_clock_gettime 12345678901) = 12
  /\ snd (rumpuser_clock_gettime 12345678901) = 345678901
  /\ absmono_wakeup 12 345678901 = 12345678901.
Proof.
  destruct (clock_gettime_round_trip 12345678901 ltac:(lia))
    as (H1 & H2 & _ & _ & H5).
  split; [exact H1|]. split; [exact H2 | exact H5].
Defined.

(** X16: the relative sleep is the request in whole milliseconds.  For
    [sec >= 0] and [0 <= nsec], the argument that [rumpuser_clock_sleep]
    passes to [msleep] is the requested time [sec·10⁹ + nsec] divided by
    [10⁶], modulo [2^32]; so as long as the request is under [2^32] ms the
    sleep is never longer than asked and is short by less than a millisecond
    (a request under one millisecond is [msleep(0)]), and a request of
    [2^32] ms or more wraps around.  The deadline of that sleep is the 64-bit
    sum [now + msec·10⁶] as an [s_time_t], which is the sum itself when it
    fits. *)
Theorem relwall_whole_milliseconds (sec nsec : Z) :
  0 <= sec ->
  0 <= nsec ->
  let msec := relwall_msec sec nsec in
  let request := sec * 1000000000 + nsec in
  msec = (request / 1000000) mod 2 ^ 32
  /\ 0 <= msec < 2 ^ 32
  /\ (request < 2 ^ 32 * 1000000 ->
        Sched.MILLISECS msec <= request < Sched.MILLISECS msec + 1000000)
  /\ (request < 1000000 -> msec = 0)
  /\ (forall now env s,
        clock_sleep_relwall sec nsec now env s
        = Sched.dosleep (Sched.to_s_time (now + Sched.MILLISECS msec)) env s)
  /\ (forall now env s,
        - 2 ^ 63 <= now + Sched.MILLISECS msec < 2 ^ 63 ->
        clock_sleep_relwall sec nsec now env s
        = Sched.dosleep (now + Sched.MILLISECS msec) env s).
Proof.
  intros Hsec Hnsec msec request.
  assert (request / 1000000 = sec * 1000 + nsec / 1000000) as Hreq.
  { unfold request.
    replace (sec * 1000000000 + nsec) with (sec * 1000 * 1000000 + nsec) by lia.
    rewrite Z.div_add_l by lia. reflexivity. }
  assert (msec = (request / 1000000) mod 2 ^ 32) as Hmsec.
  { rewrite Hreq. reflexivity. }
  split; [exact Hmsec|]. split; [apply Z.mod_pos_bound; lia|].
  assert (0 <= request) as Hr0 by (unfold request; lia).
  pose proof (Z.div_mod request 1000000 ltac:(lia)) as Hdm.
  pose proof (Z.mod_pos_bound request 1000000 ltac:(lia)) as Hmod.
  split; [|split; [|split]].
  - intros Hsmall. rewrite Hmsec, Z.mod_small.
    + unfold Sched.MILLISECS. lia.
    + split; [apply Z.div_pos; lia|].
      apply Z.div_lt_upper_bound; lia.
  - intros Hsub. rewrite Hmsec, Z.div_small by lia. reflexivity.
  - intros now env s. reflexivity.
  - intros now env s Hfit. unfold clock_sleep_relwall, Sched.msleep.
    fold msec. rewrite SchedFacts.to_s_time_small by exact Hfit. reflexivity.
Qed.

Lemma relwall_whole_milliseconds_witness :
  relwall_msec 1 999999999 = 1999
  /\ (Sched.MILLISECS 1999 <= 1 * 1000000000 + 999999999
      < Sched.MILLISECS 1999 + 1000000)
  /\ relwall_msec 4294967 296000000 = 0.
Proof.
  destruct (relwall_whole_milliseconds 1 999999999 ltac:(lia) ltac:(lia))
    as (_ & _ & H3 & _).
  split; [reflexivity|]. split; [|reflexivity].
  apply H3. vm_compute. reflexivity.
Defined.

(** ** A request and its completion *)

Lemma bump_in_range (num d : Z) (a : list Z) :
  0 <= num < NBLKDEV ->
  bump num d a = Some (set_slot a num (slot a num + d)).
Proof.
  unfold NBLKDEV. intros Hn. unfold bump.
  replace (0 <=? num) with true by (symmetry; apply Z.leb_le; lia).
  replace (num <? NBLKDEV) with true
    by (symmetry; unfold NBLKDEV; apply Z.ltb_lt; lia).
  reflexivity.
Qed.

Lemma submit_section_run (num : Z) (total : Z) (a : list Z) :
  0 <= num < NBLKDEV ->
  bio_run (submit_section num) (mkBio total a None)
  = Some (mkBio (total + 1) (set_slot a num (slot a num + 1)) None).
Proof.
  intros Hn. unfold submit_section. simpl.
  rewrite bump_in_range by exact Hn. reflexivity.
Qed.

Lemma complete_section_run (num : Z) (total : Z) (a : list Z) :
  0 <= num < NBLKDEV ->
  bio_run (complete_section num) (mkBio total a None)
  = Some (mkBio (total - 1) (set_slot a num (slot a num + -1)) None).
Proof.
  intros Hn. unfold complete_section. simpl.
  rewrite bump_in_range by exact Hn. reflexivity.
Qed.

Lemma bio_run_app (tr1 tr2 : list bio_action) (b : bio) :
  bio_run (tr1 ++ tr2) b = bio_run tr1 b ≫= bio_run tr2.
Proof.
  revert b. induction tr1 as [|a tr1 IH]; intros b; simpl; [reflexivity|].
  destruct (bio_exec a b); simpl; [apply IH | reflexivity].
Qed.

Lemma bump_back (a : list Z) (num d d' : Z) :
  d + d' = 0 ->
  (Z.to_nat num < length a)%nat ->
  set_slot (set_slot a num (slot a num + d)) num
    (slot (set_slot a num (slot a num + d)) num + d') = a.
Proof.
  intros Hd Hn. rewrite slot_set_eq by exact Hn. rewrite set_slot_twice.
  replace (slot a num + d + d') with (slot a num) by lia.
  apply set_slot_same, Hn.
Qed.

(** X17: the counters of a request.  With [bio_mtx] free and the slot in
    range, the critical section of [rumpuser_bio] followed by that of
    [biocomp] for the same slot gives back the total and every per-slot
    counter exactly; so does the opposite order, in which the completion
    comes first and the counters dip below their value in between; and two
    submissions, to the same or to different slots, give the same counters
    in either order. *)
Theorem submit_complete_round_trip (b : bio) (num m : Z) :
  length (blkdev_outstanding b) = 10%nat ->
  bio_mtx b = None ->
  0 <= num < NBLKDEV ->
  0 <= m < NBLKDEV ->
  bio_run (submit_section num ++ complete_section num) b = Some b
  /\ bio_run (complete_section num ++ submit_section num) b = Some b
  /\ bio_run (submit_section num ++ submit_section m) b
     = bio_run (submit_section m ++ submit_section num) b.
Proof.
  intros Hlen Hfree Hn Hm. destruct b as [total a mtx].
  cbn [bio_mtx blkdev_outstanding] in Hlen, Hfree. subst mtx.
  assert (Z.to_nat num < length a)%nat as Hidx by (unfold NBLKDEV in Hn; lia).
  assert (Z.to_nat m < length a)%nat as Hidm by (unfold NBLKDEV in Hm; lia).
  rewrite !bio_run_app.
  rewrite !submit_section_run, !complete_section_run by assumption.
  cbn [mbind option_bind].
  rewrite !submit_section_run, !complete_section_run by assumption.
  split; [|split].
  - rewrite (bump_back a num 1 (-1)) by (reflexivity || exact Hidx).
    do 2 f_equal. lia.
  - rewrite (bump_back a num (-1) 1) by (reflexivity || exact Hidx).
    do 2 f_equal. lia.
  - do 2 f_equal.
    destruct (Z.eq_dec num m) as [->|Hne]; [reflexivity|].
    rewrite !slot_set_ne by (unfold NBLKDEV in *; lia).
    unfold set_slot. apply list_insert_insert_ne. lia.
Qed.

Lemma submit_complete_round_trip_witness :
  bio_run (submit_section 2 ++ complete_section 2) bio_init = Some bio_init
  /\ bio_run (complete_section 2 ++ submit_section 2) bio_init = Some bio_init
  /\ bio_run (submit_section 2 ++ submit_section 7) bio_init
     = bio_run (submit_section 7 ++ submit_section 2) bio_init.
Proof.
  apply (submit_complete_round_trip bio_init 2 7);
    [reflexivity | reflexivity | unfold NBLKDEV; lia | unfold NBLKDEV; lia].
Defined.

End HyperFacts.

(* ===================================================================== *)
(** * The lazy start of the pump thread, [rumpuser_bio] *)
(* ===================================================================== *)

Module PumpInit.

(** Where a caller of [rumpuser_bio] stands in

      if (!bio_inited) {
              rumpuser_mutex_enter_nowrap(bio_mtx);
              if (!bio_inited) {
                      bio_inited = 1;
                      rumpuser_mutex_exit(bio_mtx);
                      create_thread("biopoll", NULL, biothread, NULL, NULL);
              } else {
                      rumpuser_mutex_exit(bio_mtx);
              }
      }

    [Past] is anywhere outside this block. *)
Inductive init_pc :=
  | Check        (* at the outer if *)
  | Enter        (* at rumpuser_mutex_enter_nowrap *)
  | Recheck      (* at the inner if, holding the mutex *)
  | SetFlag      (* at bio_inited = 1 *)
  | ExitSpawn    (* at the first rumpuser_mutex_exit *)
  | Spawn        (* at create_thread *)
  | ExitSkip     (* at the second rumpuser_mutex_exit *)
  | Past.

(** Modelled from the spec: [rumpuser_mutex_enter_nowrap] and
    [rumpuser_mutex_exit] are not part of the sources; the design document
    describes [bio_mtx] as a mutex.  [init_mtx] is the caller that holds it,
    if any; a caller at [Enter] cannot move while another holds it.
    [spawned] counts the calls of [create_thread("biopoll", ...)]. *)
Record lazy := mkLazy {
  bio_inited : bool;
  init_mtx : option nat;
  spawned : nat;
  pc : nat -> init_pc
}.

Definition lazy_init : lazy := mkLazy false None 0 (fun _ => Past).

Definition at_pc (i : nat) (p : init_pc) (f : nat -> init_pc) : nat -> init_pc :=
  fun j => if decide (j = i) then p else f j.

(** The next statement of caller [i]; a caller that is [Past] calls
    [rumpuser_bio] (again). *)
Definition lazy_step (i : nat) (l : lazy) : option lazy :=
  match pc l i with
  | Past =>
      Some (mkLazy (bio_inited l) (init_mtx l) (spawned l) (at_pc i Check (pc l)))
  | Check =>
      Some (mkLazy (bio_inited l) (init_mtx l) (spawned l)
              (at_pc i (if bio_inited l then Past else Enter) (pc l)))
  | Enter =>
      match init_mtx l with
      | Some _ => None
      | None =>
          Some (mkLazy (bio_inited l) (Some i) (spawned l) (at_pc i Recheck (pc l)))
      end
  | Recheck =>
      Some (mkLazy (bio_inited l) (init_mtx l) (spawned l)
              (at_pc i (if bio_inited l then ExitSkip else SetFlag) (pc l)))
  | SetFlag =>
      Some (mkLazy true (init_mtx l) (spawned l) (at_pc i ExitSpawn (pc l)))
  | ExitSpawn =>
      Some (mkLazy (bio_inited l) None (spawned l) (at_pc i Spawn (pc l)))
  | Spawn =>
      Some (mkLazy (bio_inited l) (init_mtx l) (S (spawned l)) (at_pc i Past (pc l)))
  | ExitSkip =>
      Some (mkLazy (bio_inited l) None (spawned l) (at_pc i Past (pc l)))
  end.

(** A schedule of the callers: who runs the next statement. *)
Fixpoint lazy_run (tr : list nat) (l : lazy) : option lazy :=
  match tr with
  | [] => Some l
  | i :: tr' => l' ← lazy_step i l; lazy_run tr' l'
  end.

End PumpInit.

Module PumpInitFacts.
Import PumpInit.

(** The caller is between [rumpuser_mutex_enter_nowrap] and
    [rumpuser_mutex_exit]. *)
Definition holding (p : init_pc) : bool :=
  match p with
  | Recheck | SetFlag | ExitSpawn | ExitSkip => true
  | _ => false
  end.

(** The caller has set the flag and not yet created the thread. *)
Definition spawning (p : init_pc) : bool :=
  match p with
  | ExitSpawn | Spawn => true
  | _ => false
  end.

Record lazy_inv (l : lazy) : Prop := mkLazyInv {
  inv_holder : forall i, holding (pc l i) = true <-> init_mtx l = Some i;
  inv_setflag : forall i, pc l i = SetFlag -> bio_inited l = false;
  inv_unset : bio_inited l = false ->
              spawned l = 0%nat /\ forall i, spawning (pc l i) = false;
  inv_set : bio_inited l = true ->
            (spawned l = 0%nat
             /\ exists i, spawning (pc l i) = true
                          /\ forall j, spawning (pc l j) = true -> j = i)
            \/ (spawned l = 1%nat /\ forall i, spawning (pc l i) = false)
}.

Lemma lazy_inv_init : lazy_inv lazy_init.
Proof.
  split; simpl.
  - intros i. split; discriminate.
  - discriminate.
  - intros _. split; reflexivity.
  - discriminate.
Qed.

Lemma at_pc_same i p f : at_pc i p f i = p.
Proof. unfold at_pc. destruct (decide (i = i)); congruence. Qed.

Lemma at_pc_other i j p f : j <> i -> at_pc i p f j = f j.
Proof. unfold at_pc. intros H. destruct (decide (j = i)); congruence. Qed.

Ltac split_caller j i :=
  destruct (decide (j = i)) as [->|?];
  [rewrite ?at_pc_same in * | rewrite ?at_pc_other in * by assumption].

(** A move of caller [i] that changes neither who holds the mutex nor who
    is spawning. *)
Lemma lazy_inv_move (l : lazy) (i : nat) (p : init_pc) :
  lazy_inv l ->
  holding p = holding (pc l i) ->
  spawning p = spawning (pc l i) ->
  (p = SetFlag -> bio_inited l = false) ->
  lazy_inv (mkLazy (bio_inited l) (init_mtx l) (spawned l) (at_pc i p (pc l))).
Proof.
  intros [H1 H2 H3 H4] Hh Hs Hset. split; simpl.
  - intros j. split_caller j i; [rewrite Hh|]; apply H1.
  - intros j. split_caller j i; [exact Hset | apply H2].
  - intros Hu. destruct (H3 Hu) as [Hn Hall]. split; [exact Hn|].
    intros j. split_caller j i; [rewrite Hs|]; apply Hall.
  - intros Hi. destruct (H4 Hi) as [(Hn & i0 & Hi0 & Huniq)|(Hn & Hall)].
    + left. split; [exact Hn|]. exists i0. split.
      * split_caller i0 i; [rewrite Hs|]; exact Hi0.
      * intros j Hj. apply Huniq. split_caller j i; [rewrite <- Hs|]; exact Hj.
    + right. split; [exact Hn|].
      intros j. split_caller j i; [rewrite Hs|]; apply Hall.
Qed.

(** The holder of the mutex is the only caller between enter and exit. *)
Lemma only_the_holder (l : lazy) (i j : nat) :
  lazy_inv l -> holding (pc l i) = true -> holding (pc l j) = true -> j = i.
Proof.
  intros [H1 _ _ _] Hi Hj.
  apply H1 in Hi. apply H1 in Hj. congruence.
Qed.

Lemma lazy_inv_step (i : nat) (l l' : lazy) :
  lazy_inv l -> lazy_step i l = Some l' -> lazy_inv l'.
Proof.
  intros Hinv Hstep. unfold lazy_step in Hstep.
  destruct (pc l i) eqn:Hpc.
  - (* Check *)
    injection Hstep as <-.
    apply lazy_inv_move; rewrite ?Hpc; auto;
      destruct (bio_inited l); try reflexivity; discriminate.
  - (* Enter *)
    destruct (init_mtx l) eqn:Hm; [discriminate|]. injection Hstep as <-.
    destruct Hinv as [H1 H2 H3 H4]. split; simpl.
    + intros j. split_caller j i; [split; reflexivity|].
      split.
      * intros Hj. apply H1 in Hj. congruence.
      * intros [= ->]. congruence.
    + intros j. split_caller j i; [discriminate | apply H2].
    + intros Hu. destruct (H3 Hu) as [Hn Hall]. split; [exact Hn|].
      intros j. split_caller j i; [reflexivity | apply Hall].
    + intros Hi. destruct (H4 Hi) as [(Hn & i0 & Hi0 & Huniq)|(Hn & Hall)].
      * left. split; [exact Hn|]. exists i0. split.
        -- split_caller i0 i; [rewrite Hpc in Hi0; discriminate | exact Hi0].
        -- intros j Hj. apply Huniq. split_caller j i; [discriminate | exact Hj].
      * right. split; [exact Hn|].
        intros j. split_caller j i; [reflexivity | apply Hall].
  - (* Recheck *)
    injection Hstep as <-.
    apply lazy_inv_move; rewrite ?Hpc; auto;
      destruct (bio_inited l); try reflexivity; discriminate.
  - (* SetFlag *)
    injection Hstep as <-.
    assert (bio_inited l = false) as Hu by (eapply inv_setflag; eassumption).
    destruct (inv_unset l Hinv Hu) as [Hn Hall].
    split; simpl.
    + intros j. split_caller j i.
      * rewrite <- (inv_holder l Hinv i), Hpc. tauto.
      * apply (inv_holder l Hinv).
    + intros j Hj. exfalso. split_caller j i; [discriminate|].
      assert (j = i); [|contradiction].
      apply (only_the_holder l i j Hinv); [rewrite Hpc | rewrite Hj]; reflexivity.
    + discriminate.
    + intros _. left. split; [exact Hn|]. exists i.
      split; [rewrite at_pc_same; reflexivity|].
      intros j Hj. split_caller j i; [reflexivity|].
      rewrite Hall in Hj. discriminate.
  - (* ExitSpawn *)
    injection Hstep as <-.
    assert (forall j, j <> i -> holding (pc l j) = false) as Hothers.
    { intros j Hne. destruct (holding (pc l j)) eqn:Hj; [|reflexivity].
      exfalso. apply Hne.
      apply (only_the_holder l i j Hinv); [rewrite Hpc; reflexivity | exact Hj]. }
    destruct Hinv as [H1 H2 H3 H4]. split; simpl.
    + intros j. split_caller j i; [split; discriminate|].
      rewrite Hothers by assumption. split; discriminate.
    + intros j. split_caller j i; [discriminate | apply H2].
    + intros Hu. destruct (H3 Hu) as [_ Hall].
      specialize (Hall i). rewrite Hpc in Hall. discriminate.
    + intros Hi. destruct (H4 Hi) as [(Hn & i0 & Hi0 & Huniq)|(Hn & Hall)].
      * left. split; [exact Hn|]. exists i. split; [rewrite at_pc_same; reflexivity|].
        intros j Hj. split_caller j i; [reflexivity|].
        rewrite (Huniq j Hj). symmetry. apply Huniq. rewrite Hpc. reflexivity.
      * specialize (Hall i). rewrite Hpc in Hall. discriminate.
  - (* Spawn *)
    injection Hstep as <-.
    destruct Hinv as [H1 H2 H3 H4]. split; simpl.
    + intros j. split_caller j i; [|apply H1].
      rewrite <- (H1 i), Hpc. tauto.
    + intros j. split_caller j i; [discriminate | apply H2].
    + intros Hu. destruct (H3 Hu) as [_ Hall].
      specialize (Hall i). rewrite Hpc in Hall. discriminate.
    + intros Hi. destruct (H4 Hi) as [(Hn & i0 & Hi0 & Huniq)|(Hn & Hall)].
      * right. split; [rewrite Hn; reflexivity|].
        intros j. split_caller j i; [reflexivity|].
        destruct (spawning (pc l j)) eqn:Hj; [|reflexivity].
        exfalso. assert (j = i); [|contradiction].
        rewrite (Huniq j Hj). symmetry. apply Huniq. rewrite Hpc. reflexivity.
      * specialize (Hall i). rewrite Hpc in Hall. discriminate.
  - (* ExitSkip *)
    injection Hstep as <-.
    assert (forall j, j <> i -> holding (pc l j) = false) as Hothers.
    { intros j Hne. destruct (holding (pc l j)) eqn:Hj; [|reflexivity].
      exfalso. apply Hne.
      apply (only_the_holder l i j Hinv); [rewrite Hpc; reflexivity | exact Hj]. }
    destruct Hinv as [H1 H2 H3 H4]. split; simpl.
    + intros j. split_caller j i; [split; discriminate|].
      rewrite Hothers by assumption. split; discriminate.
    + intros j. split_caller j i; [discriminate | apply H2].
    + intros Hu. destruct (H3 Hu) as [Hn Hall]. split; [exact Hn|].
      intros j. split_caller j i; [reflexivity | apply Hall].
    + intros Hi. destruct (H4 Hi) as [(Hn & i0 & Hi0 & Huniq)|(Hn & Hall)].
      * left. split; [exact Hn|]. exists i0. split.
        -- split_caller i0 i; [rewrite Hpc in Hi0; discriminate | exact Hi0].
        -- intros j Hj. apply Huniq. split_caller j i; [discriminate | exact Hj].
      * right. split; [exact Hn|].
        intros j. split_caller j i; [reflexivity | apply Hall].
  - (* Past *)
    injection Hstep as <-.
    apply lazy_inv_move; rewrite ?Hpc; auto; discriminate.
Qed.

Lemma lazy_inv_run (tr : list nat) :
  forall l l', lazy_inv l -> lazy_run tr l = Some l' -> lazy_inv l'.
Proof.
  induction tr as [|i tr IH]; intros l l' Hl Hrun; simpl in Hrun.
  - injection Hrun as <-. exact Hl.
  - destruct (lazy_step i l) as [l1|] eqn:Hs; simpl in Hrun; [|discriminate].
    exact (IH l1 l' (lazy_inv_step i l l1 Hl Hs) Hrun).
Qed.

(** X18: the pump thread is created at most once.  However the callers of
    [rumpuser_bio] are interleaved, statement by statement, [create_thread]
    for the pump has run at most once; it has run only after [bio_inited]
    was set; while the flag is set and the thread is not yet created, exactly
    one caller stands between setting the flag and [create_thread]; and at
    most one caller is between [rumpuser_mutex_enter_nowrap] and
    [rumpuser_mutex_exit]. *)
Theorem pump_thread_created_once (tr : list nat) (l : lazy) :
  lazy_run tr lazy_init = Some l ->
  (spawned l <= 1)%nat
  /\ (spawned l = 1%nat -> bio_inited l = true)
  /\ (bio_inited l = true -> spawned l = 0%nat ->
        exists i, spawning (pc l i) = true
                  /\ forall j, spawning (pc l j) = true -> j = i)
  /\ (spawned l = 1%nat -> forall i, spawning (pc l i) = false)
  /\ (forall i j, holding (pc l i) = true -> holding (pc l j) = true -> j = i).
Proof.
  intros Hrun.
  pose proof (lazy_inv_run tr _ _ lazy_inv_init Hrun) as Hinv.
  pose proof (inv_unset l Hinv) as Hunset.
  pose proof (inv_set l Hinv) as Hset.
  split; [|split; [|split; [|split]]].
  - destruct (bio_inited l).
    + destruct (Hset eq_refl) as [[Hn _]|[Hn _]]; lia.
    + destruct (Hunset eq_refl) as [Hn _]. lia.
  - intros Hone. destruct (bio_inited l); [reflexivity|].
    destruct (Hunset eq_refl) as [Hn _]. lia.
  - intros Hflag Hzero.
    destruct (Hset Hflag) as [[_ Hex]|[Hn _]]; [exact Hex | lia].
  - intros Hone. destruct (bio_inited l).
    + destruct (Hset eq_refl) as [[Hn _]|[_ Hall]]; [lia | exact Hall].
    + destruct (Hunset eq_refl) as [Hn _]. lia.
  - intros i j. apply (only_the_holder l i j Hinv).
Qed.

(** Two callers race: both pass the outer test, caller 1 takes the mutex
    and creates the thread, caller 2 finds the flag set. *)
Lemma pump_thread_created_once_witness :
  exists l,
    lazy_run [1; 1; 2; 2; 1; 1; 1; 1; 2; 2; 2; 1]%nat lazy_init = Some l
    /\ spawned l = 1%nat
    /\ pc l 1%nat = Past /\ pc l 2%nat = Past
    /\ (spawned l <= 1)%nat.
Proof.
  eexists. split; [vm_compute; reflexivity|].
  split; [reflexivity|]. split; [reflexivity|]. split; [reflexivity|].
  refine (proj1 (pump_thread_created_once
                   [1; 1; 2; 2; 1; 1; 1; 1; 2; 2; 2; 1]%nat _ _)).
  vm_compute. reflexivity.
Defined.

End PumpInitFacts.

(* ===================================================================== *)
(** * The absolute sleep of [rumpuser_clock_sleep] *)
(* ===================================================================== *)

Module ClockFacts.
Import Sched SchedFacts Hyper.




End ClockFacts.
